(** * yoga-layout-taffy: the Node wrapper over the Taffy engine

    A shallow embedding of [src/Node.ts] (the style cache, the edge
    resolvers, the layout pass with its right-to-left mirroring, the dirty
    bookkeeping and the instance registry) and of the parts of
    [src/mapping.ts] it calls, followed by the properties of the
    specification that concern them.

    JavaScript numbers are IEEE-754 doubles and are modelled by Rocq's
    primitive floats, so that [NaN] is a value like any other; equality of
    model values is Leibniz equality (every NaN is the same NaN).

    [Node] objects live in a heap indexed by references; the engine
    ([taffy-js]) is an interface over an abstract tree state. A method that
    recurses over child lists or up the parent chain takes a [fuel] argument
    that bounds the depth of the recursion and returns [None] when the
    recursion does not end within it; every property that says such a method
    returns is proved for a tree of bounded depth and enough fuel. *)

From Stdlib Require Import Floats.PrimFloat.
From stdpp Require Import gmap strings list functions.

Open Scope string_scope.
Open Scope list_scope.

(** ** Enumerations *)

(** Modelled from the spec: [src/enums.ts] is not among the sources; the edge
    keys are the nine the data model lists (Left, Right, Top, Bottom, Start,
    End, Horizontal, Vertical, All). The key End is written [End_]. *)
Module Edge.
Inductive t := Left | Top | Right | Bottom | Start | End_ | Horizontal | Vertical | All.
#[global] Instance eq_dec : EqDecision t.
Proof. solve_decision. Defined.
End Edge.

(** Modelled from the spec: [src/enums.ts] is not among the sources; a writing
    direction is left-to-right, right-to-left, or "inherit". *)
Module Direction.
Inductive t := Inherit | LTR | RTL.
#[global] Instance eq_dec : EqDecision t.
Proof. solve_decision. Defined.
End Direction.

(** Modelled from the spec: [src/enums.ts] is not among the sources; the four
    main-axis directions of the data model. *)
Module FlexDirection.
Inductive t := Column | ColumnReverse | Row | RowReverse.
#[global] Instance eq_dec : EqDecision t.
Proof. solve_decision. Defined.
End FlexDirection.

(** Modelled from the spec: [src/enums.ts] is not among the sources; position
    mode is one of Relative, Absolute, Static. *)
Module PositionType.
Inductive t := Static | Relative | Absolute.
#[global] Instance eq_dec : EqDecision t.
Proof. solve_decision. Defined.
End PositionType.

(** Modelled from the spec: [src/enums.ts] is not among the sources; the tag
    of a [Value]: unset, definite length, percentage, auto. *)
Module Unit.
Inductive t := Undefined | Point | Percent | Auto.
End Unit.

(** Modelled from the spec: [src/enums.ts] is not among the sources; the
    alignment keywords [fromYogaAlignContent] switches on. *)
Module Align.
Inductive t :=
    Auto | FlexStart | Center | FlexEnd | Stretch | Baseline
  | SpaceBetween | SpaceAround | SpaceEvenly.
End Align.

(** Modelled from the spec: [src/enums.ts] is not among the sources; the
    measurement modes of the measurement callback's signature. *)
Module MeasureMode.
Inductive t := Undefined | Exactly | AtMost.
End MeasureMode.

(** The engine's own enumerations ([Taffy.FlexDirection], [Taffy.Position],
    [Taffy.AlignContent]), as [src/mapping.ts] names their members;
    [OtherAlignContent] is any member of [Taffy.AlignContent] that
    [src/mapping.ts] does not name, the one its [default:] branch is for. *)
Module Taffy.
Inductive FlexDirection := Row | Column | RowReverse | ColumnReverse.
Inductive Position := Relative | Absolute.
Inductive AlignContent :=
    FlexStart | Center | FlexEnd | Stretch | SpaceBetween | SpaceAround | SpaceEvenly
  | OtherAlignContent.
#[global] Instance FlexDirection_eq_dec : EqDecision FlexDirection.
Proof. solve_decision. Defined.
End Taffy.

(** ** [src/mapping.ts] *)
Module Mapping.

Definition fromYogaFlexDirection (direction : FlexDirection.t) : Taffy.FlexDirection :=
  match direction with
  | FlexDirection.Row => Taffy.Row
  | FlexDirection.Column => Taffy.Column
  | FlexDirection.RowReverse => Taffy.RowReverse
  | FlexDirection.ColumnReverse => Taffy.ColumnReverse
  end.

Definition toYogaFlexDirection (direction : Taffy.FlexDirection) : FlexDirection.t :=
  match direction with
  | Taffy.Row => FlexDirection.Row
  | Taffy.Column => FlexDirection.Column
  | Taffy.RowReverse => FlexDirection.RowReverse
  | Taffy.ColumnReverse => FlexDirection.ColumnReverse
  end.

Definition fromYogaAlignContent (align : Align.t) : Taffy.AlignContent :=
  match align with
  | Align.FlexStart => Taffy.FlexStart
  | Align.Center => Taffy.Center
  | Align.FlexEnd => Taffy.FlexEnd
  | Align.Stretch => Taffy.Stretch
  | Align.SpaceBetween => Taffy.SpaceBetween
  | Align.SpaceAround => Taffy.SpaceAround
  | Align.SpaceEvenly => Taffy.SpaceEvenly
  | _ => Taffy.Stretch
  end.

Definition fromYogaPositionType (pos : PositionType.t) : Taffy.Position :=
  match pos with
  | PositionType.Relative => Taffy.Relative
  | PositionType.Absolute => Taffy.Absolute
  | PositionType.Static => Taffy.Relative
  end.

End Mapping.

(** ** JavaScript values

    The loosely typed slots of the source ([any], [number | string |
    undefined], and the engine's ["Auto" | {Length} | {Percent}]) share one
    type of values: [JStr "Auto"] is the engine's auto, [JStr "auto"] the
    caller's. *)
Inductive JsVal :=
| JUndefined
| JNum (n : float)
| JStr (s : string)
| JLength (n : float)    (* the object { Length: n } *)
| JPercent (n : float).  (* the object { Percent: n } *)

(** [v === s] for a string literal [s]. *)
Definition isStr (v : JsVal) (s : string) : bool :=
  match v with JStr t => String.eqb t s | _ => false end.

(** [v !== undefined]. *)
Definition isDefined (v : JsVal) : bool :=
  match v with JUndefined => false | _ => true end.

(** [String.prototype.endsWith]. *)
Definition endsWith (s suffix : string) : bool :=
  let n := String.length s in
  let m := String.length suffix in
  (m <=? n)%nat && String.eqb (String.substring (n - m) m s) suffix.

(** The type [Value] of the source. *)
Module Value.
Record t := mk { unit : Unit.t; value : float }.
End Value.

(** The engine's [Rect] of four physical sides. *)
Module Rect.
Record t := mk { left : JsVal; right : JsVal; top : JsVal; bottom : JsVal }.
End Rect.

Definition auto4 : Rect.t := Rect.mk (JStr "Auto") (JStr "Auto") (JStr "Auto") (JStr "Auto").
Definition zero4 : Rect.t := Rect.mk (JLength 0) (JLength 0) (JLength 0) (JLength 0).

(** The fields of the engine's [Taffy.Style] that [Node] writes in the
    methods modelled here. *)
Module Style.
Record t := mk {
  flex_direction : Taffy.FlexDirection;
  align_content : option Taffy.AlignContent;
  position : Taffy.Position;
  inset : Rect.t;
  margin : Rect.t;
  padding : Rect.t;
  border : Rect.t }.
Definition set_flex_direction (v : Taffy.FlexDirection) (s : t) : t :=
  mk v (align_content s) (position s) (inset s) (margin s) (padding s) (border s).
Definition set_align_content (v : Taffy.AlignContent) (s : t) : t :=
  mk (flex_direction s) (Some v) (position s) (inset s) (margin s) (padding s) (border s).
Definition set_position (v : Taffy.Position) (s : t) : t :=
  mk (flex_direction s) (align_content s) v (inset s) (margin s) (padding s) (border s).
Definition set_inset (v : Rect.t) (s : t) : t :=
  mk (flex_direction s) (align_content s) (position s) v (margin s) (padding s) (border s).
Definition set_margin (v : Rect.t) (s : t) : t :=
  mk (flex_direction s) (align_content s) (position s) (inset s) v (padding s) (border s).
Definition set_padding (v : Rect.t) (s : t) : t :=
  mk (flex_direction s) (align_content s) (position s) (inset s) (margin s) v (border s).
Definition set_border (v : Rect.t) (s : t) : t :=
  mk (flex_direction s) (align_content s) (position s) (inset s) (margin s) (padding s) v.
End Style.

(** Modelled from the spec: [src/enums.ts] is not among the sources; the
    box-sizing mode of the style cache. *)
Module BoxSizing.
Inductive t := BorderBox | ContentBox.
End BoxSizing.

(** [Node._styleCache]: the canonical, direction-independent record. A JS
    object indexed by edge is a function from edge keys; a key that was never
    written reads [undefined]. *)
Module StyleCache.
Record t := mk {
  position : PositionType.t;
  flexDirection : FlexDirection.t;
  boxSizing : BoxSizing.t;
  insets : Edge.t -> JsVal;
  borders : Edge.t -> option float;
  margins : Edge.t -> JsVal;
  paddings : Edge.t -> JsVal;
  lastDirection : Direction.t;
  direction : Direction.t }.
Definition set_position (v : PositionType.t) (c : t) : t :=
  mk v (flexDirection c) (boxSizing c) (insets c) (borders c) (margins c) (paddings c)
     (lastDirection c) (direction c).
Definition set_flexDirection (v : FlexDirection.t) (c : t) : t :=
  mk (position c) v (boxSizing c) (insets c) (borders c) (margins c) (paddings c)
     (lastDirection c) (direction c).
Definition set_insets (v : Edge.t -> JsVal) (c : t) : t :=
  mk (position c) (flexDirection c) (boxSizing c) v (borders c) (margins c) (paddings c)
     (lastDirection c) (direction c).
Definition set_borders (v : Edge.t -> option float) (c : t) : t :=
  mk (position c) (flexDirection c) (boxSizing c) (insets c) v (margins c) (paddings c)
     (lastDirection c) (direction c).
Definition set_margins (v : Edge.t -> JsVal) (c : t) : t :=
  mk (position c) (flexDirection c) (boxSizing c) (insets c) (borders c) v (paddings c)
     (lastDirection c) (direction c).
Definition set_paddings (v : Edge.t -> JsVal) (c : t) : t :=
  mk (position c) (flexDirection c) (boxSizing c) (insets c) (borders c) (margins c) v
     (lastDirection c) (direction c).
Definition set_lastDirection (v : Direction.t) (c : t) : t :=
  mk (position c) (flexDirection c) (boxSizing c) (insets c) (borders c) (margins c)
     (paddings c) v (direction c).
Definition set_direction (v : Direction.t) (c : t) : t :=
  mk (position c) (flexDirection c) (boxSizing c) (insets c) (borders c) (margins c)
     (paddings c) (lastDirection c) v.

(** The initializer of [_styleCache]: the six inset keys hold the string
    ["auto"], every border, margin and padding key holds [undefined]. *)
Definition initial : t :=
  mk PositionType.Relative FlexDirection.Column BoxSizing.BorderBox
     (fun e => match e with
               | Edge.Left | Edge.Right | Edge.Top | Edge.Bottom
               | Edge.Start | Edge.End_ => JStr "auto"
               | _ => JUndefined
               end)
     (fun _ => None) (fun _ => JUndefined) (fun _ => JUndefined)
     Direction.LTR Direction.Inherit.
End StyleCache.

(** ** Parsing of dimension inputs *)

(** The host's [parseFloat] and nothing else: a built-in of the language, not
    code of this repository. *)
Class Builtins := { parseFloat : string -> float }.

Section Parsing.
Context `{Builtins}.

(** [Node.parseValue]: a caller's [number | string] to the engine's
    ["Auto" | {Length} | {Percent}]. *)
Definition parseValue (value : JsVal) : JsVal :=
  if isStr value "auto" then JStr "Auto"
  else
    match value with
    | JStr s =>
        if endsWith s "%" then JPercent (parseFloat s / 100)
        else
          let num := parseFloat s in
          if negb (is_nan num) then JLength num else JStr "Auto"
    | JNum n => JLength n
    | _ => JStr "Auto"
    end.

(** [Node.parseToValue]: a cached raw value to a [Value]. *)
Definition parseToValue (val : JsVal) : Value.t :=
  match val with
  | JUndefined => Value.mk Unit.Undefined nan
  | JNum n => Value.mk Unit.Point n
  | JStr s =>
      if String.eqb s "auto" then Value.mk Unit.Auto nan
      else if endsWith s "%" then Value.mk Unit.Percent (parseFloat s)
      else
        let num := parseFloat s in
        if negb (is_nan num) then Value.mk Unit.Point num
        else Value.mk Unit.Undefined nan
  | _ => Value.mk Unit.Undefined nan
  end.

End Parsing.

(** ** The Style Resolver *)

Definition isRTL (c : StyleCache.t) : bool :=
  bool_decide (StyleCache.lastDirection c = Direction.RTL).

(** [Node.resolveInsets]. [get] is [insets[e] ?? "auto"], [parser] turns the
    caller's ["auto"] into the engine's ["Auto"]; a logical edge that is not
    ["Auto"] is written over the physical side it maps to. *)
Definition resolveInsets (c : StyleCache.t) : Rect.t :=
  let parser (v : JsVal) := if isStr v "auto" then JStr "Auto" else v in
  let get (e : Edge.t) :=
    match StyleCache.insets c e with JUndefined => JStr "auto" | v => v end in
  let l := parser (get Edge.Left) in
  let r := parser (get Edge.Right) in
  let t := parser (get Edge.Top) in
  let b := parser (get Edge.Bottom) in
  let s := parser (get Edge.Start) in
  let e := parser (get Edge.End_) in
  let left' := l in
  let right' := r in
  let '(left', right') :=
    if negb (isStr s "Auto")
    then (if isRTL c then (left', s) else (s, right'))
    else (left', right') in
  let '(left', right') :=
    if negb (isStr e "Auto")
    then (if isRTL c then (e, right') else (left', e))
    else (left', right') in
  Rect.mk left' right' t b.

(** The local helper [setPhysical] of the margin, padding and border
    resolvers: [conv] is what the helper does with a cached value
    ([None] when the value is [undefined], so that nothing is written). *)
Definition setPhysical {V} (conv : V -> option JsVal)
    (edge : Edge.t) (value : V) (current : Rect.t) : Rect.t :=
  match conv value with
  | Some parsed =>
      match edge with
      | Edge.Left =>
          Rect.mk parsed (Rect.right current) (Rect.top current) (Rect.bottom current)
      | Edge.Right =>
          Rect.mk (Rect.left current) parsed (Rect.top current) (Rect.bottom current)
      | Edge.Top =>
          Rect.mk (Rect.left current) (Rect.right current) parsed (Rect.bottom current)
      | Edge.Bottom =>
          Rect.mk (Rect.left current) (Rect.right current) (Rect.top current) parsed
      | _ => current
      end
  | None => current
  end.

(** The body of the updater that [resolveMarginsToTaffy],
    [resolvePaddingsToTaffy] and [resolveBordersToTaffy] each pass to
    [updateStyle]: the three are the same statements up to the rectangle
    they start from and the conversion of a cached value. *)
Definition resolveEdges {V} (conv : V -> option JsVal) (start : Rect.t)
    (edges : Edge.t -> V) (rtl : bool) : Rect.t :=
  let set := setPhysical conv in
  let current := start in
  (* Apply compound edges first (All, Horizontal, Vertical) *)
  let current :=
    if conv (edges Edge.All) is Some _ then
      set Edge.Bottom (edges Edge.All) (set Edge.Top (edges Edge.All)
        (set Edge.Right (edges Edge.All) (set Edge.Left (edges Edge.All) current)))
    else current in
  let current :=
    if conv (edges Edge.Horizontal) is Some _ then
      set Edge.Right (edges Edge.Horizontal) (set Edge.Left (edges Edge.Horizontal) current)
    else current in
  let current :=
    if conv (edges Edge.Vertical) is Some _ then
      set Edge.Bottom (edges Edge.Vertical) (set Edge.Top (edges Edge.Vertical) current)
    else current in
  (* Apply logical edges (Start/End) based on direction *)
  let current :=
    if conv (edges Edge.Start) is Some _ then
      if rtl then set Edge.Right (edges Edge.Start) current
      else set Edge.Left (edges Edge.Start) current
    else current in
  let current :=
    if conv (edges Edge.End_) is Some _ then
      if rtl then set Edge.Left (edges Edge.End_) current
      else set Edge.Right (edges Edge.End_) current
    else current in
  (* Apply physical edges (Left, Right, Top, Bottom) *)
  let current := set Edge.Left (edges Edge.Left) current in
  let current := set Edge.Right (edges Edge.Right) current in
  let current := set Edge.Top (edges Edge.Top) current in
  let current := set Edge.Bottom (edges Edge.Bottom) current in
  current.

Section Resolver.
Context `{Builtins}.

(** What the margin and padding helpers do with a cached value:
    [if (value !== undefined) parsed = this.parseValue(value)]. *)
Definition parsedEdge (value : JsVal) : option JsVal :=
  if isDefined value then Some (parseValue value) else None.

(** What the border helper does: [if (value !== undefined) { Length: value }]. *)
Definition borderEdge (value : option float) : option JsVal :=
  JLength <$> value.

(** The rectangle [resolveMarginsToTaffy] assigns to [s.margin]. *)
Definition resolveMargins (c : StyleCache.t) : Rect.t :=
  resolveEdges parsedEdge auto4 (StyleCache.margins c) (isRTL c).

(** The rectangle [resolvePaddingsToTaffy] assigns to [s.padding]. *)
Definition resolvePaddings (c : StyleCache.t) : Rect.t :=
  resolveEdges parsedEdge zero4 (StyleCache.paddings c) (isRTL c).

(** The rectangle [resolveBordersToTaffy] assigns to [s.border]. *)
Definition resolveBorders (c : StyleCache.t) : Rect.t :=
  resolveEdges borderEdge zero4 (StyleCache.borders c) (isRTL c).

(** *** Vocabulary of the resolver's properties *)

(** The physical side of a rectangle an edge key names. *)
Definition sideOf (side : Edge.t) (r : Rect.t) : JsVal :=
  match side with
  | Edge.Left => Rect.left r
  | Edge.Right => Rect.right r
  | Edge.Top => Rect.top r
  | Edge.Bottom => Rect.bottom r
  | _ => JUndefined
  end.

Definition physical (side : Edge.t) : Prop :=
  side = Edge.Left \/ side = Edge.Right \/ side = Edge.Top \/ side = Edge.Bottom.

(** The cached inset of an edge as [resolveInsets] reads it. *)
Definition insetAt (c : StyleCache.t) (e : Edge.t) : JsVal :=
  let v := match StyleCache.insets c e with JUndefined => JStr "auto" | v => v end in
  if isStr v "auto" then JStr "Auto" else v.

(** The logical edge that lands on a physical side under a direction. *)
Definition logicalFor (rtl : bool) (side : Edge.t) : option Edge.t :=
  match side with
  | Edge.Left => Some (if rtl then Edge.End_ else Edge.Start)
  | Edge.Right => Some (if rtl then Edge.Start else Edge.End_)
  | _ => None
  end.

End Resolver.

(** ** The engine's interface *)

(** An engine handle ([bigint]) and a reference to a [Node] object. *)
Definition NodeId := N.
Definition NodeRef := nat.

Module Size.
Record t := mk { width : float; height : float }.
End Size.

Module Point.
Record t := mk { x : float; y : float }.
End Point.

(** What [tree.getLayout(id)] returns: a location and a size, nothing else. *)
Module Layout.
Record t := mk { location : Point.t; size : Size.t }.
End Layout.

(** One axis of the available space handed to the engine. *)
Inductive AvailableSpace := MaxContent | MinContent | Definite (n : float).

Module Available.
Record t := mk { width : AvailableSpace; height : AvailableSpace }.
End Available.

(** A caller's measurement callback; [None] is a call that throws. *)
Definition MeasureFunction :=
  float -> MeasureMode.t -> float -> MeasureMode.t -> option Size.t.

(** The callback [calculateLayout] hands to the engine: known dimensions
    (never read), available space and the node's context. *)
Definition MeasureDispatcher := Size.t -> Available.t -> NodeId -> option Size.t.

(** A caller's dirtied-callback. Its body is the caller's; the model keeps
    the callback's identity and records every invocation with its argument
    in [dirtiedCalls]; a callback is taken not to touch the tree. *)
Definition DirtiedFunction := nat.

(** The methods of [Taffy.TaffyTree] that [Node] calls, over an abstract tree
    state. [taffy-js] is an external package: every property below that
    needs more than the signatures states what it assumes of the engine.
    [computeLayoutWithMeasure] returns [None] when the call throws; the other
    methods are taken to return. *)
Class Engine := {
  TaffyTree : Type;
  newStyle : Style.t;
  newLeaf : TaffyTree -> Style.t -> NodeId * TaffyTree;
  remove : TaffyTree -> NodeId -> TaffyTree;
  getStyle : TaffyTree -> NodeId -> Style.t;
  setStyle : TaffyTree -> NodeId -> Style.t -> TaffyTree;
  getLayout : TaffyTree -> NodeId -> Layout.t;
  dirty : TaffyTree -> NodeId -> bool;
  markDirty : TaffyTree -> NodeId -> TaffyTree;
  insertChildAtIndex : TaffyTree -> NodeId -> nat -> NodeId -> TaffyTree;
  setNodeContext : TaffyTree -> NodeId -> option NodeId -> TaffyTree;
  computeLayoutWithMeasure :
    TaffyTree -> NodeId -> Available.t -> MeasureDispatcher -> option TaffyTree }.

(** ** Node objects *)

Module Node.
Record t := mk {
  id : NodeId;
  childList : list NodeRef;
  parent : option NodeRef;
  measureFunc : option MeasureFunction;
  dirtiedFunc : option DirtiedFunction;
  _isDirty : bool;
  _hasNewLayout : bool;
  _isReferenceBaseline : bool;
  _styleCache : StyleCache.t }.
Definition set_childList (v : list NodeRef) (n : t) : t :=
  mk (id n) v (parent n) (measureFunc n) (dirtiedFunc n) (_isDirty n) (_hasNewLayout n)
     (_isReferenceBaseline n) (_styleCache n).
Definition set_parent (v : option NodeRef) (n : t) : t :=
  mk (id n) (childList n) v (measureFunc n) (dirtiedFunc n) (_isDirty n) (_hasNewLayout n)
     (_isReferenceBaseline n) (_styleCache n).
Definition set_measureFunc (v : option MeasureFunction) (n : t) : t :=
  mk (id n) (childList n) (parent n) v (dirtiedFunc n) (_isDirty n) (_hasNewLayout n)
     (_isReferenceBaseline n) (_styleCache n).
Definition set_dirtiedFunc (v : option DirtiedFunction) (n : t) : t :=
  mk (id n) (childList n) (parent n) (measureFunc n) v (_isDirty n) (_hasNewLayout n)
     (_isReferenceBaseline n) (_styleCache n).
Definition set_isDirty (v : bool) (n : t) : t :=
  mk (id n) (childList n) (parent n) (measureFunc n) (dirtiedFunc n) v (_hasNewLayout n)
     (_isReferenceBaseline n) (_styleCache n).
Definition set_hasNewLayout (v : bool) (n : t) : t :=
  mk (id n) (childList n) (parent n) (measureFunc n) (dirtiedFunc n) (_isDirty n) v
     (_isReferenceBaseline n) (_styleCache n).
Definition set_styleCache (v : StyleCache.t) (n : t) : t :=
  mk (id n) (childList n) (parent n) (measureFunc n) (dirtiedFunc n) (_isDirty n)
     (_hasNewLayout n) (_isReferenceBaseline n) v.
Definition upd_styleCache (f : StyleCache.t -> StyleCache.t) (n : t) : t :=
  set_styleCache (f (_styleCache n)) n.

(** The field initializers of the class, for a node whose handle is [i]. *)
Definition fresh (i : NodeId) : t :=
  mk i [] None None None false true false StyleCache.initial.
End Node.

Section World.
Context `{Builtins} `{Engine}.

(** The state the methods of [Node] run in: the [Node] objects, the static
    [Node.instanceCache], the tree and the web-defaults flag of the [Config]
    the nodes were created under, and the record of dirtied-callback
    invocations (oldest first). *)
Record World := mkWorld {
  heap : NodeRef -> Node.t;
  nextRef : NodeRef;
  instanceCache : gmap N NodeRef;
  tree : TaffyTree;
  useWebDefaults : bool;
  dirtiedCalls : list (DirtiedFunction * NodeRef) }.

Definition with_heap (v : NodeRef -> Node.t) (w : World) : World :=
  mkWorld v (nextRef w) (instanceCache w) (tree w) (useWebDefaults w) (dirtiedCalls w).
Definition with_instanceCache (v : gmap N NodeRef) (w : World) : World :=
  mkWorld (heap w) (nextRef w) v (tree w) (useWebDefaults w) (dirtiedCalls w).
Definition with_tree (v : TaffyTree) (w : World) : World :=
  mkWorld (heap w) (nextRef w) (instanceCache w) v (useWebDefaults w) (dirtiedCalls w).
Definition with_dirtiedCalls (v : list (DirtiedFunction * NodeRef)) (w : World) : World :=
  mkWorld (heap w) (nextRef w) (instanceCache w) (tree w) (useWebDefaults w) v.

(** Assignment to fields of the object [this]. *)
Definition modify (this : NodeRef) (f : Node.t -> Node.t) (w : World) : World :=
  with_heap (<[this := f (heap w this)]> (heap w)) w.

(** The call [f(node)] of a dirtied-callback. *)
Definition callDirtied (f : DirtiedFunction) (node : NodeRef) (w : World) : World :=
  with_dirtiedCalls (dirtiedCalls w ++ [(f, node)]) w.

(** The handle and the cache of [this]. *)
Definition idOf (w : World) (this : NodeRef) : NodeId := Node.id (heap w this).
Definition cacheOf (w : World) (this : NodeRef) : StyleCache.t :=
  Node._styleCache (heap w this).
Definition updCache (this : NodeRef) (f : StyleCache.t -> StyleCache.t) (w : World) : World :=
  modify this (Node.upd_styleCache f) w.

(** The loop [for (const child of this.childList) child.k()]. *)
Fixpoint forChildren (k : NodeRef -> World -> option World)
    (children : list NodeRef) (w : World) : option World :=
  match children with
  | [] => Some w
  | child :: rest =>
      match k child w with
      | Some w' => forChildren k rest w'
      | None => None
      end
  end.

(** *** Dirty bookkeeping *)

(** A JS truthiness test of a nullable callback slot. *)
Definition truthy {A} (o : option A) : bool :=
  match o with Some _ => true | None => false end.

(** [Node.markDirtyInternal]. *)
Definition markDirtyInternal (this : NodeRef) (w : World) : World :=
  let n := heap w this in
  if negb (Node._isDirty n) && truthy (Node.measureFunc n) && truthy (Node.dirtiedFunc n)
  then
    let w := modify this (Node.set_isDirty true) w in
    match Node.dirtiedFunc (heap w this) with
    | Some f => callDirtied f this w
    | None => w
    end
  else if negb (Node._isDirty n) then modify this (Node.set_isDirty true) w
  else w.

(** [Node.updateStyle]. *)
Definition updateStyle (this : NodeRef) (updater : Style.t -> Style.t) (w : World) : World :=
  let style := getStyle (tree w) (idOf w this) in
  let style := updater style in
  let w := with_tree (setStyle (tree w) (idOf w this) style) w in
  markDirtyInternal this w.

(** [Node.propagateDirtyToParent]; [fuel] bounds the walk up the parent
    chain. *)
Fixpoint propagateDirtyToParent (fuel : nat) (this : NodeRef) (w : World) : option World :=
  match fuel with
  | O => None
  | S fuel' =>
      match Node.parent (heap w this) with
      | Some p =>
          let w :=
            if negb (Node._isDirty (heap w p)) then
              let w := modify p (Node.set_isDirty true) w in
              match Node.dirtiedFunc (heap w p) with
              | Some f => callDirtied f p w
              | None => w
              end
            else w in
          propagateDirtyToParent fuel' p w
      | None => Some w
      end
  end.

(** [Node.markDirty]. *)
Definition markDirtyNode (fuel : nat) (this : NodeRef) (w : World) : option World :=
  match Node.measureFunc (heap w this) with
  | Some _ =>
      let w := with_tree (markDirty (tree w) (idOf w this)) w in
      let w := markDirtyInternal this w in
      propagateDirtyToParent fuel this w
  | None => Some w
  end.

(** [Node.isDirty], [Node.hasNewLayout], [Node.markLayoutSeen]. *)
Definition isDirty (w : World) (this : NodeRef) : bool := dirty (tree w) (idOf w this).
Definition hasNewLayout (w : World) (this : NodeRef) : bool :=
  Node._hasNewLayout (heap w this).
Definition markLayoutSeen (this : NodeRef) (w : World) : World :=
  modify this (Node.set_hasNewLayout false) w.

(** [Node.setMeasureFunc], [Node.setDirtiedFunc]. *)
Definition setMeasureFunc (this : NodeRef) (measureFunc : option MeasureFunction)
    (w : World) : World :=
  match measureFunc with
  | None =>
      let w := with_tree (setNodeContext (tree w) (idOf w this) None) w in
      modify this (Node.set_measureFunc None) w
  | Some _ =>
      let w := modify this (Node.set_measureFunc measureFunc) w in
      with_tree (setNodeContext (tree w) (idOf w this) (Some (idOf w this))) w
  end.

Definition setDirtiedFunc (this : NodeRef) (dirtiedFunc : option DirtiedFunction)
    (w : World) : World :=
  modify this (Node.set_dirtiedFunc dirtiedFunc) w.

(** *** Construction, registry and tree operations *)

(** [Node.setFlexDirection], [Node.setAlignContent], [Node.setDirection]. *)
Definition setFlexDirection (this : NodeRef) (flexDirection : FlexDirection.t)
    (w : World) : World :=
  let w := updCache this (StyleCache.set_flexDirection flexDirection) w in
  updateStyle this
    (Style.set_flex_direction (Mapping.fromYogaFlexDirection flexDirection)) w.

Definition setAlignContent (this : NodeRef) (alignContent : Align.t) (w : World) : World :=
  updateStyle this (Style.set_align_content (Mapping.fromYogaAlignContent alignContent)) w.

Definition setDirection (this : NodeRef) (direction : Direction.t) (w : World) : World :=
  updCache this (StyleCache.set_direction direction) w.

Definition getDirection (w : World) (this : NodeRef) : Direction.t :=
  StyleCache.direction (cacheOf w this).

(** The constructor of [Node], under the world's [Config]: a new object, a
    new engine leaf, the registration, then the two default assignments
    unless the config uses web defaults. *)
Definition newNode (w : World) : NodeRef * World :=
  let '(i, t) := newLeaf (tree w) newStyle in
  let this := nextRef w in
  let w :=
    mkWorld (<[this := Node.fresh i]> (heap w)) (S this)
            (<[i := this]> (instanceCache w)) t (useWebDefaults w) (dirtiedCalls w) in
  if negb (useWebDefaults w) then
    let w := setFlexDirection this FlexDirection.Column w in
    let w := setAlignContent this Align.FlexStart w in
    (this, w)
  else (this, w).

(** [Node.getNodeById]. *)
Definition getNodeById (w : World) (i : NodeId) : option NodeRef := instanceCache w !! i.

(** [Node.free]. *)
Definition free (this : NodeRef) (w : World) : World :=
  let w := with_tree (remove (tree w) (idOf w this)) w in
  with_instanceCache (delete (idOf w this) (instanceCache w)) w.

(** [Node.freeRecursive]; [fuel] bounds the depth of the recursion. *)
Fixpoint freeRecursive (fuel : nat) (this : NodeRef) (w : World) : option World :=
  match fuel with
  | O => None
  | S fuel' =>
      match forChildren (freeRecursive fuel') (Node.childList (heap w this)) w with
      | Some w => Some (free this w)
      | None => None
      end
  end.

(** [Node.insertChild]: [splice(index, 0, child)] inserts at the end when
    [index] is past it. *)
Definition insertChild (this child : NodeRef) (index : nat) (w : World) : World :=
  let w := with_tree (insertChildAtIndex (tree w) (idOf w this) index (idOf w child)) w in
  let w :=
    modify this
      (fun n => Node.set_childList
                  (take index (Node.childList n) ++ child :: drop index (Node.childList n)) n)
      w in
  modify child (Node.set_parent (Some this)) w.

(** *** Edge setters and getters *)

(** [Node.syncStyle]. *)
Definition syncStyle (this : NodeRef) (w : World) : World :=
  let c := cacheOf w this in
  updateStyle this
    (fun s =>
       let s := Style.set_position (Mapping.fromYogaPositionType (StyleCache.position c)) s in
       let isStatic := bool_decide (StyleCache.position c = PositionType.Static) in
       let effectiveInsets := if isStatic then auto4 else resolveInsets c in
       Style.set_inset effectiveInsets s)
    w.

(** [Node.setPosition]: [position ?? "auto"] is parsed, then fanned out over
    the cache; the compound keys themselves are never written. *)
Definition setPosition (this : NodeRef) (edge : Edge.t) (position : JsVal) (w : World) : World :=
  let val := parseValue (match position with JUndefined => JStr "auto" | v => v end) in
  let targets :=
    match edge with
    | Edge.All =>
        [Edge.Left; Edge.Right; Edge.Top; Edge.Bottom; Edge.Start; Edge.End_]
    | Edge.Horizontal => [Edge.Left; Edge.Right; Edge.Start; Edge.End_]
    | Edge.Vertical => [Edge.Top; Edge.Bottom]
    | _ => [edge]
    end in
  let w :=
    updCache this
      (fun c => StyleCache.set_insets
                  (foldl (fun m e => <[e := val]> m) (StyleCache.insets c) targets) c)
      w in
  syncStyle this w.

(** [Node.getPosition]. *)
Definition getPosition (w : World) (this : NodeRef) (edge : Edge.t) : Value.t :=
  match edge with
  | Edge.All | Edge.Horizontal | Edge.Vertical => Value.mk Unit.Undefined nan
  | _ => parseToValue (StyleCache.insets (cacheOf w this) edge)
  end.

(** [Node.resolveMarginsToTaffy], [Node.setMargin], [Node.getMargin]. *)
Definition resolveMarginsToTaffy (this : NodeRef) (w : World) : World :=
  updateStyle this (Style.set_margin (resolveMargins (cacheOf w this))) w.

Definition setMargin (this : NodeRef) (edge : Edge.t) (margin : JsVal) (w : World) : World :=
  let w :=
    updCache this (fun c => StyleCache.set_margins (<[edge := margin]> (StyleCache.margins c)) c) w in
  resolveMarginsToTaffy this w.

Definition getMargin (w : World) (this : NodeRef) (edge : Edge.t) : Value.t :=
  match edge with
  | Edge.All | Edge.Horizontal | Edge.Vertical => Value.mk Unit.Undefined nan
  | _ => parseToValue (StyleCache.margins (cacheOf w this) edge)
  end.

(** [Node.resolvePaddingsToTaffy], [Node.setPadding], [Node.getPadding]. *)
Definition resolvePaddingsToTaffy (this : NodeRef) (w : World) : World :=
  updateStyle this (Style.set_padding (resolvePaddings (cacheOf w this))) w.

Definition setPadding (this : NodeRef) (edge : Edge.t) (padding : JsVal) (w : World) : World :=
  let w :=
    updCache this
      (fun c => StyleCache.set_paddings (<[edge := padding]> (StyleCache.paddings c)) c) w in
  resolvePaddingsToTaffy this w.

Definition getPadding (w : World) (this : NodeRef) (edge : Edge.t) : Value.t :=
  match edge with
  | Edge.All | Edge.Horizontal | Edge.Vertical => Value.mk Unit.Undefined nan
  | _ => parseToValue (StyleCache.paddings (cacheOf w this) edge)
  end.

(** [Node.resolveBordersToTaffy], [Node.setBorder], [Node.getBorder]. *)
Definition resolveBordersToTaffy (this : NodeRef) (w : World) : World :=
  updateStyle this (Style.set_border (resolveBorders (cacheOf w this))) w.

Definition setBorder (this : NodeRef) (edge : Edge.t) (borderWidth : option float)
    (w : World) : World :=
  let w :=
    updCache this
      (fun c => StyleCache.set_borders (<[edge := borderWidth]> (StyleCache.borders c)) c) w in
  resolveBordersToTaffy this w.

Definition getBorder (w : World) (this : NodeRef) (edge : Edge.t) : float :=
  match edge with
  | Edge.All | Edge.Horizontal | Edge.Vertical => nan
  | _ =>
      match StyleCache.borders (cacheOf w this) edge with
      | Some val => val
      | None => nan
      end
  end.

(** [Node.resolveInsetsToTaffy]: this node, then every child after it was
    given this node's last direction. *)
Fixpoint resolveInsetsToTaffy (fuel : nat) (this : NodeRef) (w : World) : option World :=
  match fuel with
  | O => None
  | S fuel' =>
      let isStatic :=
        bool_decide (StyleCache.position (cacheOf w this) = PositionType.Static) in
      let w :=
        if isStatic then updateStyle this (Style.set_inset auto4) w
        else updateStyle this (Style.set_inset (resolveInsets (cacheOf w this))) w in
      forChildren
        (fun child w =>
           let w :=
             updCache child
               (StyleCache.set_lastDirection (StyleCache.lastDirection (cacheOf w this))) w in
           resolveInsetsToTaffy fuel' child w)
        (Node.childList (heap w this)) w
  end.

(** *** The layout pass *)

(** [Node.applyRTLFlip]: the flipped direction goes to the engine's style,
    the cache keeps the canonical one. *)
Fixpoint applyRTLFlip (fuel : nat) (this : NodeRef) (w : World) : option World :=
  match fuel with
  | O => None
  | S fuel' =>
      let fd := StyleCache.flexDirection (cacheOf w this) in
      let flippedFd :=
        match fd with
        | FlexDirection.Row => FlexDirection.RowReverse
        | FlexDirection.RowReverse => FlexDirection.Row
        | _ => fd
        end in
      let w :=
        updateStyle this
          (Style.set_flex_direction (Mapping.fromYogaFlexDirection flippedFd)) w in
      forChildren (applyRTLFlip fuel') (Node.childList (heap w this)) w
  end.

(** [Node.restoreFlexDirection]. *)
Fixpoint restoreFlexDirection (fuel : nat) (this : NodeRef) (w : World) : option World :=
  match fuel with
  | O => None
  | S fuel' =>
      let fd := StyleCache.flexDirection (cacheOf w this) in
      let w :=
        updateStyle this (Style.set_flex_direction (Mapping.fromYogaFlexDirection fd)) w in
      forChildren (restoreFlexDirection fuel') (Node.childList (heap w this)) w
  end.

(** [Node.markNewLayoutRecursive]. *)
Fixpoint markNewLayoutRecursive (fuel : nat) (this : NodeRef) (w : World) : option World :=
  match fuel with
  | O => None
  | S fuel' =>
      let w := modify this (Node.set_isDirty false) w in
      let w := modify this (Node.set_hasNewLayout true) w in
      forChildren (markNewLayoutRecursive fuel') (Node.childList (heap w this)) w
  end.

(** The closure [measureDispatcher] of [calculateLayout]. *)
Definition mapToYoga (space : AvailableSpace) : float * MeasureMode.t :=
  match space with
  | Definite n => (n, MeasureMode.Exactly)
  | MaxContent => (nan, MeasureMode.Undefined)
  | MinContent => (0%float, MeasureMode.AtMost)
  end.

Definition measureDispatcher (w : World) : MeasureDispatcher :=
  fun knownDimensions availableSpace nodeId =>
    match getNodeById w nodeId with
    | Some node =>
        match Node.measureFunc (heap w node) with
        | Some measureFunc =>
            let '(w_, wMode) := mapToYoga (Available.width availableSpace) in
            let '(h_, hMode) := mapToYoga (Available.height availableSpace) in
            match measureFunc w_ wMode h_ hMode with
            | Some result => Some (Size.mk (Size.width result) (Size.height result))
            | None => None
            end
        | None => Some (Size.mk 0 0)
        end
    | None => Some (Size.mk 0 0)
    end.

(** How a call of [calculateLayout] ends: it returns, or the engine's
    computation throws and the exception leaves the method at that point. *)
Inductive Outcome :=
| Returned (w : World)
| Threw (w : World).

(** [Node.calculateLayout]. [direction = None] is the omitted argument, a
    missing width or height is [NaN]. [None] is a recursion that ran out of
    [fuel]. *)
Definition calculateLayout (fuel : nat) (this : NodeRef) (width height : float)
    (direction : option Direction.t) (w : World) : option Outcome :=
  let effectiveDirection :=
    match direction with
    | Some d => d
    | None =>
        let d := getDirection w this in
        if bool_decide (d = Direction.Inherit) then Direction.LTR else d
    end in
  let w := updCache this (StyleCache.set_lastDirection effectiveDirection) w in
  let isRTL := bool_decide (effectiveDirection = Direction.RTL) in
  let w := resolveBordersToTaffy this w in
  let w := resolveMarginsToTaffy this w in
  let w := resolvePaddingsToTaffy this w in
  w ← resolveInsetsToTaffy fuel this w;
  w ← (if isRTL then applyRTLFlip fuel this w else Some w);
  let availableSpace :=
    Available.mk (if is_nan width then MaxContent else Definite width)
                 (if is_nan height then MaxContent else Definite height) in
  match computeLayoutWithMeasure (tree w) (idOf w this) availableSpace (measureDispatcher w) with
  | None => Some (Threw w)
  | Some t =>
      let w := with_tree t w in
      w ← (if isRTL then restoreFlexDirection fuel this w else Some w);
      w ← markNewLayoutRecursive fuel this w;
      Some (Returned w)
  end.

(** *** Computed geometry *)

Definition getComputedLeft (w : World) (this : NodeRef) : float :=
  let l := getLayout (tree w) (idOf w this) in Point.x (Layout.location l).
Definition getComputedTop (w : World) (this : NodeRef) : float :=
  let l := getLayout (tree w) (idOf w this) in Point.y (Layout.location l).
Definition getComputedRight (w : World) (this : NodeRef) : float :=
  let l := getLayout (tree w) (idOf w this) in
  (Point.x (Layout.location l) + Size.width (Layout.size l))%float.
Definition getComputedBottom (w : World) (this : NodeRef) : float :=
  let l := getLayout (tree w) (idOf w this) in
  (Point.y (Layout.location l) + Size.height (Layout.size l))%float.
Definition getComputedWidth (w : World) (this : NodeRef) : float :=
  let l := getLayout (tree w) (idOf w this) in Size.width (Layout.size l).
Definition getComputedHeight (w : World) (this : NodeRef) : float :=
  let l := getLayout (tree w) (idOf w this) in Size.height (Layout.size l).

(** The object [getComputedLayout] returns. *)
Record ComputedLayout := mkComputedLayout {
  cl_left : float; cl_top : float; cl_width : float; cl_height : float;
  cl_right : float; cl_bottom : float }.

Definition getComputedLayout (w : World) (this : NodeRef) : ComputedLayout :=
  let l := getLayout (tree w) (idOf w this) in
  mkComputedLayout
    (Point.x (Layout.location l)) (Point.y (Layout.location l))
    (Size.width (Layout.size l)) (Size.height (Layout.size l))
    (Point.x (Layout.location l) + Size.width (Layout.size l))%float
    (Point.y (Layout.location l) + Size.height (Layout.size l))%float.

(** *** The shape of a tree of nodes *)

(** [depthLe w n r]: following child lists from [r] ends within [n] levels;
    this is what makes the recursive methods return. *)
Fixpoint depthLe (w : World) (n : nat) (r : NodeRef) : Prop :=
  match n with
  | O => False
  | S n' => Forall (depthLe w n') (Node.childList (heap w r))
  end.

(** [descendant w r x]: [x] is [r] or is reached from [r] through child
    lists, that is, [x] is a node a recursive method started at [r] visits. *)
Inductive descendant (w : World) : NodeRef -> NodeRef -> Prop :=
| desc_self r : descendant w r r
| desc_child r c x :
    c ∈ Node.childList (heap w r) -> descendant w c x -> descendant w r x.

(** [ancestors w r l]: [l] is the parent chain of [r], nearest first. *)
Inductive ancestors (w : World) : NodeRef -> list NodeRef -> Prop :=
| anc_root r : Node.parent (heap w r) = None -> ancestors w r []
| anc_step r p l :
    Node.parent (heap w r) = Some p -> ancestors w p l -> ancestors w r (p :: l).

(** *** Vocabulary of the properties *)

(** The invocation a Clean-to-Dirty transition of [this] makes on its own
    account: the callback of [this], if [this] is Clean and has both a
    measurement callback and a dirtied-callback. *)
Definition ownFiring (w : World) (this : NodeRef) : list (DirtiedFunction * NodeRef) :=
  let n := heap w this in
  match Node.measureFunc n, Node.dirtiedFunc n with
  | Some _, Some f => if Node._isDirty n then [] else [(f, this)]
  | _, _ => []
  end.

(** The invocations an upward propagation makes along the chain [l]: one per
    ancestor that is Clean and has a dirtied-callback, nearest first. *)
Definition ancestorFiring (w : World) (l : list NodeRef) : list (DirtiedFunction * NodeRef) :=
  flat_map
    (fun a =>
       match Node.dirtiedFunc (heap w a) with
       | Some f => if Node._isDirty (heap w a) then [] else [(f, a)]
       | None => []
       end) l.

(** A style-mutating operation of the public interface: a style setter of
    the source. The setters that are not modelled one by one ([setFlexWrap],
    [setAlignItems], [setWidth], ...) are each one call of [updateStyle]
    with an updater of their own and come under [OtherSetter].
    [setDirection] is a style setter too, the only one that does not go
    through [updateStyle]: it records the direction in the cache and calls
    nothing. *)
Inductive StyleMutation :=
| SetFlexDirection (flexDirection : FlexDirection.t)
| SetAlignContent (alignContent : Align.t)
| SetPosition (edge : Edge.t) (position : JsVal)
| SetMargin (edge : Edge.t) (margin : JsVal)
| SetPadding (edge : Edge.t) (padding : JsVal)
| SetBorder (edge : Edge.t) (borderWidth : option float)
| OtherSetter (updater : Style.t -> Style.t)
| SetDirection (direction : Direction.t).

Definition mutate (this : NodeRef) (m : StyleMutation) (w : World) : World :=
  match m with
  | SetFlexDirection fd => setFlexDirection this fd w
  | SetAlignContent a => setAlignContent this a w
  | SetPosition e v => setPosition this e v w
  | SetMargin e v => setMargin this e v w
  | SetPadding e v => setPadding this e v w
  | SetBorder e b => setBorder this e b w
  | OtherSetter updater => updateStyle this updater w
  | SetDirection d => setDirection this d w
  end.

(** The style mutations that write the engine's style, that is, that go
    through [updateStyle]: all but [setDirection]. *)
Definition writesStyle (m : StyleMutation) : bool :=
  match m with
  | SetDirection _ => false
  | _ => true
  end.

(** The live main-axis direction of a node in the engine, and the two
    values it is compared with: the canonical one of the cache and its
    right-to-left mirror image. *)
Definition liveFlexDirection (w : World) (x : NodeRef) : Taffy.FlexDirection :=
  Style.flex_direction (getStyle (tree w) (idOf w x)).

Definition canonicalFlexDirection (w : World) (x : NodeRef) : Taffy.FlexDirection :=
  Mapping.fromYogaFlexDirection (StyleCache.flexDirection (cacheOf w x)).

Definition mirroredFlexDirection (w : World) (x : NodeRef) : Taffy.FlexDirection :=
  let fd := StyleCache.flexDirection (cacheOf w x) in
  Mapping.fromYogaFlexDirection
    match fd with
    | FlexDirection.Row => FlexDirection.RowReverse
    | FlexDirection.RowReverse => FlexDirection.Row
    | _ => fd
    end.

(** The not-set sentinel of the edge getters. *)
Definition unsetValue : Value.t := Value.mk Unit.Undefined nan.

(** The common shape of the recursive methods that go down the tree: do
    something to this node ([visit]), then for each child do something to
    the child from this node ([enter]) and recurse. It is what the
    properties of [resolveInsetsToTaffy], [applyRTLFlip],
    [restoreFlexDirection] and [markNewLayoutRecursive] are proved about. *)
Fixpoint preorder (visit : NodeRef -> World -> World)
    (enter : NodeRef -> NodeRef -> World -> World)
    (fuel : nat) (this : NodeRef) (w : World) : option World :=
  match fuel with
  | O => None
  | S fuel' =>
      let w := visit this w in
      forChildren (fun child w => preorder visit enter fuel' child (enter this child w))
        (Node.childList (heap w this)) w
  end.

(** Two worlds with the same child lists. *)
Definition sameKids (w w' : World) : Prop :=
  forall x, Node.childList (heap w' x) = Node.childList (heap w x).

(** Two worlds whose nodes have the same handles, the same child lists and
    the same canonical main-axis directions. *)
Definition skeleton (w w' : World) : Prop :=
  (forall x, idOf w' x = idOf w x) /\ sameKids w w' /\
  (forall x, StyleCache.flexDirection (cacheOf w' x) = StyleCache.flexDirection (cacheOf w x)).

(** The direction a pass runs under: the argument, else the node's own
    direction, else left-to-right. *)
Definition effectiveDirectionOf (direction : option Direction.t) (w : World)
    (this : NodeRef) : Direction.t :=
  match direction with
  | Some d => d
  | None =>
      let d := getDirection w this in
      if bool_decide (d = Direction.Inherit) then Direction.LTR else d
  end.

(** The statements of [calculateLayout] before and after the engine's
    computation. *)
Definition beforeCompute (fuel : nat) (this : NodeRef) (direction : option Direction.t)
    (w : World) : option World :=
  let effectiveDirection := effectiveDirectionOf direction w this in
  let w := updCache this (StyleCache.set_lastDirection effectiveDirection) w in
  let w := resolveBordersToTaffy this w in
  let w := resolveMarginsToTaffy this w in
  let w := resolvePaddingsToTaffy this w in
  w ← resolveInsetsToTaffy fuel this w;
  if bool_decide (effectiveDirection = Direction.RTL) then applyRTLFlip fuel this w
  else Some w.

Definition afterCompute (fuel : nat) (this : NodeRef) (rtl : bool) (w : World) : option World :=
  w ← (if rtl then restoreFlexDirection fuel this w else Some w);
  markNewLayoutRecursive fuel this w.

Definition availableSpaceOf (width height : float) : Available.t :=
  Available.mk (if is_nan width then MaxContent else Definite width)
               (if is_nan height then MaxContent else Definite height).

(** What the four downward methods do at a node and on the way to a child. *)
Definition writeFlexDirection (val : World -> NodeRef -> Taffy.FlexDirection)
    (this : NodeRef) (w : World) : World :=
  updateStyle this (Style.set_flex_direction (val w this)) w.

Definition markVisit (this : NodeRef) (w : World) : World :=
  modify this (Node.set_hasNewLayout true) (modify this (Node.set_isDirty false) w).

Definition insetsVisit (this : NodeRef) (w : World) : World :=
  if bool_decide (StyleCache.position (cacheOf w this) = PositionType.Static)
  then updateStyle this (Style.set_inset auto4) w
  else updateStyle this (Style.set_inset (resolveInsets (cacheOf w this))) w.

Definition insetsEnter (this child : NodeRef) (w : World) : World :=
  updCache child (StyleCache.set_lastDirection (StyleCache.lastDirection (cacheOf w this))) w.

Definition noEnter (this child : NodeRef) (w : World) : World := w.

(** What the properties assume of the engine: a style written for a handle
    is the style read back for it, no other handle's style changes, and a
    layout computation changes no style. *)
Class EngineLaws : Prop := {
  getStyle_setStyle : forall t i s, getStyle (setStyle t i s) i = s;
  getStyle_setStyle_ne : forall t i j s, i <> j -> getStyle (setStyle t i s) j = getStyle t j;
  getStyle_compute : forall t t' i a m,
    computeLayoutWithMeasure t i a m = Some t' -> forall j, getStyle t' j = getStyle t j }.

(** What one call of [freeRecursive] with [fuel] does, as a predicate, so
    that the loop over the children can be stated before the recursion. *)
Definition freesSubtree (fuel : nat) : Prop :=
  forall this w,
    depthLe w fuel this ->
    exists w',
      freeRecursive fuel this w = Some w' /\ heap w' = heap w /\
      (forall i, getNodeById w i = None -> getNodeById w' i = None) /\
      (forall x, descendant w this x -> getNodeById w' (idOf w x) = None).

(** The three rectangles of a style that [calculateLayout] resolves without
    recursion. *)
Definition sidesOf (s : Style.t) : Rect.t * Rect.t * Rect.t :=
  (Style.margin s, Style.padding s, Style.border s).

(** Distinct nodes below [root] have distinct engine handles. *)
Definition distinctIds (w : World) (root : NodeRef) : Prop :=
  forall a b, descendant w root a -> descendant w root b -> idOf w a = idOf w b -> a = b.

End World.

(** ** A stand-in engine and host

    The properties below that speak of a whole run (a constructor, a pass)
    are also evaluated on concrete trees, for which the interface needs an
    inhabitant. [refEngine] is an arena of slots that stores what [Node]
    hands it and does no flexbox arithmetic: a computation visits the
    subtree, asks the dispatcher for the size of every leaf that carries a
    context (failing when the dispatcher fails), places every node at the
    origin and marks it clean. As in Taffy, a new leaf is dirty and
    [setStyle] and [markDirty] mark the node and its ancestors dirty. *)
Module RefEngine.

Record TNode := mkTNode {
  t_style : Style.t;
  t_context : option NodeId;
  t_children : list NodeId;
  t_parent : option NodeId;
  t_dirty : bool;
  t_layout : Layout.t }.

Record T := mkT { slot : NodeId -> TNode; next : NodeId }.

Definition defaultStyle : Style.t :=
  Style.mk Taffy.Row None Taffy.Relative auto4 zero4 zero4 zero4.

Definition zeroLayout : Layout.t := Layout.mk (Point.mk 0 0) (Size.mk 0 0).

Definition blank : TNode := mkTNode defaultStyle None [] None true zeroLayout.

Definition empty : T := mkT (fun _ => blank) 1%N.

Definition upd (i : NodeId) (f : TNode -> TNode) (t : T) : T :=
  mkT (<[i := f (slot t i)]> (slot t)) (next t).

Definition setDirtyBit (b : bool) (n : TNode) : TNode :=
  mkTNode (t_style n) (t_context n) (t_children n) (t_parent n) b (t_layout n).

Fixpoint dirtyUp (fuel : nat) (i : NodeId) (t : T) : T :=
  let t := upd i (setDirtyBit true) t in
  match fuel, t_parent (slot t i) with
  | S fuel', Some p => dirtyUp fuel' p t
  | _, _ => t
  end.

Definition markDirty (t : T) (i : NodeId) : T := dirtyUp (N.to_nat (next t)) i t.

Definition newLeaf (t : T) (s : Style.t) : NodeId * T :=
  let i := next t in
  (i, mkT (<[i := mkTNode s None [] None true zeroLayout]> (slot t)) (N.succ i)).

Definition getStyle (t : T) (i : NodeId) : Style.t := t_style (slot t i).

Definition setStyle (t : T) (i : NodeId) (s : Style.t) : T :=
  let t :=
    upd i (fun n => mkTNode s (t_context n) (t_children n) (t_parent n) (t_dirty n)
                      (t_layout n)) t in
  markDirty t i.

Definition setNodeContext (t : T) (i : NodeId) (c : option NodeId) : T :=
  upd i (fun n => mkTNode (t_style n) c (t_children n) (t_parent n) (t_dirty n)
                    (t_layout n)) t.

Definition insertChildAtIndex (t : T) (p : NodeId) (index : nat) (c : NodeId) : T :=
  let t :=
    upd p (fun n => mkTNode (t_style n) (t_context n)
                      (take index (t_children n) ++ c :: drop index (t_children n))
                      (t_parent n) (t_dirty n) (t_layout n)) t in
  let t :=
    upd c (fun n => mkTNode (t_style n) (t_context n) (t_children n) (Some p) (t_dirty n)
                      (t_layout n)) t in
  markDirty t p.

Definition remove (t : T) (i : NodeId) : T :=
  let n := slot t i in
  let t :=
    match t_parent n with
    | Some p =>
        upd p (fun m => mkTNode (t_style m) (t_context m)
                          (filter (fun c => c ≠ i) (t_children m))
                          (t_parent m) (t_dirty m) (t_layout m)) t
    | None => t
    end in
  let t :=
    foldl (fun t c => upd c (fun m => mkTNode (t_style m) (t_context m) (t_children m) None
                                        (t_dirty m) (t_layout m)) t)
          t (t_children n) in
  upd i (fun _ => blank) t.

Definition getLayout (t : T) (i : NodeId) : Layout.t := t_layout (slot t i).
Definition dirty (t : T) (i : NodeId) : bool := t_dirty (slot t i).

Fixpoint compute (measure : MeasureDispatcher) (space : Available.t)
    (fuel : nat) (i : NodeId) (t : T) : option T :=
  match fuel with
  | O => None
  | S fuel' =>
      let n := slot t i in
      sz ← match t_children n, t_context n with
           | [], Some ctx => measure (Size.mk nan nan) space ctx
           | _, _ => Some (Size.mk 0 0)
           end;
      let t :=
        upd i (fun n => mkTNode (t_style n) (t_context n) (t_children n) (t_parent n) false
                          (Layout.mk (Point.mk 0 0) sz)) t in
      foldl (fun acc c => t' ← acc; compute measure space fuel' c t') (Some t) (t_children n)
  end.

Definition computeLayoutWithMeasure (t : T) (i : NodeId) (space : Available.t)
    (measure : MeasureDispatcher) : option T :=
  compute measure space (N.to_nat (next t)) i t.

End RefEngine.

Definition refEngine : Engine :=
  Build_Engine RefEngine.T RefEngine.defaultStyle RefEngine.newLeaf RefEngine.remove
    RefEngine.getStyle RefEngine.setStyle RefEngine.getLayout RefEngine.dirty
    RefEngine.markDirty RefEngine.insertChildAtIndex RefEngine.setNodeContext
    RefEngine.computeLayoutWithMeasure.

(** A stand-in for the host's [parseFloat], exact on strings that start with
    a run of decimal digits followed by something that is not part of a
    number (["50%"] is 50), [NaN] when there is no leading digit. *)
Definition digitValue (c : Ascii.ascii) : option float :=
  match (Ascii.nat_of_ascii c - 48)%nat, (48 <=? Ascii.nat_of_ascii c)%nat with
  | 0%nat, true => Some 0%float | 1%nat, _ => Some 1%float | 2%nat, _ => Some 2%float
  | 3%nat, _ => Some 3%float | 4%nat, _ => Some 4%float | 5%nat, _ => Some 5%float
  | 6%nat, _ => Some 6%float | 7%nat, _ => Some 7%float | 8%nat, _ => Some 8%float
  | 9%nat, _ => Some 9%float | _, _ => None
  end.

Fixpoint leadingDigits (s : string) (acc : option float) : option float :=
  match s with
  | String c rest =>
      match digitValue c with
      | Some d =>
          leadingDigits rest (Some (match acc with Some a => a * 10 + d | None => d end)%float)
      | None => acc
      end
  | EmptyString => acc
  end.

Definition refBuiltins : Builtins :=
  Build_Builtins (fun s => match leadingDigits s None with Some v => v | None => nan end).


(** ** Concrete trees

    Built with the public operations over the stand-in engine; node
    references are handed out in order of construction, from 0. *)
Section Examples.
#[local] Existing Instance refEngine.
#[local] Existing Instance refBuiltins.

(** No node yet, under a config with the classic defaults, and under a
    config that uses web defaults. *)
Definition emptyWorld : World :=
  mkWorld (fun _ => Node.fresh 0%N) 0%nat ∅ RefEngine.empty false [].
Definition emptyWebWorld : World :=
  mkWorld (fun _ => Node.fresh 0%N) 0%nat ∅ RefEngine.empty true [].

(** The state a call of [calculateLayout] leaves behind. *)
Definition stateAfter (o : option Outcome) : World :=
  match o with
  | Some (Returned w) => w
  | Some (Threw w) => w
  | None => emptyWorld
  end.

Definition returned (o : option Outcome) : bool :=
  match o with Some (Returned _) => true | _ => false end.
Definition threw (o : option Outcome) : bool :=
  match o with Some (Threw _) => true | _ => false end.

(** [n.setPosition(Edge.Left, 20); n.setPosition(Edge.Start, 10)]. *)
Definition insetWorld : World :=
  let '(n, w) := newNode emptyWorld in
  setPosition n Edge.Start (JNum 10) (setPosition n Edge.Left (JNum 20) w).

(** [n.setMargin(Edge.Start, 10); n.setMargin(Edge.Left, 20)]. *)
Definition marginWorld : World :=
  let '(n, w) := newNode emptyWorld in
  setMargin n Edge.Left (JNum 20) (setMargin n Edge.Start (JNum 10) w).

(** A measurement callback that throws, and one that answers 10 by 20. *)
Definition throwingMeasure : MeasureFunction := fun _ _ _ _ => None.
Definition fixedMeasure : MeasureFunction := fun _ _ _ _ => Some (Size.mk 10 20).

(** [n.setFlexDirection(FlexDirection.Row); n.setMeasureFunc(mf)]. *)
Definition rowWorld (mf : option MeasureFunction) : World :=
  let '(n, w) := newNode emptyWorld in
  setMeasureFunc n mf (setFlexDirection n FlexDirection.Row w).

(** A root (0) and its child (1); on the child, [Start] is set to 10 in each
    of the four families. *)
Definition familyWorld : World :=
  let '(root, w) := newNode emptyWorld in
  let '(child, w) := newNode w in
  let w := insertChild root child 0 w in
  let w := setMargin child Edge.Start (JNum 10) w in
  let w := setPadding child Edge.Start (JNum 10) w in
  let w := setBorder child Edge.Start (Some 10%float) w in
  setPosition child Edge.Start (JNum 10) w.

(** Under web defaults, so that new nodes are Clean: a parent (0) with the
    dirtied-callback 7 and no measurement callback, and its child (1),
    which has the measurement callback [fixedMeasure] and the
    dirtied-callback 8. *)
Definition parentChildWorld : World :=
  let '(parent, w) := newNode emptyWebWorld in
  let '(child, w) := newNode w in
  let w := insertChild parent child 0 w in
  let w := setDirtiedFunc parent (Some 7%nat) w in
  let w := setMeasureFunc child (Some fixedMeasure) w in
  setDirtiedFunc child (Some 8%nat) w.

(** Three levels: a root (0), its child (1) and its grandchild (2). *)
Definition threeLevels : World :=
  let '(root, w) := newNode emptyWorld in
  let '(child, w) := newNode w in
  let '(grandchild, w) := newNode w in
  let w := insertChild root child 0 w in
  insertChild child grandchild 0 w.

End Examples.

(** ** Further methods of [Node] and of [src/mapping.ts] *)

(** The members of [Taffy.AlignItems] and [Taffy.AlignSelf] that
    [src/mapping.ts] names; [OtherItems] and [SelfOther] are any member of
    the engine's enumeration that it does not name, the ones the [default:]
    branches of [toYogaAlign] and [toYogaAlignSelf] are for. *)
Module TaffyAlign.
Inductive AlignItems := FlexStart | Center | FlexEnd | Stretch | Baseline | OtherItems.
Inductive AlignSelf :=
  SelfAuto | SelfFlexStart | SelfCenter | SelfFlexEnd | SelfStretch | SelfBaseline
| SelfOther.
End TaffyAlign.

Module MappingMore.

Definition toYogaPositionType (pos : Taffy.Position) : PositionType.t :=
  match pos with
  | Taffy.Relative => PositionType.Relative
  | Taffy.Absolute => PositionType.Absolute
  end.

Definition fromYogaAlignItems (align : Align.t) : TaffyAlign.AlignItems :=
  match align with
  | Align.FlexStart => TaffyAlign.FlexStart
  | Align.Center => TaffyAlign.Center
  | Align.FlexEnd => TaffyAlign.FlexEnd
  | Align.Stretch => TaffyAlign.Stretch
  | Align.Baseline => TaffyAlign.Baseline
  | Align.Auto => TaffyAlign.Stretch
  | _ => TaffyAlign.Stretch
  end.

Definition toYogaAlign (align : TaffyAlign.AlignItems) : Align.t :=
  match align with
  | TaffyAlign.FlexStart => Align.FlexStart
  | TaffyAlign.Center => Align.Center
  | TaffyAlign.FlexEnd => Align.FlexEnd
  | TaffyAlign.Stretch => Align.Stretch
  | TaffyAlign.Baseline => Align.Baseline
  | _ => Align.Auto
  end.

Definition fromYogaAlignSelf (align : Align.t) : TaffyAlign.AlignSelf :=
  match align with
  | Align.Auto => TaffyAlign.SelfAuto
  | Align.FlexStart => TaffyAlign.SelfFlexStart
  | Align.Center => TaffyAlign.SelfCenter
  | Align.FlexEnd => TaffyAlign.SelfFlexEnd
  | Align.Stretch => TaffyAlign.SelfStretch
  | Align.Baseline => TaffyAlign.SelfBaseline
  | _ => TaffyAlign.SelfAuto
  end.

Definition toYogaAlignSelf (align : TaffyAlign.AlignSelf) : Align.t :=
  match align with
  | TaffyAlign.SelfAuto => Align.Auto
  | TaffyAlign.SelfFlexStart => Align.FlexStart
  | TaffyAlign.SelfCenter => Align.Center
  | TaffyAlign.SelfFlexEnd => Align.FlexEnd
  | TaffyAlign.SelfStretch => Align.Stretch
  | TaffyAlign.SelfBaseline => Align.Baseline
  | _ => Align.Auto
  end.

Definition toYogaAlignContent (align : Taffy.AlignContent) : Align.t :=
  match align with
  | Taffy.FlexStart => Align.FlexStart
  | Taffy.Center => Align.Center
  | Taffy.FlexEnd => Align.FlexEnd
  | Taffy.Stretch => Align.Stretch
  | Taffy.SpaceBetween => Align.SpaceBetween
  | Taffy.SpaceAround => Align.SpaceAround
  | Taffy.SpaceEvenly => Align.SpaceEvenly
  | _ => Align.Auto
  end.

End MappingMore.

(** Two more methods of [Taffy.TaffyTree], called by [removeChild] and
    [reset]; [None] is a call of the engine's [removeChild] that throws. *)
Class EngineTree `{Engine} := {
  removeChild_ : TaffyTree -> NodeId -> NodeId -> option TaffyTree;
  setChildren : TaffyTree -> NodeId -> list NodeId -> TaffyTree }.

(** The host's [Math.round]. *)
Class MathBuiltins := { round : float -> float }.

Section MoreMethods.
Context `{Builtins} `{Engine} `{!EngineTree} `{MathBuiltins}.

(** [Node.getParent], [Node.getChildCount], [Node.getChild]; an index past
    the end reads [undefined]. *)
Definition getParent (w : World) (this : NodeRef) : option NodeRef :=
  Node.parent (heap w this).
Definition getChildCount (w : World) (this : NodeRef) : nat :=
  length (Node.childList (heap w this)).
Definition getChild (w : World) (this : NodeRef) (index : nat) : option NodeRef :=
  Node.childList (heap w this) !! index.

(** [Array.prototype.indexOf] on a list of references: the first position
    that holds [x], if any. *)
Fixpoint indexOf (l : list NodeRef) (x : NodeRef) : option nat :=
  match l with
  | [] => None
  | y :: l' => if decide (y = x) then Some 0%nat else S <$> indexOf l' x
  end.

(** [Node.removeChild]. The engine is called first; when that call throws,
    the exception leaves the method before anything was assigned. *)
Definition removeChild (this child : NodeRef) (w : World) : Outcome :=
  match removeChild_ (tree w) (idOf w this) (idOf w child) with
  | None => Threw w
  | Some t =>
      let w := with_tree t w in
      match indexOf (Node.childList (heap w this)) child with
      | Some index =>
          let w :=
            modify this (fun n => Node.set_childList (delete index (Node.childList n)) n) w in
          Returned (modify child (Node.set_parent None) w)
      | None => Returned w
      end
  end.

(** [Node.setPositionType], [Node.getPositionType], [Node.getFlexDirection]. *)
Definition setPositionType (this : NodeRef) (positionType : PositionType.t)
    (w : World) : World :=
  let w := updCache this (StyleCache.set_position positionType) w in
  syncStyle this w.

Definition getPositionType (w : World) (this : NodeRef) : PositionType.t :=
  MappingMore.toYogaPositionType (Style.position (getStyle (tree w) (idOf w this))).

Definition getFlexDirection (w : World) (this : NodeRef) : FlexDirection.t :=
  Mapping.toYogaFlexDirection (Style.flex_direction (getStyle (tree w) (idOf w this))).

(** [Node.setMarginAuto], [Node.setPositionAuto]. *)
Definition setMarginAuto (this : NodeRef) (edge : Edge.t) (w : World) : World :=
  setMargin this edge (JStr "auto") w.
Definition setPositionAuto (this : NodeRef) (edge : Edge.t) (w : World) : World :=
  setPosition this edge (JStr "auto") w.

(** [Node.unsetMeasureFunc]. *)
Definition unsetMeasureFunc (this : NodeRef) (w : World) : World :=
  setMeasureFunc this None w.

(** The local helper [extractValue] of [getComputedMargin] and
    [getComputedPadding], for the width [basis] percentages refer to. *)
Definition extractValue (basis : float) (val : JsVal) : float :=
  match val with
  | JLength n => n
  | JPercent p => round (p * basis)
  | _ => 0%float
  end.

(** The local helper [extractValue] of [getComputedBorder]. *)
Definition extractLength (val : JsVal) : float :=
  match val with
  | JLength n => n
  | _ => 0%float
  end.

(** The [switch (edge)] the three computed getters end with. *)
Definition computedSide (extract : JsVal -> float) (rtl : bool) (r : Rect.t)
    (edge : Edge.t) : float :=
  match edge with
  | Edge.Left => extract (Rect.left r)
  | Edge.Right => extract (Rect.right r)
  | Edge.Top => extract (Rect.top r)
  | Edge.Bottom => extract (Rect.bottom r)
  | Edge.Start => if rtl then extract (Rect.right r) else extract (Rect.left r)
  | Edge.End_ => if rtl then extract (Rect.left r) else extract (Rect.right r)
  | Edge.Horizontal | Edge.Vertical | Edge.All => extract (Rect.left r)
  end.

(** [Node.getComputedMargin]: a percentage refers to the parent's computed
    width, or to the node's own when it has no parent or the parent's handle
    is the falsy [0n]. *)
Definition getComputedMargin (w : World) (this : NodeRef) (edge : Edge.t) : float :=
  let style := getStyle (tree w) (idOf w this) in
  let margin := Style.margin style in
  let layout := getLayout (tree w) (idOf w this) in
  let parentWidth :=
    match Node.parent (heap w this) with
    | Some p =>
        if bool_decide (idOf w p = 0%N) then Size.width (Layout.size layout)
        else Size.width (Layout.size (getLayout (tree w) (idOf w p)))
    | None => Size.width (Layout.size layout)
    end in
  computedSide (extractValue parentWidth) (isRTL (cacheOf w this)) margin edge.

(** [Node.getComputedPadding]: a percentage refers to the node's own width. *)
Definition getComputedPadding (w : World) (this : NodeRef) (edge : Edge.t) : float :=
  let style := getStyle (tree w) (idOf w this) in
  let padding := Style.padding style in
  let layout := getLayout (tree w) (idOf w this) in
  let ownWidth := Size.width (Layout.size layout) in
  computedSide (extractValue ownWidth) (isRTL (cacheOf w this)) padding edge.

(** [Node.getComputedBorder]. *)
Definition getComputedBorder (w : World) (this : NodeRef) (edge : Edge.t) : float :=
  let style := getStyle (tree w) (idOf w this) in
  let border := Style.border style in
  computedSide extractLength (isRTL (cacheOf w this)) border edge.

(** [Node.reset]. *)
Definition reset (this : NodeRef) (w : World) : World :=
  let w := with_tree (setStyle (tree w) (idOf w this) newStyle) w in
  let w := modify this (Node.set_measureFunc None) w in
  let w := modify this (Node.set_dirtiedFunc None) w in
  let w := modify this (Node.set_isDirty false) w in
  let w := modify this (Node.set_hasNewLayout true) w in
  let w := modify this (Node.set_styleCache StyleCache.initial) w in
  let w := with_tree (setNodeContext (tree w) (idOf w this) None) w in
  let w := with_tree (setChildren (tree w) (idOf w this) []) w in
  modify this (Node.set_childList []) w.

(** *** Vocabulary of the further properties *)

(** The first key of a chain that holds a value decides; else the default. *)
Fixpoint firstSet {V} (conv : V -> option JsVal) (edges : Edge.t -> V)
    (keys : list Edge.t) (default : JsVal) : JsVal :=
  match keys with
  | [] => default
  | k :: keys' =>
      match conv (edges k) with
      | Some p => p
      | None => firstSet conv edges keys' default
      end
  end.

(** A value of the engine's [LengthPercentageAuto]: ["Auto"], a length or a
    percentage. *)
Definition engineValue (v : JsVal) : bool :=
  match v with
  | JStr s => String.eqb s "Auto"
  | JLength _ | JPercent _ => true
  | _ => false
  end.

Definition engineRect (r : Rect.t) : bool :=
  engineValue (Rect.left r) && engineValue (Rect.right r) &&
  engineValue (Rect.top r) && engineValue (Rect.bottom r).

(** The rectangle the precedence chains of the margin, padding and border
    resolvers describe: per side, the physical key, then the logical key the
    direction lands on that side, then the compound keys. *)
Definition chainRect {V} (conv : V -> option JsVal) (start : Rect.t)
    (edges : Edge.t -> V) (rtl : bool) : Rect.t :=
  Rect.mk
    (firstSet conv edges
       [Edge.Left; if rtl then Edge.End_ else Edge.Start; Edge.Horizontal; Edge.All]
       (Rect.left start))
    (firstSet conv edges
       [Edge.Right; if rtl then Edge.Start else Edge.End_; Edge.Horizontal; Edge.All]
       (Rect.right start))
    (firstSet conv edges [Edge.Top; Edge.Vertical; Edge.All] (Rect.top start))
    (firstSet conv edges [Edge.Bottom; Edge.Vertical; Edge.All] (Rect.bottom start)).

(** An inset cache as the code leaves it: every entry is absent, the initial
    ["auto"], or a value of the engine. *)
Definition okInset (v : JsVal) : bool :=
  match v with
  | JUndefined => true
  | JStr s => String.eqb s "auto" || String.eqb s "Auto"
  | JLength _ | JPercent _ => true
  | JNum _ => false
  end.

Definition allEdges : list Edge.t :=
  [Edge.Left; Edge.Top; Edge.Right; Edge.Bottom; Edge.Start; Edge.End_;
   Edge.Horizontal; Edge.Vertical; Edge.All].

Definition insetsOk (c : StyleCache.t) : bool :=
  forallb (fun e => okInset (StyleCache.insets c e)) allEdges.

Definition compound (edge : Edge.t) : bool :=
  match edge with
  | Edge.All | Edge.Horizontal | Edge.Vertical => true
  | _ => false
  end.

(** The inset the engine is given for a cache. *)
Definition expectedInset (c : StyleCache.t) : Rect.t :=
  if bool_decide (StyleCache.position c = PositionType.Static) then auto4
  else resolveInsets c.

Definition liveInset (w : World) (x : NodeRef) : Rect.t :=
  Style.inset (getStyle (tree w) (idOf w x)).

(** Two states of a [Node] object that differ at most in what a layout pass
    writes: the two flags and the cached last direction. *)
Definition sameSettings (n n' : Node.t) : Prop :=
  Node.id n' = Node.id n /\ Node.childList n' = Node.childList n /\
  Node.parent n' = Node.parent n /\ Node.measureFunc n' = Node.measureFunc n /\
  Node.dirtiedFunc n' = Node.dirtiedFunc n /\
  StyleCache.set_lastDirection Direction.LTR (Node._styleCache n')
  = StyleCache.set_lastDirection Direction.LTR (Node._styleCache n).

(** A node whose cached last direction is [d], and two worlds whose style
    caches differ at most in that some last directions became [d]. *)
Definition directionSet (d : Direction.t) (w : World) (x : NodeRef) : Prop :=
  StyleCache.lastDirection (cacheOf w x) = d.

Definition directionOnly (d : Direction.t) (w w' : World) : Prop :=
  forall x,
    cacheOf w' x = cacheOf w x \/
    cacheOf w' x = StyleCache.set_lastDirection d (cacheOf w x).

(** The engine's inset of a node is the one its cache resolves to. *)
Definition insetResolved (w : World) (x : NodeRef) : Prop :=
  liveInset w x = expectedInset (cacheOf w x).

(** The world a call of [calculateLayout] or [removeChild] ends in. *)
Definition worldOf (o : Outcome) : World :=
  match o with Returned w => w | Threw w => w end.

End MoreMethods.

(** The stand-in engine's two further methods ([removeChild] fails for a
    node that is not among the parent's children), and a stand-in for
    [Math.round] that is right on the integers the examples use. *)
Module RefEngineMore.

Definition removeChild (t : RefEngine.T) (p c : NodeId) : option RefEngine.T :=
  if negb (bool_decide (c ∈ RefEngine.t_children (RefEngine.slot t p))) then None else
  let t :=
    RefEngine.upd p
      (fun n => RefEngine.mkTNode (RefEngine.t_style n) (RefEngine.t_context n)
                  (filter (fun x => x <> c) (RefEngine.t_children n))
                  (RefEngine.t_parent n) (RefEngine.t_dirty n) (RefEngine.t_layout n)) t in
  let t :=
    RefEngine.upd c
      (fun n => RefEngine.mkTNode (RefEngine.t_style n) (RefEngine.t_context n)
                  (RefEngine.t_children n) None (RefEngine.t_dirty n)
                  (RefEngine.t_layout n)) t in
  Some (RefEngine.markDirty t p).

Definition setChildren (t : RefEngine.T) (p : NodeId) (cs : list NodeId) : RefEngine.T :=
  let t :=
    RefEngine.upd p
      (fun n => RefEngine.mkTNode (RefEngine.t_style n) (RefEngine.t_context n) cs
                  (RefEngine.t_parent n) (RefEngine.t_dirty n) (RefEngine.t_layout n)) t in
  RefEngine.markDirty t p.

End RefEngineMore.

Definition refEngineTree : @EngineTree refEngine :=
  @Build_EngineTree refEngine RefEngineMore.removeChild RefEngineMore.setChildren.

Definition refMath : MathBuiltins := Build_MathBuiltins (fun x => x).

Section MoreExamples.
#[local] Existing Instance refEngine.
#[local] Existing Instance refBuiltins.
#[local] Existing Instance refEngineTree.
#[local] Existing Instance refMath.

(** Three new nodes (0, 1 and 2), not connected. *)
Definition threeNodes : World :=
  let '(_, w) := newNode emptyWorld in
  let '(_, w) := newNode w in
  let '(_, w) := newNode w in
  w.

(** The outcome of a call of [calculateLayout] that had fuel enough. *)
Definition outcomeAfter (o : option Outcome) : Outcome :=
  match o with
  | Some o => o
  | None => Threw emptyWorld
  end.

(** [parentChildWorld] after [parent.calculateLayout()]: both nodes are
    Clean, on the [Node] side and in the engine. *)
Definition laidOutWorld : World :=
  worldOf (outcomeAfter (calculateLayout 2 0%nat nan nan None parentChildWorld)).

End MoreExamples.

(** * Properties *)

(** ** The Style Resolver *)

Section ResolverFacts.
Context `{Builtins}.

Lemma setPhysical_None {V} (conv : V -> option JsVal) e v cur :
  conv v = None -> setPhysical conv e v cur = cur.
Proof. intros E. unfold setPhysical. now rewrite E. Qed.

(** The last four statements of a resolver decide a side whose physical key
    holds a value. *)
Lemma resolveEdges_physical {V} (conv : V -> option JsVal) start edges rtl side p :
  physical side -> conv (edges side) = Some p ->
  sideOf side (resolveEdges conv start edges rtl) = p.
Proof.
  intros Hs Hp. unfold resolveEdges.
  destruct Hs as [-> | [-> | [-> | ->]]]; unfold setPhysical at 1 2 3 4;
    rewrite ?Hp;
    repeat match goal with
           | |- context [match conv ?x with _ => _ end] => destruct (conv x)
           end; reflexivity.
Qed.

(** With nothing but [Start] and the other three physical keys possibly set
    under a left-to-right direction, the right side keeps its default. *)
Lemma resolveEdges_start_ltr {V} (conv : V -> option JsVal) start edges :
  conv (edges Edge.All) = None -> conv (edges Edge.Horizontal) = None ->
  conv (edges Edge.End_) = None -> conv (edges Edge.Right) = None ->
  Rect.right (resolveEdges conv start edges false) = Rect.right start.
Proof.
  intros Ha Hh He Hr. unfold resolveEdges. rewrite Ha, Hh, He.
  rewrite (setPhysical_None conv Edge.Right _ _ Hr).
  unfold setPhysical.
  repeat match goal with
         | |- context [match conv ?x with _ => _ end] => destruct (conv x)
         end; reflexivity.
Qed.

Lemma resolveInsets_sides (c : StyleCache.t) side :
  physical side ->
  sideOf side (resolveInsets c) =
    match logicalFor (isRTL c) side with
    | Some lg => if isStr (insetAt c lg) "Auto" then insetAt c side else insetAt c lg
    | None => insetAt c side
    end.
Proof.
  intros Hs. unfold resolveInsets, insetAt, logicalFor.
  destruct Hs as [-> | [-> | [-> | ->]]]; cbn [sideOf];
    destruct (isRTL c);
    repeat match goal with
           | |- context [negb (isStr ?v "Auto")] => destruct (isStr v "Auto")
           end; reflexivity.
Qed.


End ResolverFacts.

(** ** Nodes: flags, callbacks and geometry *)

Section NodeFacts.
Context `{Builtins} `{Engine}.

Lemma heap_modify this f w x :
  heap (modify this f w) x = if decide (this = x) then f (heap w this) else heap w x.
Proof. reflexivity. Qed.

Lemma set_isDirty_id (n : Node.t) : Node._isDirty n = true -> Node.set_isDirty true n = n.
Proof. destruct n; simpl; intros ->; reflexivity. Qed.

(** What [markDirtyInternal] does to the objects: the dirty flag of [this]
    is set, and that is all. *)
Lemma markDirtyInternal_heap this w x :
  heap (markDirtyInternal this w) x =
    if decide (this = x) then Node.set_isDirty true (heap w this) else heap w x.
Proof.
  unfold markDirtyInternal.
  destruct (Node._isDirty (heap w this)) eqn:Hd; cbn [negb andb].
  - destruct (decide (this = x)) as [<- | ]; [| reflexivity].
    now rewrite set_isDirty_id.
  - destruct (truthy (Node.measureFunc (heap w this)) && truthy (Node.dirtiedFunc (heap w this))).
    + rewrite heap_modify, decide_True by reflexivity. cbn [Node.dirtiedFunc Node.set_isDirty].
      destruct (Node.dirtiedFunc (heap w this)); reflexivity.
    + reflexivity.
Qed.

Lemma markDirtyInternal_calls this w :
  dirtiedCalls (markDirtyInternal this w) = dirtiedCalls w ++ ownFiring w this.
Proof.
  unfold markDirtyInternal, ownFiring.
  destruct (Node._isDirty (heap w this)) eqn:Hd; cbn [negb andb].
  - destruct (Node.measureFunc (heap w this)), (Node.dirtiedFunc (heap w this));
      now rewrite app_nil_r.
  - destruct (Node.measureFunc (heap w this)) eqn:Hm, (Node.dirtiedFunc (heap w this)) eqn:Hf;
      cbn [truthy andb]; rewrite ?app_nil_r; try reflexivity.
    rewrite heap_modify, decide_True by reflexivity.
    cbn [Node.dirtiedFunc Node.set_isDirty]. now rewrite Hf.
Qed.

Lemma markDirtyInternal_rest this w :
  tree (markDirtyInternal this w) = tree w /\
  instanceCache (markDirtyInternal this w) = instanceCache w /\
  nextRef (markDirtyInternal this w) = nextRef w /\
  useWebDefaults (markDirtyInternal this w) = useWebDefaults w.
Proof.
  unfold markDirtyInternal.
  destruct (negb (Node._isDirty (heap w this))); cbn [andb];
    [destruct (truthy (Node.measureFunc (heap w this)) && truthy (Node.dirtiedFunc (heap w this)));
     [destruct (Node.dirtiedFunc (heap (modify this (Node.set_isDirty true) w) this)) |] |];
    repeat split.
Qed.

(** [updateStyle]: one style written for the handle of [this], the dirty flag
    of [this] set, the callback of [this] on its own Clean-to-Dirty edge. *)
Lemma updateStyle_heap this u w x :
  heap (updateStyle this u w) x =
    if decide (this = x) then Node.set_isDirty true (heap w this) else heap w x.
Proof. unfold updateStyle. now rewrite markDirtyInternal_heap. Qed.

Lemma updateStyle_calls this u w :
  dirtiedCalls (updateStyle this u w) = dirtiedCalls w ++ ownFiring w this.
Proof. unfold updateStyle. now rewrite markDirtyInternal_calls. Qed.

Lemma updateStyle_tree this u w :
  tree (updateStyle this u w) =
    setStyle (tree w) (idOf w this) (u (getStyle (tree w) (idOf w this))).
Proof. unfold updateStyle. now destruct (markDirtyInternal_rest this
  (with_tree (setStyle (tree w) (idOf w this) (u (getStyle (tree w) (idOf w this)))) w))
  as [-> _]. Qed.

Lemma updateStyle_instanceCache this u w :
  instanceCache (updateStyle this u w) = instanceCache w.
Proof. unfold updateStyle. now destruct (markDirtyInternal_rest this
  (with_tree (setStyle (tree w) (idOf w this) (u (getStyle (tree w) (idOf w this)))) w))
  as (_ & -> & _). Qed.

(** A cache assignment touches the cache of [this] and nothing else. *)
Lemma updCache_heap this g w x :
  heap (updCache this g w) x =
    if decide (this = x) then Node.upd_styleCache g (heap w this) else heap w x.
Proof. reflexivity. Qed.

Lemma ownFiring_updCache this g w : ownFiring (updCache this g w) this = ownFiring w this.
Proof.
  unfold ownFiring. rewrite updCache_heap, decide_True by reflexivity. reflexivity.
Qed.

Lemma upd_styleCache_same (n : Node.t) : Node.upd_styleCache (fun c => c) n = n.
Proof. now destruct n. Qed.

(** Every style mutation is a cache assignment on [this], followed, for all
    but [setDirection], by calls of [updateStyle] on [this] that all find
    the same callbacks. *)
Lemma mutate_heap this m w :
  exists g, forall x,
    heap (mutate this m w) x =
      if decide (this = x)
      then (if writesStyle m
            then Node.set_isDirty true (Node.upd_styleCache g (heap w this))
            else Node.upd_styleCache g (heap w this))
      else heap w x.
Proof.
  destruct m; cbn [mutate writesStyle];
    unfold setFlexDirection, setAlignContent, setPosition, syncStyle, setMargin,
      resolveMarginsToTaffy, setPadding, resolvePaddingsToTaffy, setBorder,
      resolveBordersToTaffy, setDirection.
  8: (eexists; intros x; rewrite updCache_heap; reflexivity).
  2, 7: (exists (fun c => c); intros x;
         rewrite updateStyle_heap, upd_styleCache_same; reflexivity).
  all: eexists; intros x; rewrite updateStyle_heap, !updCache_heap;
    rewrite (decide_True (P := this = this)) by reflexivity;
    destruct (decide (this = x)); reflexivity.
Qed.

Lemma mutate_calls this m w :
  dirtiedCalls (mutate this m w)
  = dirtiedCalls w ++ (if writesStyle m then ownFiring w this else []).
Proof.
  destruct m; cbn [mutate writesStyle];
    unfold setFlexDirection, setAlignContent, setPosition, syncStyle, setMargin,
      resolveMarginsToTaffy, setPadding, resolvePaddingsToTaffy, setBorder,
      resolveBordersToTaffy, setDirection.
  8: (cbn; now rewrite app_nil_r).
  all: rewrite updateStyle_calls, ?ownFiring_updCache; reflexivity.
Qed.

Lemma mutate_this this m w :
  writesStyle m = true ->
  Node._isDirty (heap (mutate this m w) this) = true /\
  Node.measureFunc (heap (mutate this m w) this) = Node.measureFunc (heap w this) /\
  Node.dirtiedFunc (heap (mutate this m w) this) = Node.dirtiedFunc (heap w this).
Proof.
  intros Hw. destruct (mutate_heap this m w) as [g Hg].
  rewrite Hg, decide_True, Hw by reflexivity. repeat split.
Qed.

(** No style mutation resets the dirty flag. *)
Lemma mutate_stays_dirty this m w :
  Node._isDirty (heap w this) = true -> Node._isDirty (heap (mutate this m w) this) = true.
Proof.
  intros Hd. destruct (mutate_heap this m w) as [g Hg].
  rewrite Hg, decide_True by reflexivity. now destruct (writesStyle m).
Qed.

(** No style mutation touches another [Node] object, and the only
    dirtied-callback it can invoke is the node's own: no ancestor's flag is
    set and no ancestor's callback is invoked. *)
Lemma mutate_local this m w :
  (forall x, x <> this -> heap (mutate this m w) x = heap w x) /\
  dirtiedCalls (mutate this m w)
  = dirtiedCalls w ++ (if writesStyle m then ownFiring w this else []).
Proof.
  split; [| apply mutate_calls].
  intros x Hx. destruct (mutate_heap this m w) as [g Hg].
  rewrite Hg, decide_False by congruence. reflexivity.
Qed.

Lemma ownFiring_dirty w this : Node._isDirty (heap w this) = true -> ownFiring w this = [].
Proof.
  intros Hd. unfold ownFiring. rewrite Hd.
  now destruct (Node.measureFunc (heap w this)), (Node.dirtiedFunc (heap w this)).
Qed.


(** C8. Whatever layout the engine holds for a node, the right edge is the
    sum of left and width, the bottom edge the sum of top and height, and
    [getComputedLayout] reports the same six numbers: the engine's layout
    record has a location and a size and no right or bottom of its own. *)
Theorem c8_right_bottom_derived (w : World) (this : NodeRef) :
  getComputedRight w this = (getComputedLeft w this + getComputedWidth w this)%float /\
  getComputedBottom w this = (getComputedTop w this + getComputedHeight w this)%float /\
  getComputedLayout w this =
    mkComputedLayout (getComputedLeft w this) (getComputedTop w this)
      (getComputedWidth w this) (getComputedHeight w this)
      (getComputedRight w this) (getComputedBottom w this).
Proof. repeat split. Qed.

(** C9. A node that was just constructed answers [hasNewLayout()] with true
    although no pass ever ran, and its dirty flag is set exactly when its
    config does not use web defaults (the two default assignments of the
    constructor go through [updateStyle]). *)
Theorem c9_fresh_node_flags (w : World) :
  hasNewLayout (newNode w).2 (newNode w).1 = true /\
  Node._isDirty (heap (newNode w).2 (newNode w).1) = negb (useWebDefaults w).
Proof.
  unfold newNode, hasNewLayout. destruct (newLeaf (tree w) newStyle) as [i t].
  cbn [useWebDefaults]. destruct (useWebDefaults w); cbn [negb fst snd].
  - cbn [heap]. rewrite fn_lookup_insert. split; reflexivity.
  - unfold setAlignContent, setFlexDirection.
    rewrite !updateStyle_heap, !decide_True by reflexivity.
    rewrite updCache_heap, decide_True by reflexivity.
    cbn [heap]. rewrite fn_lookup_insert. split; reflexivity.
Qed.

(** C10. For each compound key (All, Horizontal, Vertical), in every state
    and also right after that very key was set to any value at all,
    [getMargin], [getPadding] and [getPosition] return the not-set sentinel
    and [getBorder] returns NaN. *)
Theorem c10_compound_getters_unset (w : World) (this : NodeRef) (v : JsVal)
    (b : option float) :
  Forall
    (fun edge =>
       (getMargin w this edge = unsetValue /\
        getPadding w this edge = unsetValue /\
        getPosition w this edge = unsetValue /\
        getBorder w this edge = nan) /\
       getMargin (setMargin this edge v w) this edge = unsetValue /\
       getPadding (setPadding this edge v w) this edge = unsetValue /\
       getPosition (setPosition this edge v w) this edge = unsetValue /\
       getBorder (setBorder this edge b w) this edge = nan)
    [Edge.All; Edge.Horizontal; Edge.Vertical].
Proof. repeat constructor. Qed.

End NodeFacts.

(** ** Recursion over the tree *)

Section TreeFacts.
Context `{Builtins} `{Engine}.

Lemma sameKids_refl w : sameKids w w.
Proof. intros x. reflexivity. Qed.

Lemma sameKids_trans w1 w2 w3 : sameKids w1 w2 -> sameKids w2 w3 -> sameKids w1 w3.
Proof. intros H12 H23 x. now rewrite H23, H12. Qed.

Lemma sameKids_sym w1 w2 : sameKids w1 w2 -> sameKids w2 w1.
Proof. intros H12 x. now rewrite H12. Qed.

Lemma depthLe_ext w w' n r : sameKids w w' -> depthLe w n r -> depthLe w' n r.
Proof.
  intros Hk. revert r. induction n as [| n IH]; intros r; [exact id |].
  cbn [depthLe]. rewrite Hk. apply Forall_impl. exact IH.
Qed.

Lemma depthLe_mono w n m r : n <= m -> depthLe w n r -> depthLe w m r.
Proof.
  revert m r. induction n as [| n IH]; intros m r Hle; [intros [] |].
  destruct m as [| m]; [lia |]. cbn [depthLe].
  apply Forall_impl. intros c. apply IH. lia.
Qed.

Lemma descendant_ext w w' r x : sameKids w w' -> descendant w r x -> descendant w' r x.
Proof.
  intros Hk. induction 1 as [r | r c x Hc _ IH]; [constructor |].
  apply desc_child with c; [now rewrite Hk | exact IH].
Qed.

Lemma descendant_trans w a b c : descendant w a b -> descendant w b c -> descendant w a c.
Proof.
  induction 1 as [r | r k x Hk _ IH]; [exact id |].
  intros Hc. apply desc_child with k; [exact Hk | now apply IH].
Qed.

Lemma forChildren_ext k1 k2 cs w :
  (forall c w, k1 c w = k2 c w) -> forChildren k1 cs w = forChildren k2 cs w.
Proof.
  intros Hk. revert w. induction cs as [| c cs IH]; intros w; [reflexivity |].
  cbn [forChildren]. rewrite Hk. destruct (k2 c w); [apply IH | reflexivity].
Qed.

Lemma leaf_descendant w r x :
  Node.childList (heap w r) = [] -> descendant w r x -> x = r.
Proof.
  intros Hleaf Hd. inversion Hd as [| r' c x' Hc _]; subst; [reflexivity |].
  rewrite Hleaf in Hc. now apply elem_of_nil in Hc.
Qed.

Section Preorder.
Variables (visit : NodeRef -> World -> World) (enter : NodeRef -> NodeRef -> World -> World).
Variables (Inv : World -> Prop) (D : NodeRef -> Prop) (Q : NodeRef -> World -> Prop).
Hypothesis kids_visit : forall r w, sameKids w (visit r w).
Hypothesis kids_enter : forall r c w, sameKids w (enter r c w).
Hypothesis Inv_visit : forall r w, D r -> Inv w -> Inv (visit r w).
Hypothesis Inv_enter : forall r c w, D r -> D c -> Inv w -> Inv (enter r c w).
Hypothesis D_closed : forall w r c, Inv w -> D r -> c ∈ Node.childList (heap w r) -> D c.
Hypothesis Q_est : forall r w, D r -> Inv w -> Q r (visit r w).
Hypothesis Q_visit : forall r x w, D r -> D x -> Inv w -> Q x w -> Q x (visit r w).
Hypothesis Q_enter : forall r c x w, D r -> D c -> D x -> Inv w -> Q x w -> Q x (enter r c w).

Lemma descendant_D w r x : Inv w -> D r -> descendant w r x -> D x.
Proof.
  intros Hi Hr Hd. induction Hd as [r | r c x Hc _ IH]; [exact Hr |].
  apply IH. now apply (D_closed w r c).
Qed.

(** A walk over a tree of bounded depth returns; it keeps the invariant and
    the child lists, keeps [Q] wherever it held, and leaves [Q] on every node
    it visited. *)
Lemma preorder_spec fuel : forall this w,
  D this -> Inv w -> depthLe w fuel this ->
  exists w',
    preorder visit enter fuel this w = Some w' /\ Inv w' /\ sameKids w w' /\
    (forall x, D x -> Q x w -> Q x w') /\
    (forall x, descendant w this x -> Q x w').
Proof.
  induction fuel as [| fuel IH]; intros this w Hd Hi Hdepth; [destruct Hdepth |].
  cbn [preorder depthLe] in Hdepth |- *.
  set (w1 := visit this w).
  assert (Hk1 : sameKids w w1) by apply kids_visit.
  assert (Hi1 : Inv w1) by now apply Inv_visit.
  rewrite (Hk1 this).
  assert (Hcs : forall c, c ∈ Node.childList (heap w this) -> D c /\ depthLe w fuel c).
  { intros c Hc. split; [now apply (D_closed w this c) |].
    rewrite Forall_forall in Hdepth. apply Hdepth. now apply list_elem_of_In. }
  assert (Hloop : forall cs wa,
            Inv wa -> sameKids w wa -> (forall c, c ∈ cs -> D c /\ depthLe w fuel c) ->
            exists wb,
              forChildren (fun child w => preorder visit enter fuel child (enter this child w))
                cs wa = Some wb /\ Inv wb /\ sameKids w wb /\
              (forall x, D x -> Q x wa -> Q x wb) /\
              (forall c x, c ∈ cs -> descendant w c x -> Q x wb)).
  { induction cs as [| c cs IHcs]; intros wa Hia Hka Hall.
    - exists wa. repeat split; try assumption; [auto |].
      intros c x Hc. now apply elem_of_nil in Hc.
    - destruct (Hall c) as [Hdc Hdepc]; [apply elem_of_cons; now left |].
      set (we := enter this c wa).
      assert (Hke : sameKids w we).
      { apply sameKids_trans with wa; [exact Hka | apply kids_enter]. }
      assert (Hie : Inv we) by now apply Inv_enter.
      destruct (IH c we Hdc Hie (depthLe_ext _ _ _ _ Hke Hdepc))
        as (wc & Ec & Hic & Hkc & Hstab & Hest).
      assert (Hkwc : sameKids w wc) by (apply sameKids_trans with we; assumption).
      destruct (IHcs wc Hic Hkwc) as (wb & Eb & Hib & Hkb & Hstab2 & Hest2).
      { intros c' Hc'. apply Hall, elem_of_cons. now right. }
      exists wb. cbn [forChildren]. fold we. rewrite Ec. repeat split; try assumption.
      + intros x Hx Hq. apply Hstab2, Hstab; try assumption. now apply Q_enter.
      + intros c' x Hc' Hdesc. apply elem_of_cons in Hc' as [-> | Hc'].
        * apply Hstab2.
          -- exact (descendant_D w c x Hi Hdc Hdesc).
          -- apply Hest. now apply descendant_ext with w.
        * now apply (Hest2 c' x). }
  destruct (Hloop (Node.childList (heap w this)) w1 Hi1 Hk1 Hcs)
    as (wb & Eb & Hib & Hkb & Hstab & Hest).
  exists wb. repeat split; try assumption.
  - intros x Hx Hq. apply Hstab; [exact Hx |]. now apply Q_visit.
  - intros x Hdesc. inversion Hdesc as [r | r c x' Hc Hcx]; subst.
    + apply Hstab; [exact Hd |]. now apply Q_est.
    + now apply (Hest c x).
Qed.

End Preorder.
(** What every step of a walk keeps, the walk keeps. *)
Lemma preorder_keeps visit enter (P : World -> Prop) :
  (forall r w, P w -> P (visit r w)) -> (forall r c w, P w -> P (enter r c w)) ->
  forall fuel this w w', preorder visit enter fuel this w = Some w' -> P w -> P w'.
Proof.
  intros Hv He. induction fuel as [| fuel IH]; intros this w w' E Hp; [discriminate |].
  cbn [preorder] in E.
  assert (Hp1 : P (visit this w)) by now apply Hv.
  remember (visit this w) as w1 eqn:Ew1.
  remember (Node.childList (heap w1 this)) as cs eqn:Ecs.
  clear Ew1 Ecs Hp w. revert w1 Hp1 E.
  induction cs as [| c cs IHcs]; intros w Hp E; cbn [forChildren] in E.
  - now injection E as <-.
  - destruct (preorder visit enter fuel c (enter this c w)) as [w1 |] eqn:E1; [| discriminate].
    apply (IHcs w1); [| exact E].
    apply (IH c (enter this c w) w1 E1). now apply He.
Qed.

(** The four methods are instances of the common walk. *)
Lemma resolveInsetsToTaffy_preorder fuel : forall this w,
  resolveInsetsToTaffy fuel this w = preorder insetsVisit insetsEnter fuel this w.
Proof.
  induction fuel as [| fuel IH]; intros this w; [reflexivity |].
  change (resolveInsetsToTaffy (S fuel) this w)
    with (forChildren
            (fun child w0 => resolveInsetsToTaffy fuel child (insetsEnter this child w0))
            (Node.childList (heap (insetsVisit this w) this)) (insetsVisit this w)).
  cbn [preorder]. apply forChildren_ext. intros c w'. apply IH.
Qed.

Lemma applyRTLFlip_preorder fuel : forall this w,
  applyRTLFlip fuel this w
  = preorder (writeFlexDirection mirroredFlexDirection) noEnter fuel this w.
Proof.
  induction fuel as [| fuel IH]; intros this w; [reflexivity |].
  cbn [applyRTLFlip preorder]. apply forChildren_ext. intros c w'. apply IH.
Qed.

Lemma restoreFlexDirection_preorder fuel : forall this w,
  restoreFlexDirection fuel this w
  = preorder (writeFlexDirection canonicalFlexDirection) noEnter fuel this w.
Proof.
  induction fuel as [| fuel IH]; intros this w; [reflexivity |].
  cbn [restoreFlexDirection preorder]. apply forChildren_ext. intros c w'. apply IH.
Qed.

Lemma markNewLayoutRecursive_preorder fuel : forall this w,
  markNewLayoutRecursive fuel this w = preorder markVisit noEnter fuel this w.
Proof.
  induction fuel as [| fuel IH]; intros this w; [reflexivity |].
  cbn [markNewLayoutRecursive preorder]. apply forChildren_ext. intros c w'. apply IH.
Qed.

(** Handles, child lists and canonical directions are out of reach of every
    step of a pass. *)
Lemma skeleton_pointwise w w' :
  (forall x,
     Node.id (heap w' x) = Node.id (heap w x) /\
     Node.childList (heap w' x) = Node.childList (heap w x) /\
     StyleCache.flexDirection (Node._styleCache (heap w' x))
     = StyleCache.flexDirection (Node._styleCache (heap w x))) ->
  skeleton w w'.
Proof. intros Hp. repeat split; intros x; apply Hp. Qed.

Lemma skeleton_refl w : skeleton w w.
Proof. apply skeleton_pointwise. intros x. repeat split. Qed.

Lemma skeleton_trans w1 w2 w3 : skeleton w1 w2 -> skeleton w2 w3 -> skeleton w1 w3.
Proof.
  intros (Hi & Hk & Hf) (Hi' & Hk' & Hf'). split; [| split].
  - intros x. now rewrite Hi', Hi.
  - now apply sameKids_trans with w2.
  - intros x. now rewrite Hf', Hf.
Qed.

Lemma skeleton_updateStyle this u w : skeleton w (updateStyle this u w).
Proof.
  apply skeleton_pointwise. intros x. rewrite updateStyle_heap.
  destruct (decide (this = x)) as [-> |]; repeat split.
Qed.

Lemma skeleton_modify this f w :
  (forall n,
     Node.id (f n) = Node.id n /\ Node.childList (f n) = Node.childList n /\
     StyleCache.flexDirection (Node._styleCache (f n))
     = StyleCache.flexDirection (Node._styleCache n)) ->
  skeleton w (modify this f w).
Proof.
  intros Hf. apply skeleton_pointwise. intros x. rewrite heap_modify.
  destruct (decide (this = x)) as [-> |]; [apply Hf | repeat split].
Qed.

Lemma skeleton_set_lastDirection this d w :
  skeleton w (updCache this (StyleCache.set_lastDirection d) w).
Proof. apply skeleton_modify. intros n. repeat split. Qed.

Lemma skeleton_writeFlexDirection val this w : skeleton w (writeFlexDirection val this w).
Proof. apply skeleton_updateStyle. Qed.

Lemma skeleton_markVisit this w : skeleton w (markVisit this w).
Proof.
  unfold markVisit. eapply skeleton_trans; apply skeleton_modify; intros n; repeat split.
Qed.

Lemma skeleton_insetsVisit this w : skeleton w (insetsVisit this w).
Proof. unfold insetsVisit. destruct (bool_decide _); apply skeleton_updateStyle. Qed.

Lemma skeleton_insetsEnter this c w : skeleton w (insetsEnter this c w).
Proof. apply skeleton_set_lastDirection. Qed.

Lemma skeleton_with_tree t w : skeleton w (with_tree t w).
Proof. apply skeleton_pointwise. intros x. repeat split. Qed.

Lemma skeleton_kids w w' : skeleton w w' -> sameKids w w'.
Proof. intros (_ & Hk & _). exact Hk. Qed.

Lemma skeleton_depthLe w w' n r : skeleton w w' -> depthLe w n r -> depthLe w' n r.
Proof. intros Hs. apply depthLe_ext, skeleton_kids, Hs. Qed.

Lemma skeleton_descendant w w' r x : skeleton w w' -> descendant w r x <-> descendant w' r x.
Proof.
  intros Hs. split; apply descendant_ext; [| apply sameKids_sym]; apply skeleton_kids, Hs.
Qed.

Lemma skeleton_distinctIds w w' root : skeleton w w' -> distinctIds w root -> distinctIds w' root.
Proof.
  intros Hs Hd a b Ha Hb E. destruct Hs as (Hi & Hk & Hf).
  apply Hd.
  - apply descendant_ext with w'; [apply sameKids_sym, Hk | exact Ha].
  - apply descendant_ext with w'; [apply sameKids_sym, Hk | exact Hb].
  - now rewrite <- !Hi.
Qed.

(** A walk whose steps keep the skeleton returns on a tree of bounded depth
    and keeps the skeleton. *)
Lemma walk_returns visit enter fuel n this w :
  (forall r w, skeleton w (visit r w)) -> (forall r c w, skeleton w (enter r c w)) ->
  depthLe w n this -> n <= fuel ->
  exists w', preorder visit enter fuel this w = Some w' /\ skeleton w w'.
Proof.
  intros Hv He Hdepth Hle.
  destruct (preorder_spec visit enter (skeleton w) (fun _ => True) (fun _ _ => True)
              (fun r w0 => skeleton_kids _ _ (Hv r w0))
              (fun r c w0 => skeleton_kids _ _ (He r c w0))
              (fun r w0 _ Hs => skeleton_trans _ _ _ Hs (Hv r w0))
              (fun r c w0 _ _ Hs => skeleton_trans _ _ _ Hs (He r c w0))
              (fun w0 r c _ _ _ => I)
              (fun r w0 _ _ => I) (fun r x w0 _ _ _ _ => I) (fun r c x w0 _ _ _ _ _ => I)
              fuel this w I (skeleton_refl w) (depthLe_mono w n fuel this Hle Hdepth))
    as (w' & E & Hs & _).
  exists w'. split; assumption.
Qed.

End TreeFacts.

(** ** The layout pass *)

Section PassFacts.
Context `{Builtins} `{Engine}.

Lemma calculateLayout_phases fuel this width height direction w :
  calculateLayout fuel this width height direction w =
    match beforeCompute fuel this direction w with
    | Some w1 =>
        match computeLayoutWithMeasure (tree w1) (idOf w1 this)
                (availableSpaceOf width height) (measureDispatcher w1) with
        | None => Some (Threw w1)
        | Some t =>
            match afterCompute fuel this
                    (bool_decide (effectiveDirectionOf direction w this = Direction.RTL))
                    (with_tree t w1) with
            | Some w2 => Some (Returned w2)
            | None => None
            end
        end
    | None => None
    end.
Proof.
  unfold calculateLayout, beforeCompute, afterCompute, availableSpaceOf, effectiveDirectionOf.
  cbn [mbind option_bind].
  destruct (resolveInsetsToTaffy fuel this _) as [w1 |]; cbn [mbind option_bind]; [| reflexivity].
  destruct (bool_decide _).
  - destruct (applyRTLFlip fuel this w1) as [w2 |]; cbn [mbind option_bind]; [| reflexivity].
    destruct (computeLayoutWithMeasure _ _ _ _) as [t |]; [| reflexivity].
    destruct (restoreFlexDirection fuel this _) as [w3 |]; cbn [mbind option_bind]; [| reflexivity].
    destruct (markNewLayoutRecursive fuel this w3); reflexivity.
  - cbn [mbind option_bind].
    destruct (computeLayoutWithMeasure _ _ _ _) as [t |]; [| reflexivity].
    destruct (markNewLayoutRecursive fuel this _); reflexivity.
Qed.

Lemma markVisit_heap r w x :
  heap (markVisit r w) x =
    if decide (r = x)
    then Node.set_hasNewLayout true (Node.set_isDirty false (heap w r))
    else heap w x.
Proof.
  unfold markVisit. rewrite !heap_modify.
  rewrite (decide_True (P := r = r)) by reflexivity.
  destruct (decide (r = x)); reflexivity.
Qed.

(** [markNewLayoutRecursive] returns on a tree of bounded depth, touches
    neither the engine nor a cache, and leaves the two flags of every node
    below the root as the pass wants them. *)
Lemma markNewLayoutRecursive_spec fuel n this w :
  depthLe w n this -> n <= fuel ->
  exists w',
    markNewLayoutRecursive fuel this w = Some w' /\ skeleton w w' /\
    tree w' = tree w /\ (forall x, cacheOf w' x = cacheOf w x) /\
    (forall x, descendant w this x ->
       Node._isDirty (heap w' x) = false /\ Node._hasNewLayout (heap w' x) = true).
Proof.
  intros Hdepth Hle. rewrite markNewLayoutRecursive_preorder.
  set (Inv := fun w' : World =>
                skeleton w w' /\ tree w' = tree w /\ forall x, cacheOf w' x = cacheOf w x).
  set (Q := fun (x : NodeRef) (w' : World) =>
              Node._isDirty (heap w' x) = false /\ Node._hasNewLayout (heap w' x) = true).
  assert (Hiv : forall r w0, True -> Inv w0 -> Inv (markVisit r w0)).
  { intros r w0 _ (Hs & Ht & Hc). split; [| split].
    - eapply skeleton_trans; [exact Hs | apply skeleton_markVisit].
    - exact Ht.
    - intros x. rewrite <- Hc. unfold cacheOf. rewrite markVisit_heap.
      destruct (decide (r = x)) as [-> |]; reflexivity. }
  assert (Hqe : forall r w0, True -> Inv w0 -> Q r (markVisit r w0)).
  { intros r w0 _ _. unfold Q. rewrite markVisit_heap, decide_True by reflexivity.
    split; reflexivity. }
  assert (Hqv : forall r x w0, True -> True -> Inv w0 -> Q x w0 -> Q x (markVisit r w0)).
  { intros r x w0 _ _ _ Hq. unfold Q. rewrite markVisit_heap.
    destruct (decide (r = x)); [split; reflexivity | exact Hq]. }
  destruct (preorder_spec markVisit noEnter Inv (fun _ => True) Q
              (fun r w0 => skeleton_kids _ _ (skeleton_markVisit r w0))
              (fun r c w0 => sameKids_refl w0)
              Hiv (fun r c w0 _ _ Hi => Hi) (fun w0 r c _ _ _ => I)
              Hqe Hqv (fun r c x w0 _ _ _ _ Hq => Hq)
              fuel this w I
              (conj (skeleton_refl w) (conj eq_refl (fun x => eq_refl)))
              (depthLe_mono w n fuel this Hle Hdepth))
    as (w' & E & (Hs & Ht & Hc) & _ & _ & Hq).
  exists w'. split; [exact E |]. split; [exact Hs |]. split; [exact Ht |].
  split; [exact Hc | exact Hq].
Qed.

(** [beforeCompute] returns on a tree of bounded depth and keeps the
    skeleton. *)
Lemma beforeCompute_returns fuel n this direction w :
  depthLe w n this -> n <= fuel ->
  exists w1, beforeCompute fuel this direction w = Some w1 /\ skeleton w w1.
Proof.
  intros Hdepth Hle. unfold beforeCompute.
  set (wA := resolvePaddingsToTaffy this _).
  assert (HsA : skeleton w wA).
  { subst wA. unfold resolvePaddingsToTaffy, resolveMarginsToTaffy, resolveBordersToTaffy.
    repeat (eapply skeleton_trans; [| apply skeleton_updateStyle]).
    apply skeleton_set_lastDirection. }
  rewrite resolveInsetsToTaffy_preorder.
  destruct (walk_returns insetsVisit insetsEnter fuel n this wA
              skeleton_insetsVisit skeleton_insetsEnter
              (skeleton_depthLe _ _ _ _ HsA Hdepth) Hle) as (wB & EB & HsB).
  rewrite EB. cbn [mbind option_bind].
  assert (HswB : skeleton w wB) by (eapply skeleton_trans; eassumption).
  destruct (bool_decide _).
  - rewrite applyRTLFlip_preorder.
    destruct (walk_returns (writeFlexDirection mirroredFlexDirection) noEnter fuel n this wB
                (skeleton_writeFlexDirection _) (fun _ _ w0 => skeleton_refl w0)
                (skeleton_depthLe _ _ _ _ HswB Hdepth) Hle) as (wC & EC & HsC).
    exists wC. split; [exact EC |]. eapply skeleton_trans; eassumption.
  - exists wB. split; [reflexivity | exact HswB].
Qed.

(** [afterCompute] returns on a tree of bounded depth; it keeps the
    skeleton and leaves the flags of every node below the root reset. *)
Lemma afterCompute_spec fuel n this rtl w :
  depthLe w n this -> n <= fuel ->
  exists w',
    afterCompute fuel this rtl w = Some w' /\ skeleton w w' /\
    (forall x, descendant w this x ->
       Node._isDirty (heap w' x) = false /\ Node._hasNewLayout (heap w' x) = true).
Proof.
  intros Hdepth Hle. unfold afterCompute.
  assert (Hr : exists wR,
            (if rtl then restoreFlexDirection fuel this w else Some w) = Some wR /\
            skeleton w wR).
  { destruct rtl.
    - rewrite restoreFlexDirection_preorder.
      exact (walk_returns (writeFlexDirection canonicalFlexDirection) noEnter fuel n this w
               (skeleton_writeFlexDirection _) (fun _ _ w0 => skeleton_refl w0) Hdepth Hle).
    - exists w. split; [reflexivity | apply skeleton_refl]. }
  destruct Hr as (wR & ER & HsR). rewrite ER. cbn [mbind option_bind].
  destruct (markNewLayoutRecursive_spec fuel n this wR) as (w' & E & Hs & _ & _ & Hq);
    [now apply skeleton_depthLe with w | exact Hle |].
  exists w'. split; [exact E |]. split; [eapply skeleton_trans; eassumption |].
  intros x Hx. apply Hq. now apply (skeleton_descendant w wR).
Qed.

(** X28. A layout pass over a tree of bounded depth ends: it returns when
    the engine's computation returns and throws when that throws. When it
    returns, every node the pass visited has its own dirty flag
    ([_isDirty], the flag that gates the dirtied-callback) reset and
    answers [hasNewLayout()] with true. *)
Theorem x28_pass_resets_node_flags (fuel n : nat) (this : NodeRef) (width height : float)
    (direction : option Direction.t) (w : World) :
  depthLe w n this -> n <= fuel ->
  exists w1,
    beforeCompute fuel this direction w = Some w1 /\
    match computeLayoutWithMeasure (tree w1) (idOf w1 this)
            (availableSpaceOf width height) (measureDispatcher w1) with
    | Some _ =>
        exists w',
          calculateLayout fuel this width height direction w = Some (Returned w') /\
          forall x, descendant w this x ->
            Node._isDirty (heap w' x) = false /\ hasNewLayout w' x = true
    | None => calculateLayout fuel this width height direction w = Some (Threw w1)
    end.
Proof.
  intros Hdepth Hle.
  destruct (beforeCompute_returns fuel n this direction w Hdepth Hle) as (w1 & E1 & Hs1).
  exists w1. split; [exact E1 |].
  rewrite calculateLayout_phases, E1.
  destruct (computeLayoutWithMeasure _ _ _ _) as [t |]; [| reflexivity].
  destruct (afterCompute_spec fuel n this
              (bool_decide (effectiveDirectionOf direction w this = Direction.RTL))
              (with_tree t w1)) as (w' & E & Hs & Hq); [| exact Hle |].
  { apply skeleton_depthLe with w; [| exact Hdepth].
    eapply skeleton_trans; [exact Hs1 | apply skeleton_with_tree]. }
  exists w'. rewrite E. split; [reflexivity |].
  intros x Hx. apply (Hq x).
  apply (skeleton_descendant w (with_tree t w1)); [| exact Hx].
  eapply skeleton_trans; [exact Hs1 | apply skeleton_with_tree].
Qed.

Section Mirroring.
Context `{!EngineLaws}.

(** A walk that writes a flex direction computed from the cache leaves, on
    every node below the root, the live direction equal to that value. *)
Lemma writeFlexDirection_walk val fuel n root w :
  (forall r u w0 x, val (updateStyle r u w0) x = val w0 x) ->
  depthLe w n root -> n <= fuel -> distinctIds w root ->
  exists w',
    preorder (writeFlexDirection val) noEnter fuel root w = Some w' /\ skeleton w w' /\
    forall x, descendant w root x -> liveFlexDirection w' x = val w' x.
Proof.
  intros Hval Hdepth Hle Hdist.
  set (Q := fun (x : NodeRef) (w' : World) => liveFlexDirection w' x = val w' x).
  assert (Hqe : forall r w0, descendant w root r -> skeleton w w0 ->
                  Q r (writeFlexDirection val r w0)).
  { intros r w0 _ _. unfold Q, liveFlexDirection, writeFlexDirection.
    rewrite Hval, updateStyle_tree.
    destruct (skeleton_updateStyle r (Style.set_flex_direction (val w0 r)) w0) as (Hi & _).
    rewrite Hi, getStyle_setStyle. reflexivity. }
  assert (Hqv : forall r x w0, descendant w root r -> descendant w root x ->
                  skeleton w w0 -> Q x w0 -> Q x (writeFlexDirection val r w0)).
  { intros r x w0 Hr Hx Hs Hq.
    destruct (decide (idOf w0 r = idOf w0 x)) as [E | NE].
    - pose proof Hs as (Hi & _). rewrite !Hi in E.
      rewrite <- (Hdist r x Hr Hx E). apply Hqe; [exact Hr | exact Hs].
    - unfold Q, liveFlexDirection, writeFlexDirection in *.
      rewrite Hval, updateStyle_tree.
      destruct (skeleton_updateStyle r (Style.set_flex_direction (val w0 r)) w0) as (Hi & _).
      rewrite Hi, getStyle_setStyle_ne by exact NE. exact Hq. }
  destruct (preorder_spec (writeFlexDirection val) noEnter (skeleton w)
              (fun x => descendant w root x) Q
              (fun r w0 => skeleton_kids _ _ (skeleton_writeFlexDirection val r w0))
              (fun r c w0 => sameKids_refl w0)
              (fun r w0 _ Hs => skeleton_trans _ _ _ Hs (skeleton_writeFlexDirection val r w0))
              (fun r c w0 _ _ Hs => Hs)
              (fun w0 r c Hs Hr Hc =>
                 descendant_trans w root r c Hr
                   (desc_child w r c c
                      (eq_ind_r (fun l => c ∈ l) Hc (eq_sym (skeleton_kids _ _ Hs r)))
                      (desc_self w c)))
              Hqe Hqv (fun r c x w0 _ _ _ _ Hq => Hq)
              fuel root w (desc_self w root) (skeleton_refl w)
              (depthLe_mono w n fuel root Hle Hdepth))
    as (w' & E & Hs & _ & _ & Hq).
  exists w'. split; [exact E |]. split; [exact Hs | exact Hq].
Qed.

Lemma canonical_updateStyle r u w0 x :
  canonicalFlexDirection (updateStyle r u w0) x = canonicalFlexDirection w0 x.
Proof.
  unfold canonicalFlexDirection, cacheOf. rewrite updateStyle_heap.
  destruct (decide (r = x)) as [-> |]; reflexivity.
Qed.

Lemma mirrored_updateStyle r u w0 x :
  mirroredFlexDirection (updateStyle r u w0) x = mirroredFlexDirection w0 x.
Proof.
  unfold mirroredFlexDirection, cacheOf. rewrite updateStyle_heap.
  destruct (decide (r = x)) as [-> |]; reflexivity.
Qed.


(** The other half of the pass: whatever the outcome, the only handle whose
    margin, padding or border the pass writes is the root's. For every other
    handle the engine keeps the three rectangles it had before the pass,
    whatever direction the pass ran under. *)
Lemma idOf_updateStyle r u w0 x : idOf (updateStyle r u w0) x = idOf w0 x.
Proof. apply (proj1 (skeleton_updateStyle r u w0)). Qed.

Lemma idOf_updCache r g w0 x : idOf (updCache r g w0) x = idOf w0 x.
Proof.
  unfold idOf. rewrite updCache_heap. destruct (decide (r = x)) as [<- |]; reflexivity.
Qed.

Lemma sides_updateStyle r u w0 i :
  (idOf w0 r = i -> forall s, sidesOf (u s) = sidesOf s) ->
  sidesOf (getStyle (tree (updateStyle r u w0)) i) = sidesOf (getStyle (tree w0) i).
Proof.
  intros Hu. rewrite updateStyle_tree.
  destruct (decide (idOf w0 r = i)) as [E | NE].
  - rewrite <- E, getStyle_setStyle. apply Hu, E.
  - now rewrite getStyle_setStyle_ne.
Qed.

Lemma pass_writes_root_sides_only fuel this width height direction w o i :
  i <> idOf w this ->
  calculateLayout fuel this width height direction w = Some o ->
  sidesOf (getStyle (tree (match o with Returned w' => w' | Threw w' => w' end)) i)
  = sidesOf (getStyle (tree w) i).
Proof.
  intros Hi. rewrite calculateLayout_phases.
  set (P := fun w' : World => sidesOf (getStyle (tree w') i) = sidesOf (getStyle (tree w) i)).
  assert (Hflex : forall val r w0, P w0 -> P (writeFlexDirection val r w0)).
  { intros val r w0 Hp. unfold P, writeFlexDirection.
    rewrite sides_updateStyle; [exact Hp | reflexivity]. }
  assert (Hins : forall r w0, P w0 -> P (insetsVisit r w0)).
  { intros r w0 Hp. unfold P, insetsVisit.
    destruct (bool_decide _); (rewrite sides_updateStyle; [exact Hp | reflexivity]). }
  assert (Hb : forall w1, beforeCompute fuel this direction w = Some w1 -> P w1).
  { unfold beforeCompute. intros w1.
    set (wA := resolvePaddingsToTaffy this _).
    assert (HA : P wA).
    { subst wA. unfold P, resolvePaddingsToTaffy, resolveMarginsToTaffy, resolveBordersToTaffy.
      rewrite !sides_updateStyle; [reflexivity | | |]; intros E; exfalso; apply Hi;
        rewrite <- E, ?idOf_updateStyle, idOf_updCache; reflexivity. }
    clearbody wA. rewrite resolveInsetsToTaffy_preorder.
    destruct (preorder insetsVisit insetsEnter fuel this wA) as [wB |] eqn:EB;
      cbn [mbind option_bind]; [| discriminate].
    assert (HB : P wB).
    { apply (preorder_keeps insetsVisit insetsEnter P Hins (fun _ _ _ Hp => Hp) _ _ _ _ EB HA). }
    destruct (bool_decide _).
    - rewrite applyRTLFlip_preorder. intros EC.
      apply (preorder_keeps _ noEnter P (Hflex mirroredFlexDirection) (fun _ _ _ Hp => Hp)
               _ _ _ _ EC HB).
    - now intros [= <-]. }
  destruct (beforeCompute fuel this direction w) as [w1 |]; [| discriminate].
  specialize (Hb w1 eq_refl).
  destruct (computeLayoutWithMeasure _ _ _ _) as [t |] eqn:Ecomp.
  - destruct (afterCompute fuel this _ (with_tree t w1)) as [w2 |] eqn:Eafter; [| discriminate].
    intros [= <-]. unfold afterCompute in Eafter.
    assert (HD : P (with_tree t w1)).
    { unfold P. cbn [tree with_tree]. rewrite (getStyle_compute _ _ _ _ _ Ecomp). exact Hb. }
    destruct (if bool_decide _ then _ else _) as [wE |] eqn:EE;
      cbn [mbind option_bind] in Eafter; [| discriminate].
    assert (HE : P wE).
    { destruct (bool_decide _).
      - rewrite restoreFlexDirection_preorder in EE.
        apply (preorder_keeps _ noEnter P (Hflex canonicalFlexDirection) (fun _ _ _ Hp => Hp)
                 _ _ _ _ EE HD).
      - now injection EE as <-. }
    rewrite markNewLayoutRecursive_preorder in Eafter.
    apply (preorder_keeps markVisit noEnter P (fun _ _ Hp => Hp) (fun _ _ _ Hp => Hp)
             _ _ _ _ Eafter HE).
  - intros [= <-]. exact Hb.
Qed.

End Mirroring.
End PassFacts.

(** ** The instance registry *)

Section RegistryFacts.
Context `{Builtins} `{Engine}.

Lemma free_lookup this w i :
  getNodeById (free this w) i = if decide (idOf w this = i) then None else getNodeById w i.
Proof.
  unfold getNodeById, free. cbn [instanceCache with_instanceCache with_tree].
  change (idOf (with_tree (remove (tree w) (idOf w this)) w) this) with (idOf w this).
  destruct (decide (idOf w this = i)) as [-> |];
    [apply lookup_delete_eq | now apply lookup_delete_ne].
Qed.

Lemma sameKids_heap w w' : heap w' = heap w -> sameKids w w'.
Proof. intros E x. now rewrite E. Qed.

Lemma freeChildren_spec fuel (IH : freesSubtree fuel) w : forall cs wa,
  heap wa = heap w -> (forall c, c ∈ cs -> depthLe w fuel c) ->
  exists wb,
    forChildren (freeRecursive fuel) cs wa = Some wb /\ heap wb = heap w /\
    (forall i, getNodeById wa i = None -> getNodeById wb i = None) /\
    (forall c x, c ∈ cs -> descendant w c x -> getNodeById wb (idOf w x) = None).
Proof.
  induction cs as [| c cs IHcs]; intros wa Ha Hall.
  - exists wa. repeat split; auto. intros c x Hc. now apply elem_of_nil in Hc.
  - assert (Hc0 : depthLe wa fuel c).
    { apply depthLe_ext with w; [now apply sameKids_heap |].
      apply Hall, elem_of_cons. now left. }
    destruct (IH c wa Hc0) as (wc & Ec & Hc & Hmono & Hgone).
    assert (Hrest : forall c', c' ∈ cs -> depthLe w fuel c').
    { intros c' Hc'. apply Hall, elem_of_cons. now right. }
    assert (Hcw : heap wc = heap w) by now rewrite Hc.
    destruct (IHcs wc Hcw Hrest) as (wb & Eb & Hb & Hmono2 & Hgone2).
    exists wb. cbn [forChildren]. rewrite Ec. repeat split; auto.
    intros c' x Hc' Hx. apply elem_of_cons in Hc' as [-> | Hc'].
    + apply Hmono2. replace (idOf w x) with (idOf wa x) by (unfold idOf; now rewrite Ha).
      apply Hgone. apply descendant_ext with w; [now apply sameKids_heap | exact Hx].
    + exact (Hgone2 c' x Hc' Hx).
Qed.

(** [freeRecursive] returns on a tree of bounded depth; it leaves the node
    objects alone, registers nothing, and unregisters every node below the
    root. *)
Lemma freeRecursive_spec fuel : freesSubtree fuel.
Proof.
  induction fuel as [| fuel IH]; intros this w Hdepth; [destruct Hdepth |].
  cbn [freeRecursive depthLe] in Hdepth |- *.
  rewrite Forall_forall in Hdepth.
  assert (Hall : forall c, c ∈ Node.childList (heap w this) -> depthLe w fuel c).
  { intros c Hc. now apply Hdepth, list_elem_of_In. }
  destruct (freeChildren_spec fuel IH w (Node.childList (heap w this)) w eq_refl Hall)
    as (wb & Eb & Hb & Hmono & Hgone).
  rewrite Eb. exists (free this wb). repeat split.
  - exact Hb.
  - intros i Hi. rewrite free_lookup. destruct (decide _); [reflexivity | now apply Hmono].
  - intros x Hx. rewrite free_lookup.
    destruct (decide (idOf wb this = idOf w x)) as [| NE]; [reflexivity |].
    inversion Hx as [r | r c x' Hc Hcx]; subst.
    + exfalso. apply NE. unfold idOf. now rewrite Hb.
    + exact (Hgone c x Hc Hcx).
Qed.

(** C7. On a tree of any number of levels, [freeRecursive] on the root
    returns; it first runs [freeRecursive] on each child in order, at which
    point every proper descendant is already out of the registry, and only
    then frees the root itself; afterwards a registry lookup of the handle
    of any node of the tree, the root included, finds nothing, and no handle
    that was unregistered before became registered. *)
Theorem c7_freeRecursive_unregisters (fuel n : nat) (this : NodeRef) (w : World) :
  depthLe w n this -> n <= fuel ->
  exists w1 w',
    forChildren (freeRecursive (pred fuel)) (Node.childList (heap w this)) w = Some w1 /\
    (forall c x, c ∈ Node.childList (heap w this) -> descendant w c x ->
       getNodeById w1 (idOf w x) = None) /\
    freeRecursive fuel this w = Some w' /\ w' = free this w1 /\
    (forall x, descendant w this x -> getNodeById w' (idOf w x) = None) /\
    (forall i, getNodeById w i = None -> getNodeById w' i = None).
Proof.
  intros Hdepth Hle.
  assert (Hd : depthLe w fuel this) by now apply depthLe_mono with n.
  destruct (freeRecursive_spec fuel this w Hd) as (w' & E & _ & Hmono & Hgone).
  destruct fuel as [| fuel]; [destruct Hd |].
  cbn [freeRecursive pred depthLe] in E, Hd |- *.
  rewrite Forall_forall in Hd.
  assert (Hall : forall c, c ∈ Node.childList (heap w this) -> depthLe w fuel c).
  { intros c Hc. now apply Hd, list_elem_of_In. }
  destruct (freeChildren_spec fuel (freeRecursive_spec fuel) w
              (Node.childList (heap w this)) w eq_refl Hall)
    as (w1 & E1 & _ & _ & Hgone1).
  rewrite E1 in E |- *. injection E as <-.
  exists w1, (free this w1). repeat split; assumption.
Qed.

End RegistryFacts.

(** ** Dirty propagation *)

Section DirtyFacts.
Context `{Builtins} `{Engine}.

Lemma ancestors_fun w r l1 : ancestors w r l1 -> forall l2, ancestors w r l2 -> l1 = l2.
Proof.
  induction 1 as [r Hr | r p l Hp _ IH]; intros l2 H2; inversion H2; subst;
    try congruence.
  assert (p = p0) by congruence. subst. f_equal. now apply IH.
Qed.

Lemma ancestors_suffix w r l x :
  ancestors w r l -> x ∈ l -> exists l2, ancestors w x l2 /\ length l2 < length l.
Proof.
  induction 1 as [r Hr | r p l Hp Hanc IH]; intros Hx.
  - now apply elem_of_nil in Hx.
  - apply elem_of_cons in Hx as [-> | Hx].
    + exists l. split; [exact Hanc | cbn; lia].
    + destruct (IH Hx) as (l2 & H2 & Hlen). exists l2. split; [exact H2 | cbn; lia].
Qed.

(** A node is not among its own ancestors when its parent chain ends. *)
Lemma ancestors_acyclic w r l : ancestors w r l -> r ∉ l.
Proof.
  intros Hanc Hin. destruct (ancestors_suffix w r l r Hanc Hin) as (l2 & H2 & Hlen).
  rewrite (ancestors_fun w r l2 H2 l Hanc) in Hlen. lia.
Qed.

Lemma ancestors_ext w w' r l :
  (forall x, Node.parent (heap w' x) = Node.parent (heap w x)) ->
  ancestors w r l -> ancestors w' r l.
Proof.
  intros Hp. induction 1 as [r Hr | r p l Hr _ IH].
  - apply anc_root. now rewrite Hp.
  - apply anc_step; [now rewrite Hp | exact IH].
Qed.

Lemma ancestorFiring_ext w w' l :
  (forall a, a ∈ l ->
     Node.dirtiedFunc (heap w' a) = Node.dirtiedFunc (heap w a) /\
     Node._isDirty (heap w' a) = Node._isDirty (heap w a)) ->
  ancestorFiring w' l = ancestorFiring w l.
Proof.
  induction l as [| a l IH]; intros Hl; [reflexivity |].
  cbn [ancestorFiring flat_map]. destruct (Hl a) as [-> ->]; [apply elem_of_cons; now left |].
  f_equal. apply IH. intros b Hb. apply Hl, elem_of_cons. now right.
Qed.

(** The upward walk along a parent chain that ends: every ancestor ends
    Dirty, nothing else changes, and the callbacks that fire are those of the
    ancestors that were Clean and have one, nearest first. *)
Lemma propagateDirtyToParent_spec l : forall r w,
  ancestors w r l -> forall fuel, length l < fuel ->
  exists w',
    propagateDirtyToParent fuel r w = Some w' /\
    (forall x, heap w' x =
               if decide (x ∈ l) then Node.set_isDirty true (heap w x) else heap w x) /\
    dirtiedCalls w' = dirtiedCalls w ++ ancestorFiring w l.
Proof.
  induction l as [| p l IH]; intros r w Hanc fuel Hfuel;
    (destruct fuel as [| fuel]; [cbn in Hfuel; lia |]); cbn [propagateDirtyToParent];
    inversion Hanc as [r' Hr | r' p' l' Hp Hanc']; subst.
  - rewrite Hr. exists w. split; [reflexivity |]. split.
    + intros x. destruct (decide (x ∈ [])) as [Hx |]; [now apply elem_of_nil in Hx | reflexivity].
    + cbn. now rewrite app_nil_r.
  - rewrite Hp.
    set (w1 := if negb (Node._isDirty (heap w p)) then _ else w).
    assert (Hh1 : forall x, heap w1 x =
              if decide (p = x) then Node.set_isDirty true (heap w p) else heap w x).
    { intros x. subst w1. destruct (Node._isDirty (heap w p)) eqn:Hd; cbn [negb].
      - destruct (decide (p = x)) as [<- |]; [now rewrite set_isDirty_id | reflexivity].
      - rewrite heap_modify, (decide_True (P := p = p)) by reflexivity.
        cbn [Node.dirtiedFunc Node.set_isDirty].
        destruct (Node.dirtiedFunc (heap w p)); cbn [heap callDirtied with_dirtiedCalls];
          rewrite ?heap_modify; reflexivity. }
    assert (Hc1 : dirtiedCalls w1 = dirtiedCalls w ++ ancestorFiring w [p]).
    { subst w1. cbn [ancestorFiring flat_map]. rewrite app_nil_r.
      destruct (Node._isDirty (heap w p)) eqn:Hd; cbn [negb].
      - destruct (Node.dirtiedFunc (heap w p)); now rewrite app_nil_r.
      - rewrite heap_modify, (decide_True (P := p = p)) by reflexivity.
        cbn [Node.dirtiedFunc Node.set_isDirty].
        destruct (Node.dirtiedFunc (heap w p)); [reflexivity | now rewrite app_nil_r]. }
    assert (Hpl : p ∉ l) by now apply (ancestors_acyclic w).
    assert (Hanc1 : ancestors w1 p l).
    { apply ancestors_ext with w; [| exact Hanc'].
      intros x. rewrite Hh1. destruct (decide (p = x)) as [<- |]; reflexivity. }
    clearbody w1.
    assert (Hfire : ancestorFiring w1 l = ancestorFiring w l).
    { apply ancestorFiring_ext. intros a Ha. rewrite Hh1.
      destruct (decide (p = a)) as [<- |]; [contradiction | split; reflexivity]. }
    destruct (IH p w1 Hanc1 fuel) as (w' & E & Hh & Hc); [cbn in Hfuel; lia |].
    exists w'. split; [exact E |]. split.
    + intros x. rewrite Hh, !Hh1.
      destruct (decide (x ∈ l)) as [Hx | Hx], (decide (p = x)) as [<- | Hne];
        try contradiction.
      * rewrite decide_True by (apply elem_of_cons; now right). reflexivity.
      * rewrite decide_True by (apply elem_of_cons; now left). reflexivity.
      * rewrite decide_False; [reflexivity |].
        intros Hin. apply elem_of_cons in Hin as [-> | Hin]; [now apply Hne | contradiction].
    + rewrite Hc, Hc1, Hfire, <- app_assoc. cbn [ancestorFiring flat_map].
      now rewrite app_nil_r.
Qed.

(** X27. [markDirty()] on a node with a measurement callback propagates
    upward: the node and every ancestor end Dirty, the node's own callback
    is invoked on its Clean-to-Dirty edge, then every ancestor that was
    Clean and has a dirtied-callback has it invoked once, nearest ancestor
    first, whether or not that ancestor has a measurement callback; no
    other [Node] object changes. *)
Theorem x27_markDirty_propagates (w : World) (this : NodeRef) (mf : MeasureFunction)
    (l : list NodeRef) (fuel : nat) :
  Node.measureFunc (heap w this) = Some mf ->
  ancestors w this l -> length l < fuel ->
  exists w',
    markDirtyNode fuel this w = Some w' /\
    Node._isDirty (heap w' this) = true /\
    (forall a, a ∈ l -> Node._isDirty (heap w' a) = true) /\
    (forall x, x <> this -> x ∉ l -> heap w' x = heap w x) /\
    dirtiedCalls w' = dirtiedCalls w ++ ownFiring w this ++ ancestorFiring w l.
Proof.
  intros Hm Hanc Hfuel. unfold markDirtyNode. rewrite Hm.
  set (w0 := with_tree (markDirty (tree w) (idOf w this)) w).
  set (w1 := markDirtyInternal this w0).
  assert (Hh1 : forall x, heap w1 x =
            if decide (this = x) then Node.set_isDirty true (heap w this) else heap w x).
  { intros x. subst w1. now rewrite markDirtyInternal_heap. }
  assert (Hc1 : dirtiedCalls w1 = dirtiedCalls w ++ ownFiring w this).
  { subst w1. now rewrite markDirtyInternal_calls. }
  assert (Hnot : this ∉ l) by now apply (ancestors_acyclic w).
  assert (Hanc1 : ancestors w1 this l).
  { apply ancestors_ext with w; [| exact Hanc].
    intros x. rewrite Hh1. destruct (decide (this = x)) as [<- |]; reflexivity. }
  assert (Hfire : ancestorFiring w1 l = ancestorFiring w l).
  { apply ancestorFiring_ext. intros a Ha. rewrite Hh1.
    destruct (decide (this = a)) as [<- |]; [contradiction | split; reflexivity]. }
  clearbody w1.
  destruct (propagateDirtyToParent_spec l this w1 Hanc1 fuel Hfuel) as (w' & E & Hh & Hc).
  exists w'. split; [exact E |]. split; [| split; [| split]].
  - rewrite Hh, decide_False by exact Hnot.
    rewrite Hh1, decide_True by reflexivity. reflexivity.
  - intros a Ha. rewrite Hh, decide_True by exact Ha. reflexivity.
  - intros x Hx Hxl. rewrite Hh, decide_False by exact Hxl.
    rewrite Hh1, decide_False by congruence. reflexivity.
  - rewrite Hc, Hc1, Hfire, <- app_assoc. reflexivity.
Qed.

End DirtyFacts.

(** ** The stand-in engine meets the assumptions *)

Section RefEngineFacts.

Lemma ref_getStyle_upd i f t j :
  (forall n, RefEngine.t_style (f n) = RefEngine.t_style n) ->
  RefEngine.getStyle (RefEngine.upd i f t) j = RefEngine.getStyle t j.
Proof.
  intros Hf. unfold RefEngine.getStyle, RefEngine.upd. cbn [RefEngine.slot].
  unfold insert, fn_insert. destruct (decide (i = j)) as [-> |]; [apply Hf | reflexivity].
Qed.

Lemma ref_getStyle_dirtyUp fuel : forall i t j,
  RefEngine.getStyle (RefEngine.dirtyUp fuel i t) j = RefEngine.getStyle t j.
Proof.
  induction fuel as [| fuel IH]; intros i t j; cbn [RefEngine.dirtyUp].
  - now apply ref_getStyle_upd.
  - destruct (RefEngine.t_parent _); [rewrite IH |]; now apply ref_getStyle_upd.
Qed.

Lemma ref_getStyle_compute measure space fuel : forall i t t' j,
  RefEngine.compute measure space fuel i t = Some t' ->
  RefEngine.getStyle t' j = RefEngine.getStyle t j.
Proof.
  induction fuel as [| fuel IH]; intros i t t' j E; [discriminate |].
  cbn [RefEngine.compute] in E.
  destruct (match RefEngine.t_children (RefEngine.slot t i) with
            | [] => _ | _ => _ end) as [sz |]; cbn [mbind option_bind] in E; [| discriminate].
  revert E. generalize (RefEngine.t_children (RefEngine.slot t i)).
  set (t1 := RefEngine.upd i _ t).
  assert (H1 : RefEngine.getStyle t1 j = RefEngine.getStyle t j)
    by now apply ref_getStyle_upd.
  rewrite <- H1. clearbody t1. clear H1.
  intros cs. revert t1. induction cs as [| c cs IHcs]; intros t1 E; cbn [foldl] in E.
  - now injection E as <-.
  - cbn [mbind option_bind] in E.
    destruct (RefEngine.compute measure space fuel c t1) as [t2 |] eqn:E2.
    + rewrite (IHcs t2 E). now apply (IH c).
    + exfalso. clear -E. induction cs as [| c' cs IH']; cbn [foldl] in E; [discriminate |].
      now apply IH'.
Qed.

Lemma refEngine_laws : @EngineLaws refEngine.
Proof.
  split; cbn [getStyle setStyle computeLayoutWithMeasure refEngine].
  - intros t i s. unfold RefEngine.setStyle, RefEngine.markDirty.
    rewrite ref_getStyle_dirtyUp. unfold RefEngine.getStyle, RefEngine.upd.
    cbn [RefEngine.slot]. now rewrite fn_lookup_insert.
  - intros t i j s Hij. unfold RefEngine.setStyle, RefEngine.markDirty.
    rewrite ref_getStyle_dirtyUp. unfold RefEngine.getStyle, RefEngine.upd.
    cbn [RefEngine.slot]. now rewrite fn_lookup_insert_ne.
  - intros t t' i a m E j. unfold RefEngine.computeLayoutWithMeasure in E.
    exact (ref_getStyle_compute m a _ i t t' j E).
Qed.

End RefEngineFacts.
(** ** The properties on concrete trees *)

Section OnExamples.
#[local] Existing Instance refEngine.
#[local] Existing Instance refBuiltins.

Lemma JLength_10_20 : JLength 10 <> JLength 20.
Proof.
  intros E.
  apply (f_equal (fun v => match v with JLength x => PrimFloat.eqb x 10 | _ => false end)) in E.
  vm_compute in E. discriminate.
Qed.





(** C3 fails on the code: after a right-to-left pass over [familyWorld] the
    child's last direction is right-to-left and its inset was resolved again
    (Start is on the right), but the margin, padding and border the engine
    holds for the child are still the left-to-right ones, not what the
    resolver gives for the child's cache now. *)
Theorem c3_descendants_keep_stale_sides :
  returned (calculateLayout 2 0%nat nan nan (Some Direction.RTL) familyWorld) = true /\
  (let w' := stateAfter (calculateLayout 2 0%nat nan nan (Some Direction.RTL) familyWorld) in
   let live := getStyle (tree w') (idOf w' 1%nat) in
   descendant familyWorld 0%nat 1%nat /\
   StyleCache.lastDirection (cacheOf w' 1%nat) = Direction.RTL /\
   Style.inset live = resolveInsets (cacheOf w' 1%nat) /\
   Rect.right (Style.inset live) = JLength 10 /\
   Style.margin live = Rect.mk (JLength 10) (JStr "Auto") (JStr "Auto") (JStr "Auto") /\
   resolveMargins (cacheOf w' 1%nat)
   = Rect.mk (JStr "Auto") (JLength 10) (JStr "Auto") (JStr "Auto") /\
   Style.padding live = Rect.mk (JLength 10) (JLength 0) (JLength 0) (JLength 0) /\
   resolvePaddings (cacheOf w' 1%nat)
   = Rect.mk (JLength 0) (JLength 10) (JLength 0) (JLength 0) /\
   Style.border live = Rect.mk (JLength 10) (JLength 0) (JLength 0) (JLength 0) /\
   resolveBorders (cacheOf w' 1%nat)
   = Rect.mk (JLength 0) (JLength 10) (JLength 0) (JLength 0)).
Proof.
  split; [vm_compute; reflexivity |]. cbv zeta.
  split; [apply desc_child with 1%nat; [vm_compute; constructor | constructor] |].
  repeat (split; [vm_compute; reflexivity |]). vm_compute. reflexivity.
Qed.

(** C4 fails on the code. In [laidOutWorld] the parent (0) and its child
    (1) are Clean, on the [Node] side and in the engine, and the parent has
    the dirtied-callback 7. [child.setMargin(Edge.Left, 5)] makes the child
    Dirty and invokes the child's callback 8, and the engine marks the
    parent dirty, but the parent's own flag stays unset and its callback 7
    is not invoked. The sibling path [child.markDirty()] on the same state
    sets the parent's flag and invokes 7 after 8. *)
Theorem c4_style_mutation_misses_ancestors :
  Node.parent (heap laidOutWorld 1%nat) = Some 0%nat /\
  Node.dirtiedFunc (heap laidOutWorld 0%nat) = Some 7%nat /\
  Node._isDirty (heap laidOutWorld 0%nat) = false /\
  Node._isDirty (heap laidOutWorld 1%nat) = false /\
  isDirty laidOutWorld 0%nat = false /\
  isDirty laidOutWorld 1%nat = false /\
  Node._isDirty
    (heap (mutate 1%nat (SetMargin Edge.Left (JNum 5)) laidOutWorld) 1%nat) = true /\
  Node._isDirty
    (heap (mutate 1%nat (SetMargin Edge.Left (JNum 5)) laidOutWorld) 0%nat) = false /\
  isDirty (mutate 1%nat (SetMargin Edge.Left (JNum 5)) laidOutWorld) 0%nat = true /\
  dirtiedCalls (mutate 1%nat (SetMargin Edge.Left (JNum 5)) laidOutWorld)
  = dirtiedCalls laidOutWorld ++ [(8%nat, 1%nat)] /\
  (exists w',
     markDirtyNode 2 1%nat laidOutWorld = Some w' /\
     Node._isDirty (heap w' 0%nat) = true /\
     dirtiedCalls w' = dirtiedCalls laidOutWorld ++ [(8%nat, 1%nat); (7%nat, 0%nat)]).
Proof.
  repeat (split; [vm_compute; reflexivity |]).
  eexists. split; [vm_compute; reflexivity |].
  split; vm_compute; reflexivity.
Qed.

(** C5 fails on the code. In [laidOutWorld] the child (1) is Clean and
    holds a measurement callback and the dirtied-callback 8.
    [setDirection], a style setter, leaves it Clean and invokes nothing, so
    of the two consecutive style mutations [setDirection(RTL)] and
    [setMargin(Edge.Left, 5)] it is the second that invokes the callback,
    not the first. With [setFlexDirection(Row)] as the first mutation the
    callback is invoked by the first and not by the second. *)
Theorem c5_setDirection_leaves_node_clean :
  truthy (Node.measureFunc (heap laidOutWorld 1%nat)) = true /\
  Node.dirtiedFunc (heap laidOutWorld 1%nat) = Some 8%nat /\
  Node._isDirty (heap laidOutWorld 1%nat) = false /\
  isDirty laidOutWorld 1%nat = false /\
  dirtiedCalls (mutate 1%nat (SetDirection Direction.RTL) laidOutWorld)
  = dirtiedCalls laidOutWorld /\
  Node._isDirty (heap (mutate 1%nat (SetDirection Direction.RTL) laidOutWorld) 1%nat)
  = false /\
  isDirty (mutate 1%nat (SetDirection Direction.RTL) laidOutWorld) 1%nat = false /\
  dirtiedCalls
    (mutate 1%nat (SetMargin Edge.Left (JNum 5))
       (mutate 1%nat (SetDirection Direction.RTL) laidOutWorld))
  = dirtiedCalls laidOutWorld ++ [(8%nat, 1%nat)] /\
  dirtiedCalls (mutate 1%nat (SetFlexDirection FlexDirection.Row) laidOutWorld)
  = dirtiedCalls laidOutWorld ++ [(8%nat, 1%nat)] /\
  dirtiedCalls
    (mutate 1%nat (SetMargin Edge.Left (JNum 5))
       (mutate 1%nat (SetFlexDirection FlexDirection.Row) laidOutWorld))
  = dirtiedCalls laidOutWorld ++ [(8%nat, 1%nat)].
Proof. repeat (split; [vm_compute; reflexivity |]). vm_compute. reflexivity. Qed.

(** C6 fails on the code. A right-to-left pass over [familyWorld] returns
    with the own flag of the root (0) and of its child (1) reset and their
    new-layout flags set, but [isDirty()] answers true for both: the last
    thing the pass did to the engine was the style write of
    [restoreFlexDirection], after the computation. The left-to-right pass
    over the same tree, which writes nothing after the computation, returns
    with [isDirty()] false for both. *)
Theorem c6_rtl_pass_leaves_engine_dirty :
  returned (calculateLayout 2 0%nat nan nan (Some Direction.RTL) familyWorld) = true /\
  Forall
    (fun x =>
       descendant familyWorld 0%nat x /\
       Node._isDirty
         (heap (stateAfter (calculateLayout 2 0%nat nan nan (Some Direction.RTL) familyWorld))
            x) = false /\
       hasNewLayout
         (stateAfter (calculateLayout 2 0%nat nan nan (Some Direction.RTL) familyWorld)) x
       = true /\
       isDirty
         (stateAfter (calculateLayout 2 0%nat nan nan (Some Direction.RTL) familyWorld)) x
       = true)
    [0%nat; 1%nat] /\
  returned (calculateLayout 2 0%nat nan nan (Some Direction.LTR) familyWorld) = true /\
  Forall
    (fun x =>
       hasNewLayout
         (stateAfter (calculateLayout 2 0%nat nan nan (Some Direction.LTR) familyWorld)) x
       = true /\
       isDirty
         (stateAfter (calculateLayout 2 0%nat nan nan (Some Direction.LTR) familyWorld)) x
       = false)
    [0%nat; 1%nat].
Proof.
  assert (Hd1 : descendant familyWorld 0%nat 1%nat).
  { apply desc_child with 1%nat; [vm_compute; constructor | constructor]. }
  split; [vm_compute; reflexivity |]. split.
  { repeat constructor; try exact Hd1; vm_compute; reflexivity. }
  split; [vm_compute; reflexivity |].
  repeat constructor; vm_compute; reflexivity.
Qed.


(** X27 on [parentChildWorld]: [markDirty()] on the measured child. *)
Lemma x27_markDirty_propagates_witness :
  exists w',
    markDirtyNode 2 1%nat parentChildWorld = Some w' /\
    Node._isDirty (heap w' 1%nat) = true /\
    (forall a, a ∈ [0%nat] -> Node._isDirty (heap w' a) = true) /\
    (forall x, x <> 1%nat -> x ∉ [0%nat] -> heap w' x = heap parentChildWorld x) /\
    dirtiedCalls w'
    = dirtiedCalls parentChildWorld ++ ownFiring parentChildWorld 1%nat
      ++ ancestorFiring parentChildWorld [0%nat].
Proof.
  apply (x27_markDirty_propagates parentChildWorld 1%nat fixedMeasure [0%nat] 2).
  - reflexivity.
  - apply anc_step; [reflexivity |]. apply anc_root. reflexivity.
  - cbn. lia.
Defined.

(** X28 on a single Row node, right-to-left. *)
Lemma x28_pass_resets_node_flags_witness :
  exists w1,
    beforeCompute 1 0%nat (Some Direction.RTL) (rowWorld (Some fixedMeasure)) = Some w1 /\
    match computeLayoutWithMeasure (tree w1) (idOf w1 0%nat)
            (availableSpaceOf nan nan) (measureDispatcher w1) with
    | Some _ =>
        exists w',
          calculateLayout 1 0%nat nan nan (Some Direction.RTL)
            (rowWorld (Some fixedMeasure)) = Some (Returned w') /\
          forall x, descendant (rowWorld (Some fixedMeasure)) 0%nat x ->
            Node._isDirty (heap w' x) = false /\ hasNewLayout w' x = true
    | None =>
        calculateLayout 1 0%nat nan nan (Some Direction.RTL)
          (rowWorld (Some fixedMeasure)) = Some (Threw w1)
    end.
Proof.
  apply (x28_pass_resets_node_flags 1 1).
  - vm_compute. constructor.
  - lia.
Defined.

(** C7 on the three levels of [threeLevels]. *)
Lemma c7_freeRecursive_unregisters_witness :
  exists w1 w',
    forChildren (freeRecursive (pred 3)) (Node.childList (heap threeLevels 0%nat))
      threeLevels = Some w1 /\
    (forall c x, c ∈ Node.childList (heap threeLevels 0%nat) ->
       descendant threeLevels c x -> getNodeById w1 (idOf threeLevels x) = None) /\
    freeRecursive 3 0%nat threeLevels = Some w' /\ w' = free 0%nat w1 /\
    (forall x, descendant threeLevels 0%nat x ->
       getNodeById w' (idOf threeLevels x) = None) /\
    (forall i, getNodeById threeLevels i = None -> getNodeById w' i = None).
Proof.
  apply (c7_freeRecursive_unregisters 3 3).
  - vm_compute. repeat constructor.
  - lia.
Defined.

End OnExamples.

(** * Further properties

    Properties of the code beyond the specification's claims: the resolver's
    full precedence, the value language handed to the engine, the enum
    mappings, the tree operations, the registry, and the layout pass. *)

Section ResolverChain.
Context `{Builtins}.

Lemma resolveEdges_chain_opt (g : Edge.t -> option JsVal) start rtl :
  resolveEdges (fun o => o) start g rtl = chainRect (fun o => o) start g rtl.
Proof.
  destruct start as [sl sr st sb]. unfold resolveEdges, chainRect.
  destruct rtl; cbn [firstSet];
    generalize (g Edge.All) (g Edge.Horizontal) (g Edge.Vertical) (g Edge.Start)
      (g Edge.End_) (g Edge.Left) (g Edge.Right) (g Edge.Top) (g Edge.Bottom);
    intros a h v s e l r t b; destruct a, h, v, s, e, l, r, t, b; reflexivity.
Qed.

Lemma setPhysical_map {V} (conv : V -> option JsVal) e v cur :
  setPhysical conv e v cur = setPhysical (fun o => o) e (conv v) cur.
Proof. reflexivity. Qed.

Lemma resolveEdges_chain {V} (conv : V -> option JsVal) start edges rtl :
  resolveEdges conv start edges rtl = chainRect conv start edges rtl.
Proof.
  transitivity (resolveEdges (fun o => o) start (fun k => conv (edges k)) rtl).
  - unfold resolveEdges. cbv zeta. rewrite !(setPhysical_map conv). reflexivity.
  - rewrite resolveEdges_chain_opt. unfold chainRect. cbn [firstSet]. reflexivity.
Qed.

Lemma firstSet_ind {V} (P : JsVal -> Prop) (conv : V -> option JsVal) edges keys default :
  (forall v p, conv v = Some p -> P p) -> P default -> P (firstSet conv edges keys default).
Proof.
  intros Hc Hd. induction keys as [| k keys IH]; cbn [firstSet]; [exact Hd |].
  destruct (conv (edges k)) eqn:E; [exact (Hc _ _ E) | exact IH].
Qed.

Lemma parseValue_engineValue v : engineValue (parseValue v) = true.
Proof.
  unfold parseValue. destruct (isStr v "auto"); [reflexivity |].
  destruct v as [| n | s | n | n]; try reflexivity.
  destruct (endsWith s "%"); [reflexivity |].
  destruct (negb (is_nan (parseFloat s))); reflexivity.
Qed.

Lemma chainRect_engine {V} (conv : V -> option JsVal) start edges rtl :
  (forall v p, conv v = Some p -> engineValue p = true) -> engineRect start = true ->
  engineRect (chainRect conv start edges rtl) = true.
Proof.
  intros Hc Hs. unfold engineRect in *. cbn [chainRect Rect.left Rect.right Rect.top Rect.bottom].
  apply andb_true_iff in Hs as [Hs Hb]. apply andb_true_iff in Hs as [Hs Ht].
  apply andb_true_iff in Hs as [Hl Hr].
  rewrite !andb_true_iff. split; [split; [split |] |];
    apply (firstSet_ind (fun p => engineValue p = true)); assumption.
Qed.

(** X1. The full order of precedence of the margin, padding and border
    resolvers, for every cache and direction: each side takes the first key
    that holds a value among the physical key, the logical key the direction
    lands on that side ([Start] on the left and [End] on the right under
    left-to-right, the other way round under right-to-left), [Horizontal]
    (or [Vertical] for top and bottom) and [All]; when none holds a value
    the side is auto for a margin and the zero length for padding and
    border. *)
Theorem x1_edge_precedence_chain (c : StyleCache.t) :
  resolveMargins c = chainRect parsedEdge auto4 (StyleCache.margins c) (isRTL c) /\
  resolvePaddings c = chainRect parsedEdge zero4 (StyleCache.paddings c) (isRTL c) /\
  resolveBorders c = chainRect borderEdge zero4 (StyleCache.borders c) (isRTL c).
Proof.
  unfold resolveMargins, resolvePaddings, resolveBorders.
  now rewrite !resolveEdges_chain.
Qed.

(** X2. Whatever the caller stored (numbers, percent strings, ["auto"],
    strings that are no number at all), every side of the margin, padding
    and border rectangles written to the engine is one of the engine's
    three forms: auto, a length or a percentage; a border side is always a
    length. No raw number or raw string ever reaches the engine. *)
Theorem x2_resolved_sides_are_engine_values (c : StyleCache.t) :
  engineRect (resolveMargins c) = true /\
  engineRect (resolvePaddings c) = true /\
  engineRect (resolveBorders c) = true /\
  (forall side, physical side -> exists n, sideOf side (resolveBorders c) = JLength n).
Proof.
  unfold resolveMargins, resolvePaddings, resolveBorders. rewrite !resolveEdges_chain.
  assert (Hp : forall v p, parsedEdge v = Some p -> engineValue p = true).
  { intros v p. unfold parsedEdge. destruct (isDefined v); [| discriminate].
    intros [= <-]. apply parseValue_engineValue. }
  assert (Hb : forall (v : option float) p, borderEdge v = Some p -> exists n, p = JLength n).
  { intros [n |] p; cbn; [| discriminate]. intros [= <-]. now exists n. }
  split; [now apply chainRect_engine |]. split; [now apply chainRect_engine |].
  split.
  - apply chainRect_engine; [| reflexivity]. intros v p E. now destruct (Hb v p E) as [n ->].
  - intros side [-> | [-> | [-> | ->]]]; cbn [sideOf chainRect Rect.left Rect.right Rect.top Rect.bottom];
      apply (firstSet_ind (fun p => exists n, p = JLength n)); try exact Hb;
      now exists 0%float.
Qed.

Lemma insetsOk_spec c : insetsOk c = true <-> forall e, okInset (StyleCache.insets c e) = true.
Proof.
  unfold insetsOk. rewrite forallb_forall. split.
  - intros Hall e. apply Hall. unfold allEdges. destruct e; cbn; tauto.
  - intros Hall e _. apply Hall.
Qed.

Lemma insetAt_engine c e :
  okInset (StyleCache.insets c e) = true -> engineValue (insetAt c e) = true.
Proof.
  unfold insetAt. destruct (StyleCache.insets c e) as [| n | s | n | n]; cbn;
    try reflexivity; try discriminate.
  destruct (String.eqb s "auto"); cbn; [reflexivity |]. tauto.
Qed.

Lemma resolveInsets_engine c : insetsOk c = true -> engineRect (resolveInsets c) = true.
Proof.
  intros Hok. rewrite insetsOk_spec in Hok.
  assert (Hside : forall side, physical side -> engineValue (sideOf side (resolveInsets c)) = true).
  { intros side Hs. rewrite (resolveInsets_sides c side Hs).
    destruct (logicalFor (isRTL c) side) as [lg |]; [| now apply insetAt_engine].
    destruct (isStr (insetAt c lg) "Auto"); now apply insetAt_engine. }
  assert (Hl := Hside Edge.Left). assert (Hr := Hside Edge.Right).
  assert (Ht := Hside Edge.Top). assert (Hb := Hside Edge.Bottom).
  cbn [sideOf] in Hl, Hr, Ht, Hb. unfold engineRect, physical in *.
  rewrite Hl, Hr, Ht, Hb; auto.
Qed.

End ResolverChain.

Section EdgeFacts.
Context `{Builtins} `{Engine}.

Lemma cacheOf_updateStyle r u w x : cacheOf (updateStyle r u w) x = cacheOf w x.
Proof.
  unfold cacheOf. rewrite updateStyle_heap. now destruct (decide (r = x)) as [-> |].
Qed.

Lemma cacheOf_updCache r g w x :
  cacheOf (updCache r g w) x = if decide (r = x) then g (cacheOf w r) else cacheOf w x.
Proof.
  unfold cacheOf. rewrite updCache_heap. now destruct (decide (r = x)).
Qed.

Lemma cacheOf_setMargin this edge v w x :
  cacheOf (setMargin this edge v w) x =
    if decide (this = x)
    then StyleCache.set_margins (<[edge := v]> (StyleCache.margins (cacheOf w this)))
           (cacheOf w this)
    else cacheOf w x.
Proof.
  unfold setMargin, resolveMarginsToTaffy. now rewrite cacheOf_updateStyle, cacheOf_updCache.
Qed.

Lemma cacheOf_setPadding this edge v w x :
  cacheOf (setPadding this edge v w) x =
    if decide (this = x)
    then StyleCache.set_paddings (<[edge := v]> (StyleCache.paddings (cacheOf w this)))
           (cacheOf w this)
    else cacheOf w x.
Proof.
  unfold setPadding, resolvePaddingsToTaffy. now rewrite cacheOf_updateStyle, cacheOf_updCache.
Qed.

Lemma cacheOf_setBorder this edge b w x :
  cacheOf (setBorder this edge b w) x =
    if decide (this = x)
    then StyleCache.set_borders (<[edge := b]> (StyleCache.borders (cacheOf w this)))
           (cacheOf w this)
    else cacheOf w x.
Proof.
  unfold setBorder, resolveBordersToTaffy. now rewrite cacheOf_updateStyle, cacheOf_updCache.
Qed.

(** The inset cache [setPosition] leaves: the parsed value under the keys
    the edge fans out to, the old entry elsewhere. *)
Lemma insets_setPosition this edge v w e :
  StyleCache.insets (cacheOf (setPosition this edge v w) this) e =
    if bool_decide
         (e ∈ match edge with
              | Edge.All =>
                  [Edge.Left; Edge.Right; Edge.Top; Edge.Bottom; Edge.Start; Edge.End_]
              | Edge.Horizontal => [Edge.Left; Edge.Right; Edge.Start; Edge.End_]
              | Edge.Vertical => [Edge.Top; Edge.Bottom]
              | _ => [edge]
              end)
    then parseValue (match v with JUndefined => JStr "auto" | _ => v end)
    else StyleCache.insets (cacheOf w this) e.
Proof.
  unfold setPosition, syncStyle. rewrite cacheOf_updateStyle, cacheOf_updCache.
  rewrite decide_True by reflexivity. cbn [StyleCache.insets StyleCache.set_insets].
  destruct edge, e; vm_compute; reflexivity.
Qed.

Lemma other_setPosition this edge v w :
  StyleCache.lastDirection (cacheOf (setPosition this edge v w) this)
  = StyleCache.lastDirection (cacheOf w this) /\
  StyleCache.position (cacheOf (setPosition this edge v w) this)
  = StyleCache.position (cacheOf w this) /\
  forall x, x <> this -> cacheOf (setPosition this edge v w) x = cacheOf w x.
Proof.
  unfold setPosition, syncStyle.
  repeat split; intros; rewrite cacheOf_updateStyle, cacheOf_updCache;
    [rewrite decide_True by reflexivity; reflexivity ..
    | rewrite decide_False by congruence; reflexivity].
Qed.

(** X4. For the six edge keys that are not compound, a margin, padding or
    border that was set is what its getter reads back: the margin and
    padding getters return the stored input as a [Value] (a number [n] comes
    back as [n] points, [setMarginAuto] as Auto), the border getter returns
    the stored width ([NaN] when the width was [undefined]). Setting one key
    changes what the getters read for no other key of the node and for no
    other node. *)
Theorem x4_edge_getters_round_trip (w : World) (this : NodeRef) (edge : Edge.t)
    (v : JsVal) (b : option float) :
  compound edge = false ->
  (getMargin (setMargin this edge v w) this edge = parseToValue v /\
   getPadding (setPadding this edge v w) this edge = parseToValue v /\
   getBorder (setBorder this edge b w) this edge
   = match b with Some n => n | None => nan end) /\
  (forall n, getMargin (setMargin this edge (JNum n) w) this edge = Value.mk Unit.Point n) /\
  getMargin (setMarginAuto this edge w) this edge = Value.mk Unit.Auto nan /\
  (forall e', e' <> edge ->
     getMargin (setMargin this edge v w) this e' = getMargin w this e' /\
     getPadding (setPadding this edge v w) this e' = getPadding w this e' /\
     getBorder (setBorder this edge b w) this e' = getBorder w this e') /\
  (forall x e', x <> this ->
     getMargin (setMargin this edge v w) x e' = getMargin w x e' /\
     getPadding (setPadding this edge v w) x e' = getPadding w x e' /\
     getBorder (setBorder this edge b w) x e' = getBorder w x e').
Proof.
  intros Hc. unfold setMarginAuto, getMargin, getPadding, getBorder.
  split; [| split; [| split; [| split]]].
  - rewrite cacheOf_setMargin, cacheOf_setPadding, cacheOf_setBorder.
    rewrite !decide_True by reflexivity.
    cbn [StyleCache.margins StyleCache.set_margins StyleCache.paddings
         StyleCache.set_paddings StyleCache.borders StyleCache.set_borders].
    rewrite !fn_lookup_insert. destruct edge; try discriminate Hc; auto.
  - intros n. rewrite cacheOf_setMargin, decide_True by reflexivity.
    cbn [StyleCache.margins StyleCache.set_margins]. rewrite fn_lookup_insert.
    destruct edge; try discriminate Hc; reflexivity.
  - rewrite cacheOf_setMargin, decide_True by reflexivity.
    cbn [StyleCache.margins StyleCache.set_margins]. rewrite fn_lookup_insert.
    destruct edge; try discriminate Hc; reflexivity.
  - intros e' Hne.
    rewrite cacheOf_setMargin, cacheOf_setPadding, cacheOf_setBorder.
    rewrite !decide_True by reflexivity.
    cbn [StyleCache.margins StyleCache.set_margins StyleCache.paddings
         StyleCache.set_paddings StyleCache.borders StyleCache.set_borders].
    rewrite !fn_lookup_insert_ne by congruence. auto.
  - intros x e' Hne.
    rewrite cacheOf_setMargin, cacheOf_setPadding, cacheOf_setBorder.
    rewrite !decide_False by congruence. auto.
Qed.

Lemma parseToValue_parseValue v :
  is_nan (parseFloat "Auto") = true -> parseToValue (parseValue v) = unsetValue.
Proof.
  intros Hnan.
  assert (HA : parseToValue (JStr "Auto") = unsetValue).
  { unfold parseToValue. cbn. rewrite Hnan. reflexivity. }
  unfold parseValue. destruct (isStr v "auto"); [exact HA |].
  destruct v as [| n | s | n | n]; try exact HA; try reflexivity.
  destruct (endsWith s "%"); [reflexivity |].
  destruct (negb (is_nan (parseFloat s))); [reflexivity | exact HA].
Qed.

(** X5. The inset getter does not read back what was set. [setPosition]
    stores the parsed engine value, which [getPosition] cannot read: after
    [setPosition(edge, v)], for every edge and every input [v] (a number, a
    percent string, ["auto"], [undefined]), [getPosition(edge)] is the unset
    sentinel (unit Undefined, value [NaN]), also after [setPositionAuto].
    Only an edge that was never set reads as Auto. The host's [parseFloat]
    is assumed to answer [NaN] on the string ["Auto"]. *)
Theorem x5_position_getter_reads_unset (w : World) (this : NodeRef) (edge : Edge.t)
    (v : JsVal) :
  is_nan (parseFloat "Auto") = true ->
  getPosition (setPosition this edge v w) this edge = unsetValue /\
  getPosition (setPositionAuto this edge w) this edge = unsetValue /\
  (compound edge = false ->
   StyleCache.insets (cacheOf w this) edge = JStr "auto" ->
   getPosition w this edge = Value.mk Unit.Auto nan).
Proof.
  intros Hnan.
  assert (Hset : forall v', getPosition (setPosition this edge v' w) this edge = unsetValue).
  { intros v'. unfold getPosition. rewrite insets_setPosition.
    destruct edge; try reflexivity;
      (rewrite bool_decide_eq_true_2 by (apply list_elem_of_singleton; reflexivity));
      now apply parseToValue_parseValue. }
  split; [apply Hset |]. split; [apply Hset |].
  - intros Hc Hi. unfold getPosition. rewrite Hi.
    destruct edge; try discriminate Hc; reflexivity.
Qed.

Section WithLaws.
Context `{!EngineLaws}.

Lemma live_updateStyle this u w :
  getStyle (tree (updateStyle this u w)) (idOf (updateStyle this u w) this)
  = u (getStyle (tree w) (idOf w this)).
Proof. now rewrite idOf_updateStyle, updateStyle_tree, getStyle_setStyle. Qed.

Lemma live_syncStyle this w :
  liveInset (syncStyle this w) this = expectedInset (cacheOf w this) /\
  Style.position (getStyle (tree (syncStyle this w)) (idOf (syncStyle this w) this))
  = Mapping.fromYogaPositionType (StyleCache.position (cacheOf w this)).
Proof.
  unfold liveInset, syncStyle. rewrite live_updateStyle. split; reflexivity.
Qed.

(** X3. Inset caches stay well formed and the engine only ever sees
    engine values for insets: if every entry of a node's inset cache is
    absent, the initial ["auto"] or an engine value (as in a new node), then
    so it is after [setPosition] with any edge and any input and after
    [setPositionType], and the inset rectangle these calls write to the
    engine has auto, a length or a percentage on each side. *)
Theorem x3_inset_values_wellformed (w : World) (this : NodeRef) (edge : Edge.t)
    (v : JsVal) (p : PositionType.t) :
  insetsOk (cacheOf w this) = true ->
  insetsOk (cacheOf (setPosition this edge v w) this) = true /\
  engineRect (liveInset (setPosition this edge v w) this) = true /\
  insetsOk (cacheOf (setPositionType this p w) this) = true /\
  engineRect (liveInset (setPositionType this p w) this) = true.
Proof.
  intros Hok.
  assert (Hexp : forall c, insetsOk c = true -> engineRect (expectedInset c) = true).
  { intros c Hc. unfold expectedInset. destruct (bool_decide _); [reflexivity |].
    now apply resolveInsets_engine. }
  assert (Hsp : insetsOk (cacheOf (setPosition this edge v w) this) = true).
  { apply insetsOk_spec. intros e. rewrite insets_setPosition.
    destruct (bool_decide _).
    - pose proof (parseValue_engineValue (match v with JUndefined => JStr "auto" | _ => v end)) as Hv.
      destruct (parseValue _) as [| n | s | n | n]; cbn in *; try reflexivity;
        try discriminate. rewrite Hv. apply orb_true_r.
    - rewrite insetsOk_spec in Hok. apply Hok. }
  assert (Hst : insetsOk (cacheOf (setPositionType this p w) this) = true).
  { unfold setPositionType, syncStyle. rewrite cacheOf_updateStyle, cacheOf_updCache.
    rewrite decide_True by reflexivity. exact Hok. }
  split; [exact Hsp |]. split; [| split; [exact Hst |]].
  - unfold setPosition in Hsp |- *. rewrite (proj1 (live_syncStyle _ _)). apply Hexp.
    unfold syncStyle in Hsp. now rewrite cacheOf_updateStyle in Hsp.
  - unfold setPositionType in Hst |- *. rewrite (proj1 (live_syncStyle _ _)). apply Hexp.
    unfold syncStyle in Hst. now rewrite cacheOf_updateStyle in Hst.
Qed.

(** X6. How the position type reaches the engine. After
    [setPositionType(p)] the getter reads [p] back, except that Static reads
    back as Relative: the engine is never given Static. While the cached
    type is Static the engine's inset is auto on all four sides; the cached
    insets are kept as they were, and a later change to Relative or Absolute
    writes the resolved cached insets to the engine again. *)
Theorem x6_position_type_emulation (w : World) (this : NodeRef) (p q : PositionType.t) :
  getPositionType (setPositionType this p w) this
  = match p with PositionType.Static => PositionType.Relative | _ => p end /\
  liveInset (setPositionType this PositionType.Static w) this = auto4 /\
  StyleCache.insets (cacheOf (setPositionType this p w) this)
  = StyleCache.insets (cacheOf w this) /\
  (q <> PositionType.Static ->
   liveInset (setPositionType this q (setPositionType this PositionType.Static w)) this
   = resolveInsets (cacheOf w this)).
Proof.
  split; [| split; [| split]].
  - unfold getPositionType, setPositionType. rewrite (proj2 (live_syncStyle _ _)).
    rewrite cacheOf_updCache, decide_True by reflexivity. now destruct p.
  - unfold setPositionType. rewrite (proj1 (live_syncStyle _ _)).
    rewrite cacheOf_updCache, decide_True by reflexivity. reflexivity.
  - unfold setPositionType, syncStyle. rewrite cacheOf_updateStyle, cacheOf_updCache.
    rewrite decide_True by reflexivity. reflexivity.
  - intros Hq. unfold setPositionType at 1. rewrite (proj1 (live_syncStyle _ _)).
    rewrite cacheOf_updCache, decide_True by reflexivity.
    unfold setPositionType, syncStyle. rewrite cacheOf_updateStyle, cacheOf_updCache.
    rewrite decide_True by reflexivity. unfold expectedInset.
    cbn [StyleCache.position StyleCache.set_position].
    rewrite bool_decide_eq_false_2 by exact Hq. reflexivity.
Qed.

(** X7. The main-axis direction round trips through the engine: after
    [setFlexDirection(fd)], [getFlexDirection()] is [fd] for each of the four
    directions, and the cache holds [fd] too; the two enum mappings are
    inverse to each other. *)
Theorem x7_flex_direction_round_trip (w : World) (this : NodeRef) (fd : FlexDirection.t)
    (t : Taffy.FlexDirection) :
  getFlexDirection (setFlexDirection this fd w) this = fd /\
  StyleCache.flexDirection (cacheOf (setFlexDirection this fd w) this) = fd /\
  Mapping.toYogaFlexDirection (Mapping.fromYogaFlexDirection fd) = fd /\
  Mapping.fromYogaFlexDirection (Mapping.toYogaFlexDirection t) = t.
Proof.
  split; [| split; [| split]].
  - unfold getFlexDirection, setFlexDirection. rewrite live_updateStyle.
    cbn [Style.flex_direction Style.set_flex_direction]. now destruct fd.
  - unfold setFlexDirection. rewrite cacheOf_updateStyle, cacheOf_updCache.
    rewrite decide_True by reflexivity. reflexivity.
  - now destruct fd.
  - now destruct t.
Qed.

End WithLaws.
End EdgeFacts.

Section TreeOps.
Context `{Builtins} `{Engine} `{!EngineTree}.

Lemma heap_insertChild this child index w x :
  heap (insertChild this child index w) x =
    let n :=
      if decide (this = x)
      then Node.set_childList
             (take index (Node.childList (heap w this)) ++
              child :: drop index (Node.childList (heap w this))) (heap w this)
      else heap w x in
    if decide (child = x) then Node.set_parent (Some this) n else n.
Proof.
  unfold insertChild. rewrite !heap_modify. cbn [heap with_tree].
  destruct (decide (child = x)) as [-> |]; [| reflexivity].
  reflexivity.
Qed.

Lemma childList_insertChild this child index w x :
  Node.childList (heap (insertChild this child index w) x) =
    if decide (this = x)
    then take index (Node.childList (heap w this)) ++
         child :: drop index (Node.childList (heap w this))
    else Node.childList (heap w x).
Proof.
  rewrite heap_insertChild. cbv zeta.
  destruct (decide (child = x)), (decide (this = x)); reflexivity.
Qed.

Lemma indexOf_None l x : indexOf l x = None <-> x ∉ l.
Proof.
  induction l as [| y l IH]; cbn [indexOf].
  - split; [intros _ Hin; inversion Hin | reflexivity].
  - destruct (decide (y = x)) as [-> | Hne].
    + split; [discriminate | intros Hn; exfalso; apply Hn; left].
    + rewrite not_elem_of_cons. destruct (indexOf l x); cbn.
      * split; [discriminate | intros [_ Hn]; now apply IH in Hn].
      * split; [intros _; split; [congruence | now apply IH] | reflexivity].
Qed.

Lemma indexOf_insert l x index :
  x ∉ l -> indexOf (take index l ++ x :: drop index l) x = Some (min index (length l)) /\
  delete (min index (length l)) (take index l ++ x :: drop index l) = l.
Proof.
  revert index. induction l as [| y l IH]; intros index Hn.
  - destruct index; cbn; rewrite decide_True by reflexivity; now split.
  - apply not_elem_of_cons in Hn as [Hne Hn]. destruct index as [| index].
    + cbn. rewrite decide_True by reflexivity. now split.
    + cbn [take drop app indexOf length min delete]. rewrite decide_False by congruence.
      destruct (IH index Hn) as [-> Hd]. cbn. split; [reflexivity |].
      change (Nat.min index (length l)) with (min index (length l)). now rewrite Hd.
Qed.

(** X8. [insertChild(child, index)] puts the child at position [index] of
    the child list, or at the end when [index] is past it: the count grows
    by one, the children before that position keep their index, those from
    it on move up by one, and the child's parent is the node. No third
    node's object changes. *)
Theorem x8_insertChild_places_child (w : World) (this child : NodeRef) (index : nat) :
  getChildCount (insertChild this child index w) this = S (getChildCount w this) /\
  getChild (insertChild this child index w) this (min index (getChildCount w this))
  = Some child /\
  (forall i, i < min index (getChildCount w this) ->
     getChild (insertChild this child index w) this i = getChild w this i) /\
  (forall i, min index (getChildCount w this) <= i ->
     getChild (insertChild this child index w) this (S i) = getChild w this i) /\
  getParent (insertChild this child index w) child = Some this /\
  (forall x, x <> this -> x <> child -> heap (insertChild this child index w) x = heap w x).
Proof.
  unfold getChildCount, getChild, getParent.
  rewrite !childList_insertChild, decide_True by reflexivity.
  set (l := Node.childList (heap w this)).
  assert (Hlen : length (take index l) = min index (length l)) by apply length_take.
  split; [| split; [| split; [| split; [| split]]]].
  - rewrite length_app, Hlen. cbn [length]. rewrite length_drop. lia.
  - rewrite lookup_app_r by lia. rewrite Hlen, Nat.sub_diag. reflexivity.
  - intros i Hi. rewrite lookup_app_l by lia. apply lookup_take_lt. lia.
  - intros i Hi. rewrite lookup_app_r by lia. rewrite Hlen.
    rewrite lookup_cons_ne_0 by lia. rewrite lookup_drop.
    destruct (decide (index <= length l)) as [Hle | Hgt].
    + f_equal. lia.
    + rewrite !(proj2 (lookup_ge_None _ _)) by lia. reflexivity.
  - rewrite heap_insertChild. cbv zeta. now rewrite decide_True by reflexivity.
  - intros x Hx Hc. rewrite heap_insertChild. cbv zeta.
    now rewrite !decide_False by congruence.
Qed.

(** X9. [removeChild] of a node that is not in the child list changes no
    [Node] object, whether the engine's call returns or throws: the child
    list is as it was, and the node's [parent] pointer is not cleared, even
    when it points to this node. *)
Theorem x9_removeChild_of_non_child (w : World) (this child : NodeRef) :
  child ∉ Node.childList (heap w this) ->
  heap (worldOf (removeChild this child w)) = heap w /\
  getParent (worldOf (removeChild this child w)) child = getParent w child /\
  instanceCache (worldOf (removeChild this child w)) = instanceCache w.
Proof.
  intros Hn. apply indexOf_None in Hn. unfold removeChild, getParent.
  destruct (removeChild_ _ _ _); cbn [worldOf]; [| auto].
  cbn [heap with_tree]. rewrite Hn. cbn [worldOf heap with_tree instanceCache]. auto.
Qed.

(** X10. Inserting a node that is not yet a child and removing it again
    gives the child list back: when [removeChild] returns, the list is the
    one before the insertion, the child's parent is [null], and no third
    node's object has changed. (The child must not have been in the list:
    [removeChild] removes the first occurrence.) *)
Theorem x10_insert_then_remove (w w' : World) (this child : NodeRef) (index : nat) :
  child ∉ Node.childList (heap w this) ->
  removeChild this child (insertChild this child index w) = Returned w' ->
  Node.childList (heap w' this) = Node.childList (heap w this) /\
  getChildCount w' this = getChildCount w this /\
  getParent w' child = None /\
  (forall x, x <> this -> x <> child -> heap w' x = heap w x).
Proof.
  intros Hn. unfold removeChild.
  destruct (removeChild_ _ _ _) as [t |]; [| discriminate].
  cbn [heap with_tree]. rewrite childList_insertChild, decide_True by reflexivity.
  destruct (indexOf_insert _ _ index Hn) as [-> Hd]. intros [= <-].
  unfold getChildCount, getParent.
  assert (Hl : Node.childList
                 (heap (modify child (Node.set_parent None)
                    (modify this
                       (fun n => Node.set_childList
                          (delete (min index (length (Node.childList (heap w this))))
                             (Node.childList n)) n)
                       (with_tree t (insertChild this child index w)))) this)
               = Node.childList (heap w this)).
  { rewrite !heap_modify. cbn [heap with_tree].
    destruct (decide (child = this)) as [-> |].
    - rewrite decide_True by reflexivity. cbn [Node.childList Node.set_parent Node.set_childList].
      now rewrite childList_insertChild, decide_True by reflexivity.
    - rewrite decide_True by reflexivity. cbn [Node.childList Node.set_childList].
      now rewrite childList_insertChild, decide_True by reflexivity. }
  split; [exact Hl |]. split; [now rewrite Hl |]. split.
  - rewrite heap_modify, decide_True by reflexivity. reflexivity.
  - intros x Hx Hc. rewrite !heap_modify. rewrite !decide_False by congruence.
    cbn [heap with_tree]. rewrite heap_insertChild. cbv zeta.
    now rewrite !decide_False by congruence.
Qed.

(** X11. [insertChild] does not detach a child from the parent it already
    has. After a node was inserted under [p1] and then under another node
    [p2], both child lists hold it and its parent pointer is [p2]; and when
    [removeChild] is then called on [p1] and returns, the parent pointer is
    [null] although [p2] still lists the node. *)
Theorem x11_insertChild_keeps_old_membership (w w' : World) (p1 p2 child : NodeRef)
    (i j : nat) :
  p1 <> p2 ->
  removeChild p1 child (insertChild p2 child j (insertChild p1 child i w)) = Returned w' ->
  child ∈ Node.childList (heap (insertChild p2 child j (insertChild p1 child i w)) p1) /\
  child ∈ Node.childList (heap (insertChild p2 child j (insertChild p1 child i w)) p2) /\
  getParent (insertChild p2 child j (insertChild p1 child i w)) child = Some p2 /\
  getParent w' child = None /\
  child ∈ Node.childList (heap w' p2).
Proof.
  intros Hne Hr.
  assert (Hin : forall (l : list NodeRef) k, child ∈ take k l ++ child :: drop k l).
  { intros l k. apply elem_of_app. right. left. }
  assert (Hm1 : child ∈ Node.childList (heap (insertChild p2 child j (insertChild p1 child i w)) p1)).
  { rewrite childList_insertChild, decide_False by congruence.
    rewrite childList_insertChild, decide_True by reflexivity. apply Hin. }
  assert (Hm2 : child ∈ Node.childList (heap (insertChild p2 child j (insertChild p1 child i w)) p2)).
  { rewrite childList_insertChild, decide_True by reflexivity. apply Hin. }
  split; [exact Hm1 |]. split; [exact Hm2 |]. split.
  { unfold getParent. rewrite heap_insertChild. cbv zeta.
    now rewrite decide_True by reflexivity. }
  revert Hr. unfold removeChild. destruct (removeChild_ _ _ _) as [t |]; [| discriminate].
  cbn [heap with_tree].
  destruct (indexOf _ child) as [k |] eqn:Ek.
  - intros [= <-]. split.
    + unfold getParent. rewrite heap_modify, decide_True by reflexivity. reflexivity.
    + rewrite !heap_modify. cbn [heap with_tree].
      destruct (decide (child = p2)) as [-> |].
      * rewrite decide_False by congruence.
        cbn [Node.childList Node.set_parent]. exact Hm2.
      * rewrite decide_False by congruence. exact Hm2.
  - apply indexOf_None in Ek. contradiction.
Qed.

End TreeOps.

Section RegistryMore.
Context `{Builtins} `{Engine} `{!EngineTree}.

Lemma mutate_instanceCache this m w : instanceCache (mutate this m w) = instanceCache w.
Proof.
  destruct m; cbn [mutate]; try reflexivity;
    unfold setFlexDirection, setAlignContent, setPosition, syncStyle, setMargin, setPadding,
      setBorder, resolveMarginsToTaffy, resolvePaddingsToTaffy, resolveBordersToTaffy;
    now rewrite updateStyle_instanceCache.
Qed.

Lemma updateStyle_nextRef this u w : nextRef (updateStyle this u w) = nextRef w.
Proof.
  unfold updateStyle. now rewrite (proj1 (proj2 (proj2 (markDirtyInternal_rest _ _)))).
Qed.

Lemma mutate_nextRef this m w : nextRef (mutate this m w) = nextRef w.
Proof.
  destruct m; cbn [mutate]; try reflexivity;
    unfold setFlexDirection, setAlignContent, setPosition, syncStyle, setMargin, setPadding,
      setBorder, resolveMarginsToTaffy, resolvePaddingsToTaffy, resolveBordersToTaffy;
    now rewrite updateStyle_nextRef.
Qed.

Lemma mutate_fields this m w x :
  Node.id (heap (mutate this m w) x) = Node.id (heap w x) /\
  Node.childList (heap (mutate this m w) x) = Node.childList (heap w x) /\
  Node.parent (heap (mutate this m w) x) = Node.parent (heap w x) /\
  Node.measureFunc (heap (mutate this m w) x) = Node.measureFunc (heap w x) /\
  Node.dirtiedFunc (heap (mutate this m w) x) = Node.dirtiedFunc (heap w x) /\
  Node._hasNewLayout (heap (mutate this m w) x) = Node._hasNewLayout (heap w x).
Proof.
  destruct (mutate_heap this m w) as [g Hg]. rewrite Hg.
  destruct (decide (this = x)) as [-> |], (writesStyle m); repeat split; reflexivity.
Qed.

(** X12. The constructor registers the new node: the object is a new
    reference, [getNodeById] on the handle the engine returned for the new
    leaf answers the new node (replacing whatever that handle answered
    before), every other handle answers as before, and no other [Node]
    object changes. The new node has no children, no parent and no
    callbacks, and constructing it calls no dirtied-callback. *)
Theorem x12_constructor_registers (w : World) :
  (newNode w).1 = nextRef w /\
  nextRef (newNode w).2 = S (nextRef w) /\
  idOf (newNode w).2 (newNode w).1 = (newLeaf (tree w) newStyle).1 /\
  getNodeById (newNode w).2 (newLeaf (tree w) newStyle).1 = Some (newNode w).1 /\
  (forall j, j <> (newLeaf (tree w) newStyle).1 ->
     getNodeById (newNode w).2 j = getNodeById w j) /\
  (forall x, x <> nextRef w -> heap (newNode w).2 x = heap w x) /\
  getChildCount (newNode w).2 (newNode w).1 = 0 /\
  getParent (newNode w).2 (newNode w).1 = None /\
  Node.measureFunc (heap (newNode w).2 (newNode w).1) = None /\
  Node.dirtiedFunc (heap (newNode w).2 (newNode w).1) = None /\
  dirtiedCalls (newNode w).2 = dirtiedCalls w.
Proof.
  unfold newNode, getNodeById, getChildCount, getParent, idOf.
  destruct (newLeaf (tree w) newStyle) as [i t]. cbn [fst snd].
  set (w0 := mkWorld (<[nextRef w := Node.fresh i]> (heap w)) (S (nextRef w))
               (<[i := nextRef w]> (instanceCache w)) t (useWebDefaults w) (dirtiedCalls w)).
  assert (Hbase :
    heap w0 (nextRef w) = Node.fresh i /\ instanceCache w0 = <[i := nextRef w]> (instanceCache w) /\
    (forall x, x <> nextRef w -> heap w0 x = heap w x) /\ dirtiedCalls w0 = dirtiedCalls w /\
    nextRef w0 = S (nextRef w)).
  { cbn. rewrite fn_lookup_insert. repeat split.
    intros x Hx. now rewrite fn_lookup_insert_ne by congruence. }
  destruct Hbase as (Hn & Hi & Ho & Hc & Hr).
  change (useWebDefaults w0) with (useWebDefaults w).
  destruct (useWebDefaults w); cbn [negb fst snd].
  - rewrite Hn, Hi, lookup_insert_eq. repeat split; try reflexivity; try assumption.
    intros j Hj. now rewrite lookup_insert_ne by congruence.
  - change (setAlignContent (nextRef w) Align.FlexStart
              (setFlexDirection (nextRef w) FlexDirection.Column w0))
      with (mutate (nextRef w) (SetAlignContent Align.FlexStart)
              (mutate (nextRef w) (SetFlexDirection FlexDirection.Column) w0)).
    set (w1 := mutate (nextRef w) (SetFlexDirection FlexDirection.Column) w0).
    set (w2 := mutate (nextRef w) (SetAlignContent Align.FlexStart) w1).
    destruct (mutate_fields (nextRef w) (SetAlignContent Align.FlexStart) w1 (nextRef w))
      as (F1 & F2 & F3 & F4 & F5 & _).
    destruct (mutate_fields (nextRef w) (SetFlexDirection FlexDirection.Column) w0 (nextRef w))
      as (G1 & G2 & G3 & G4 & G5 & _).
    fold w1 in G1, G2, G3, G4, G5. fold w2 in F1, F2, F3, F4, F5.
    assert (Hic : instanceCache w2 = <[i := nextRef w]> (instanceCache w)).
    { unfold w2, w1. now rewrite !mutate_instanceCache. }
    split; [reflexivity |]. split.
    { unfold w2, w1. now rewrite !mutate_nextRef. }
    rewrite F1, F2, F3, F4, F5, G1, G2, G3, G4, G5, Hn, Hic, lookup_insert_eq.
    repeat split; try reflexivity.
    + intros j Hj. now rewrite lookup_insert_ne by congruence.
    + intros x Hx. destruct (mutate_heap (nextRef w) (SetAlignContent Align.FlexStart) w1) as [g Hg].
      destruct (mutate_heap (nextRef w) (SetFlexDirection FlexDirection.Column) w0) as [g0 Hg0].
      unfold w2. rewrite Hg, decide_False by congruence.
      unfold w1. rewrite Hg0, decide_False by congruence. now apply Ho.
    + unfold w2, w1. rewrite !mutate_calls, Hc. cbn [writesStyle].
      assert (O1 : ownFiring w0 (nextRef w) = []).
      { unfold ownFiring. now rewrite Hn. }
      assert (O2 : ownFiring (mutate (nextRef w) (SetFlexDirection FlexDirection.Column) w0)
                     (nextRef w) = []).
      { apply ownFiring_dirty. now apply mutate_this. }
      now rewrite O1, O2, !app_nil_r.
Qed.

End RegistryMore.

Section PassKeeps.
Context `{Builtins} `{Engine} `{!EngineTree}.

(** What every step of a pass keeps, the pass keeps. [U] is a property of
    the style updaters the pass uses; the mirrored and the restored
    main-axis direction are written under a right-to-left direction only. *)
Section Keeps.
Variable P : World -> Prop.
Variable U : (Style.t -> Style.t) -> Prop.
Hypothesis P_updateStyle : forall r u w, U u -> P w -> P (updateStyle r u w).
Hypothesis P_lastDirection :
  forall r d w, P w -> P (updCache r (StyleCache.set_lastDirection d) w).
Hypothesis P_markVisit : forall r w, P w -> P (markVisit r w).
Hypothesis P_compute :
  forall w t i a m, computeLayoutWithMeasure (tree w) i a m = Some t -> P w -> P (with_tree t w).
Hypothesis U_border : forall r, U (Style.set_border r).
Hypothesis U_margin : forall r, U (Style.set_margin r).
Hypothesis U_padding : forall r, U (Style.set_padding r).
Hypothesis U_inset : forall r, U (Style.set_inset r).

Lemma insets_keeps fuel this w w' :
  resolveInsetsToTaffy fuel this w = Some w' -> P w -> P w'.
Proof.
  rewrite resolveInsetsToTaffy_preorder. apply preorder_keeps.
  - intros r w0 Hp. unfold insetsVisit. destruct (bool_decide _); now apply P_updateStyle.
  - intros r c w0 Hp. now apply P_lastDirection.
Qed.

Lemma mark_keeps fuel this w w' :
  markNewLayoutRecursive fuel this w = Some w' -> P w -> P w'.
Proof.
  rewrite markNewLayoutRecursive_preorder. apply preorder_keeps; [exact P_markVisit |].
  intros r c w0 Hp. exact Hp.
Qed.

Lemma flex_keeps val fuel this w w' :
  (forall fd, U (Style.set_flex_direction fd)) ->
  preorder (writeFlexDirection val) noEnter fuel this w = Some w' -> P w -> P w'.
Proof.
  intros Uf. apply preorder_keeps.
  - intros r w0 Hp. unfold writeFlexDirection. now apply P_updateStyle.
  - intros r c w0 Hp. exact Hp.
Qed.

Lemma beforeCompute_keeps fuel this direction w w1 :
  (effectiveDirectionOf direction w this = Direction.RTL ->
   forall fd, U (Style.set_flex_direction fd)) ->
  beforeCompute fuel this direction w = Some w1 -> P w -> P w1.
Proof.
  intros Uf. unfold beforeCompute, resolveBordersToTaffy, resolveMarginsToTaffy,
    resolvePaddingsToTaffy. cbv zeta.
  set (w0 := updCache this _ w).
  set (wb := updateStyle this (Style.set_border _) w0).
  set (wm := updateStyle this (Style.set_margin _) wb).
  set (wp := updateStyle this (Style.set_padding _) wm).
  intros E Hp.
  assert (Hwp : P wp).
  { unfold wp, wm, wb, w0. apply P_updateStyle; [apply U_padding |].
    apply P_updateStyle; [apply U_margin |]. apply P_updateStyle; [apply U_border |].
    now apply P_lastDirection. }
  destruct (resolveInsetsToTaffy fuel this wp) as [wi |] eqn:Ei; [| discriminate].
  cbn in E. pose proof (insets_keeps _ _ _ _ Ei Hwp) as Hwi.
  destruct (bool_decide (effectiveDirectionOf direction w this = Direction.RTL)) eqn:Er.
  - apply bool_decide_eq_true_1 in Er. rewrite applyRTLFlip_preorder in E.
    exact (flex_keeps _ _ _ _ _ (Uf Er) E Hwi).
  - now injection E as <-.
Qed.

Lemma afterCompute_keeps fuel this rtl w w' :
  (rtl = true -> forall fd, U (Style.set_flex_direction fd)) ->
  afterCompute fuel this rtl w = Some w' -> P w -> P w'.
Proof.
  intros Uf. unfold afterCompute. intros E Hp. destruct rtl.
  - destruct (restoreFlexDirection fuel this w) as [wr |] eqn:Er; [| discriminate].
    cbn in E. rewrite restoreFlexDirection_preorder in Er.
    exact (mark_keeps _ _ _ _ E (flex_keeps _ _ _ _ _ (Uf eq_refl) Er Hp)).
  - cbn in E. exact (mark_keeps _ _ _ _ E Hp).
Qed.

Lemma calculateLayout_keeps fuel this width height direction w o :
  (effectiveDirectionOf direction w this = Direction.RTL ->
   forall fd, U (Style.set_flex_direction fd)) ->
  calculateLayout fuel this width height direction w = Some o -> P w -> P (worldOf o).
Proof.
  intros Uf. rewrite calculateLayout_phases. intros E Hp.
  destruct (beforeCompute fuel this direction w) as [w1 |] eqn:Eb; [| discriminate].
  pose proof (beforeCompute_keeps _ _ _ _ _ Uf Eb Hp) as Hp1.
  destruct (computeLayoutWithMeasure _ _ _ _) as [t |] eqn:Ec.
  - destruct (afterCompute _ _ _ _) as [w2 |] eqn:Ea; [| discriminate].
    injection E as <-. cbn [worldOf].
    apply (afterCompute_keeps _ _ _ _ _ (fun Hr => Uf (bool_decide_eq_true_1 _ Hr)) Ea).
    exact (P_compute _ _ _ _ _ Ec Hp1).
  - injection E as <-. exact Hp1.
Qed.

End Keeps.

Lemma propagateDirtyToParent_instanceCache fuel : forall this w w',
  propagateDirtyToParent fuel this w = Some w' -> instanceCache w' = instanceCache w.
Proof.
  induction fuel as [| fuel IH]; intros this w w' E; [discriminate |].
  cbn [propagateDirtyToParent] in E.
  destruct (Node.parent (heap w this)) as [p |]; [| now injection E as <-].
  apply IH in E. rewrite E.
  destruct (negb (Node._isDirty (heap w p))); [| reflexivity].
  destruct (Node.dirtiedFunc _); reflexivity.
Qed.

Lemma calculateLayout_instanceCache fuel this width height direction w o :
  calculateLayout fuel this width height direction w = Some o ->
  instanceCache (worldOf o) = instanceCache w.
Proof.
  intros E.
  apply (calculateLayout_keeps (fun w' => instanceCache w' = instanceCache w) (fun _ => True))
    with (fuel := fuel) (this := this) (width := width) (height := height)
         (direction := direction) (w := w); auto.
  intros r u w0 _ Hp. now rewrite updateStyle_instanceCache.
Qed.

(** X13. The registry changes in the constructor and in [free] only: the
    style setters, [setDirection], [setPositionType], the callback setters,
    [insertChild], [removeChild] (returning or throwing), [markLayoutSeen],
    [reset], [markDirty] and a layout pass (returning or throwing) all leave
    [Node.instanceCache] as it was, so [getNodeById] answers the same for
    every handle before and after them. *)
Theorem x13_registry_stable (w : World) (this : NodeRef) :
  (forall m, instanceCache (mutate this m w) = instanceCache w) /\
  (forall d, instanceCache (setDirection this d w) = instanceCache w) /\
  (forall p, instanceCache (setPositionType this p w) = instanceCache w) /\
  (forall f, instanceCache (setMeasureFunc this f w) = instanceCache w) /\
  (forall f, instanceCache (setDirtiedFunc this f w) = instanceCache w) /\
  (forall c i, instanceCache (insertChild this c i w) = instanceCache w) /\
  (forall c, instanceCache (worldOf (removeChild this c w)) = instanceCache w) /\
  instanceCache (markLayoutSeen this w) = instanceCache w /\
  instanceCache (reset this w) = instanceCache w /\
  (forall fuel,
     match markDirtyNode fuel this w with
     | Some w' => instanceCache w' = instanceCache w
     | None => True
     end) /\
  (forall fuel width height direction,
     match calculateLayout fuel this width height direction w with
     | Some o => forall i, getNodeById (worldOf o) i = getNodeById w i
     | None => True
     end).
Proof.
  split; [exact (fun m => mutate_instanceCache this m w) |].
  split; [reflexivity |].
  split; [intros p; unfold setPositionType, syncStyle; now rewrite updateStyle_instanceCache |].
  split; [intros [f |]; reflexivity |].
  split; [reflexivity |]. split; [reflexivity |].
  split.
  { intros c. unfold removeChild. destruct (removeChild_ _ _ _); [| reflexivity].
    cbn [heap with_tree]. destruct (indexOf _ _); reflexivity. }
  split; [reflexivity |]. split; [reflexivity |]. split.
  - intros fuel. destruct (markDirtyNode fuel this w) as [w' |] eqn:E; [| exact I].
    unfold markDirtyNode in E. destruct (Node.measureFunc (heap w this)); [| now injection E as <-].
    apply propagateDirtyToParent_instanceCache in E. rewrite E.
    now rewrite (proj1 (proj2 (markDirtyInternal_rest _ _))).
  - intros fuel width height direction.
    destruct (calculateLayout fuel this width height direction w) as [o |] eqn:E; [| exact I].
    intros i. unfold getNodeById. now rewrite (calculateLayout_instanceCache _ _ _ _ _ _ _ E).
Qed.

Lemma sameSettings_refl n : sameSettings n n.
Proof. repeat split. Qed.

Lemma sameSettings_step n n1 n2 :
  sameSettings n n1 -> sameSettings n1 n2 -> sameSettings n n2.
Proof.
  intros (A1 & A2 & A3 & A4 & A5 & A6) (B1 & B2 & B3 & B4 & B5 & B6).
  repeat split; congruence.
Qed.

Lemma sameSettings_pointwise (w0 w w' : World) :
  (forall x, sameSettings (heap w x) (heap w' x)) ->
  (forall x, sameSettings (heap w0 x) (heap w x)) ->
  forall x, sameSettings (heap w0 x) (heap w' x).
Proof. intros Hs Hp x. exact (sameSettings_step _ _ _ (Hp x) (Hs x)). Qed.

(** X14. A layout pass, returning or throwing, writes no field of any
    [Node] object other than the two flags and the cached last direction:
    every object keeps its handle, child list, parent pointer and callbacks,
    and its style cache but for the last direction. So the getters that
    read the [Node] object (child count, parent, direction, and margin,
    padding, border and position, which read the style cache) answer after
    the pass what they answered before it. The getters that read the
    engine's style ([getFlexDirection], [getPositionType]) are not
    covered. *)
Theorem x14_pass_keeps_node_fields (fuel : nat) (this : NodeRef) (width height : float)
    (direction : option Direction.t) (w : World) (o : Outcome) :
  calculateLayout fuel this width height direction w = Some o ->
  forall x,
    sameSettings (heap w x) (heap (worldOf o) x) /\
    getChildCount (worldOf o) x = getChildCount w x /\
    getParent (worldOf o) x = getParent w x /\
    getDirection (worldOf o) x = getDirection w x /\
    (forall e,
       getMargin (worldOf o) x e = getMargin w x e /\
       getPadding (worldOf o) x e = getPadding w x e /\
       getBorder (worldOf o) x e = getBorder w x e /\
       getPosition (worldOf o) x e = getPosition w x e).
Proof.
  intros E.
  assert (Hs : forall x, sameSettings (heap w x) (heap (worldOf o) x)).
  { apply (calculateLayout_keeps (fun w' => forall x, sameSettings (heap w x) (heap w' x))
             (fun _ => True))
      with (fuel := fuel) (this := this) (width := width) (height := height)
           (direction := direction) (w := w); auto.
    - intros r u w0 _. apply sameSettings_pointwise. intros x. rewrite updateStyle_heap.
      destruct (decide (r = x)) as [-> |]; repeat split.
    - intros r d w0. apply sameSettings_pointwise. intros x. rewrite updCache_heap.
      destruct (decide (r = x)) as [-> |]; repeat split.
    - intros r w0. apply sameSettings_pointwise. intros x. rewrite markVisit_heap.
      destruct (decide (r = x)) as [-> |]; repeat split.
    - intros x. apply sameSettings_refl. }
  intros x. destruct (Hs x) as (S1 & S2 & S3 & S4 & S5 & S6).
  split; [exact (Hs x) |].
  unfold getChildCount, getParent, getDirection, getMargin, getPadding, getBorder,
    getPosition, cacheOf.
  rewrite S2, S3.
  pose proof (f_equal StyleCache.direction S6) as Sd.
  pose proof (f_equal StyleCache.margins S6) as Sm.
  pose proof (f_equal StyleCache.paddings S6) as Sp.
  pose proof (f_equal StyleCache.borders S6) as Sb.
  pose proof (f_equal StyleCache.insets S6) as Si.
  cbn in Sd, Sm, Sp, Sb, Si. rewrite Sd, Sm, Sp, Sb, Si. repeat split.
Qed.

(** X15. [freeRecursive] unregisters but does not detach: every [Node]
    object is what it was (a freed child is still in its parent's child
    list and still has its parent pointer and its callbacks), and after it
    the measure dispatcher answers the 0 by 0 size for the handle of every
    node of the freed subtree, so a freed node's measurement callback is
    not called again. *)
Theorem x15_freed_nodes_keep_their_objects (fuel n : nat) (this : NodeRef) (w : World) :
  depthLe w n this -> n <= fuel ->
  exists w',
    freeRecursive fuel this w = Some w' /\ heap w' = heap w /\
    forall x, descendant w this x ->
      forall known available,
        measureDispatcher w' known available (idOf w x) = Some (Size.mk 0 0).
Proof.
  intros Hd Hle.
  destruct (freeRecursive_spec fuel this w (depthLe_mono _ _ _ _ Hle Hd))
    as (w' & E & Hh & _ & Hnone).
  exists w'. split; [exact E |]. split; [exact Hh |].
  intros x Hx known available. unfold measureDispatcher. now rewrite (Hnone x Hx).
Qed.

(** X16. The measure dispatcher handed to the engine: for the handle of a
    registered node with a measurement callback it answers what the callback
    answers on the available space translated to Yoga's terms (a definite
    size as Exactly, max-content as Undefined with [NaN], min-content as
    AtMost with 0), whatever the known dimensions are, and it throws when the
    callback throws; for a handle that is not registered, and for a node
    whose callback was unset, it answers the 0 by 0 size. *)
Theorem x16_measure_dispatch (w : World) (this : NodeRef) (f : MeasureFunction)
    (known : Size.t) (aw ah : AvailableSpace) :
  getNodeById w (idOf w this) = Some this ->
  measureDispatcher (setMeasureFunc this (Some f) w) known (Available.mk aw ah) (idOf w this)
  = f (mapToYoga aw).1 (mapToYoga aw).2 (mapToYoga ah).1 (mapToYoga ah).2 /\
  measureDispatcher (unsetMeasureFunc this (setMeasureFunc this (Some f) w)) known
    (Available.mk aw ah) (idOf w this) = Some (Size.mk 0 0) /\
  (forall i, getNodeById w i = None ->
     measureDispatcher w known (Available.mk aw ah) i = Some (Size.mk 0 0)).
Proof.
  intros Hreg. unfold measureDispatcher, unsetMeasureFunc, setMeasureFunc, getNodeById in *.
  cbn [instanceCache with_tree modify with_heap heap Available.width Available.height].
  rewrite Hreg. rewrite !fn_lookup_insert. cbn [Node.measureFunc Node.set_measureFunc].
  split; [| split].
  - destruct (mapToYoga aw) as [w_ wMode], (mapToYoga ah) as [h_ hMode]. cbn [fst snd].
    destruct (f w_ wMode h_ hMode) as [[rw rh] |]; reflexivity.
  - reflexivity.
  - intros i Hi. now rewrite Hi.
Qed.

(** X20. A layout pass dirties its root on the [Node] side before it asks
    the engine: whatever the outcome, the dirtied-callback invocations
    recorded after the pass start with those recorded before it followed by
    the root's own Clean-to-Dirty invocation, so a Clean root with a
    measurement callback and a dirtied-callback has that callback called by
    [calculateLayout] itself. *)
Theorem x20_pass_fires_root_callback (fuel : nat) (this : NodeRef) (width height : float)
    (direction : option Direction.t) (w : World) (o : Outcome) :
  calculateLayout fuel this width height direction w = Some o ->
  exists rest, dirtiedCalls (worldOf o) = dirtiedCalls w ++ ownFiring w this ++ rest.
Proof.
  rewrite calculateLayout_phases.
  set (P := fun w' : World =>
              exists rest, dirtiedCalls w' = dirtiedCalls w ++ ownFiring w this ++ rest).
  assert (Pu : forall r u w0, True -> P w0 -> P (updateStyle r u w0)).
  { intros r u w0 _ [rest Hr]. exists (rest ++ ownFiring w0 r).
    now rewrite updateStyle_calls, Hr, <- !app_assoc. }
  assert (Pl : forall r d w0, P w0 -> P (updCache r (StyleCache.set_lastDirection d) w0)).
  { intros r d w0 Hp. exact Hp. }
  assert (Pm : forall r w0, P w0 -> P (markVisit r w0)).
  { intros r w0 Hp. exact Hp. }
  destruct (beforeCompute fuel this direction w) as [w1 |] eqn:Eb; [| discriminate].
  assert (Hp1 : P w1).
  { revert Eb. unfold beforeCompute, resolveBordersToTaffy, resolveMarginsToTaffy,
      resolvePaddingsToTaffy. cbv zeta.
    set (w0 := updCache this _ w).
    set (wb := updateStyle this (Style.set_border _) w0).
    assert (Hb : P wb).
    { exists []. unfold wb. rewrite updateStyle_calls. unfold w0.
      now rewrite ownFiring_updCache, app_nil_r. }
    set (wm := updateStyle this (Style.set_margin _) wb).
    set (wp := updateStyle this (Style.set_padding _) wm).
    assert (Hwp : P wp) by (apply Pu; [exact I |]; apply Pu; [exact I | exact Hb]).
    destruct (resolveInsetsToTaffy fuel this wp) as [wi |] eqn:Ei; [| discriminate].
    cbn. pose proof (insets_keeps P (fun _ => True) Pu Pl (fun _ => I) _ _ _ _ Ei Hwp) as Hwi.
    destruct (bool_decide _); [| now intros [= <-]].
    rewrite applyRTLFlip_preorder. intros E.
    exact (flex_keeps P (fun _ => True) Pu _ _ _ _ _ (fun _ => I) E Hwi). }
  destruct (computeLayoutWithMeasure _ _ _ _) as [t |] eqn:Ec.
  - destruct (afterCompute _ _ _ _) as [w2 |] eqn:Ea; [| discriminate].
    intros [= <-]. cbn [worldOf].
    exact (afterCompute_keeps P (fun _ => True) Pu Pm _ _ _ _ _ (fun _ _ => I) Ea Hp1).
  - intros [= <-]. exact Hp1.
Qed.

End PassKeeps.

Section MappingFacts.

(** X24. What the enum mappings of alignment and position type keep. Going
    to the engine and back is the identity except that align-items sends
    Auto and the three space members to Stretch, align-self sends the three
    space members to Auto, align-content sends Auto and Baseline to Stretch,
    and the position type sends Static to Relative. Coming from the engine
    and going back is the identity on the members [src/mapping.ts] names;
    any other member of the engine's alignment enums goes to Auto by the
    [default:] branch and comes back as Stretch (align-items and
    align-content) or as the engine's Auto (align-self). *)
Theorem x24_enum_round_trips (a : Align.t) :
  MappingMore.toYogaAlign (MappingMore.fromYogaAlignItems a)
  = match a with
    | Align.Auto | Align.SpaceBetween | Align.SpaceAround | Align.SpaceEvenly => Align.Stretch
    | _ => a
    end /\
  MappingMore.toYogaAlignSelf (MappingMore.fromYogaAlignSelf a)
  = match a with
    | Align.SpaceBetween | Align.SpaceAround | Align.SpaceEvenly => Align.Auto
    | _ => a
    end /\
  MappingMore.toYogaAlignContent (Mapping.fromYogaAlignContent a)
  = match a with
    | Align.Auto | Align.Baseline => Align.Stretch
    | _ => a
    end /\
  (forall p,
     MappingMore.toYogaPositionType (Mapping.fromYogaPositionType p)
     = match p with PositionType.Static => PositionType.Relative | _ => p end) /\
  (forall t,
     MappingMore.fromYogaAlignItems (MappingMore.toYogaAlign t)
     = match t with TaffyAlign.OtherItems => TaffyAlign.Stretch | _ => t end) /\
  (forall t,
     MappingMore.fromYogaAlignSelf (MappingMore.toYogaAlignSelf t)
     = match t with TaffyAlign.SelfOther => TaffyAlign.SelfAuto | _ => t end) /\
  (forall t,
     Mapping.fromYogaAlignContent (MappingMore.toYogaAlignContent t)
     = match t with Taffy.OtherAlignContent => Taffy.Stretch | _ => t end) /\
  (MappingMore.toYogaAlign TaffyAlign.OtherItems = Align.Auto /\
   MappingMore.toYogaAlignSelf TaffyAlign.SelfOther = Align.Auto /\
   MappingMore.toYogaAlignContent Taffy.OtherAlignContent = Align.Auto) /\
  (forall t, Mapping.fromYogaPositionType (MappingMore.toYogaPositionType t) = t).
Proof.
  repeat split; try (now destruct a); intros; now destruct t || now destruct p.
Qed.

End MappingFacts.

Section ComputedEdges.
Context `{Builtins} `{Engine} `{!EngineTree} `{MathBuiltins} `{!EngineLaws}.

Lemma live_setMargin this edge v w :
  Style.margin (getStyle (tree (setMargin this edge v w)) (idOf (setMargin this edge v w) this))
  = resolveMargins (cacheOf (setMargin this edge v w) this).
Proof.
  unfold setMargin, resolveMarginsToTaffy. rewrite live_updateStyle, cacheOf_updateStyle.
  reflexivity.
Qed.

Lemma live_setPadding this edge v w :
  Style.padding (getStyle (tree (setPadding this edge v w)) (idOf (setPadding this edge v w) this))
  = resolvePaddings (cacheOf (setPadding this edge v w) this).
Proof.
  unfold setPadding, resolvePaddingsToTaffy. rewrite live_updateStyle, cacheOf_updateStyle.
  reflexivity.
Qed.

Lemma live_setBorder this edge b w :
  Style.border (getStyle (tree (setBorder this edge b w)) (idOf (setBorder this edge b w) this))
  = resolveBorders (cacheOf (setBorder this edge b w) this).
Proof.
  unfold setBorder, resolveBordersToTaffy. rewrite live_updateStyle, cacheOf_updateStyle.
  reflexivity.
Qed.

Lemma computedSide_physical extract rtl r side :
  physical side -> computedSide extract rtl r side = extract (sideOf side r).
Proof. intros [-> | [-> | [-> | ->]]]; reflexivity. Qed.

(** X22. Computed values of physical edges round trip: after a margin,
    padding or border of [n] points was set on Left, Right, Top or Bottom,
    the computed getter of that family answers [n] for that edge, whatever
    the other keys of the cache hold and whatever the direction is, before
    any layout pass has run. *)
Theorem x22_computed_physical_round_trip (w : World) (this : NodeRef) (side : Edge.t)
    (n : float) :
  physical side ->
  getComputedMargin (setMargin this side (JNum n) w) this side = n /\
  getComputedPadding (setPadding this side (JNum n) w) this side = n /\
  getComputedBorder (setBorder this side (Some n) w) this side = n.
Proof.
  intros Hs. unfold getComputedMargin, getComputedPadding, getComputedBorder. cbv zeta.
  rewrite live_setMargin, live_setPadding, live_setBorder.
  rewrite !(computedSide_physical _ _ _ _ Hs).
  rewrite cacheOf_setMargin, cacheOf_setPadding, cacheOf_setBorder.
  rewrite !decide_True by reflexivity.
  unfold resolveMargins, resolvePaddings, resolveBorders.
  rewrite (resolveEdges_physical parsedEdge _ _ _ side (JLength n) Hs),
    (resolveEdges_physical parsedEdge _ _ _ side (JLength n) Hs),
    (resolveEdges_physical borderEdge _ _ _ side (JLength n) Hs).
  - repeat split.
  - cbn [StyleCache.borders StyleCache.set_borders]. now rewrite fn_lookup_insert.
  - cbn [StyleCache.paddings StyleCache.set_paddings]. now rewrite fn_lookup_insert.
  - cbn [StyleCache.margins StyleCache.set_margins]. now rewrite fn_lookup_insert.
Qed.

(** X23. Computed values of logical edges round trip under either
    direction: on a node whose margin keys Left and Right hold nothing,
    after [setMargin(Edge.Start, n)] the computed margin of [Start] is [n],
    and after [setMargin(Edge.End, n)] the computed margin of [End] is [n],
    whether the node's last direction is left-to-right or right-to-left. *)
Theorem x23_computed_logical_round_trip (w : World) (this : NodeRef) (n : float) :
  StyleCache.margins (cacheOf w this) Edge.Left = JUndefined ->
  StyleCache.margins (cacheOf w this) Edge.Right = JUndefined ->
  getComputedMargin (setMargin this Edge.Start (JNum n) w) this Edge.Start = n /\
  getComputedMargin (setMargin this Edge.End_ (JNum n) w) this Edge.End_ = n.
Proof.
  intros Hl Hr. unfold getComputedMargin. cbv zeta.
  rewrite !live_setMargin, !cacheOf_setMargin, !decide_True by reflexivity.
  unfold resolveMargins. rewrite !resolveEdges_chain.
  unfold isRTL. cbn [StyleCache.lastDirection StyleCache.set_margins StyleCache.margins].
  destruct (bool_decide (StyleCache.lastDirection (cacheOf w this) = Direction.RTL));
    cbn [computedSide chainRect Rect.left Rect.right firstSet];
    rewrite ?fn_lookup_insert, ?fn_lookup_insert_ne by discriminate;
    rewrite ?Hl, ?Hr; cbn; split; reflexivity.
Qed.

End ComputedEdges.

Section FlagsAndReset.
Context `{Builtins} `{Engine} `{!EngineTree}.

Lemma propagateDirtyToParent_hasNewLayout fuel : forall this w w' x,
  propagateDirtyToParent fuel this w = Some w' ->
  Node._hasNewLayout (heap w' x) = Node._hasNewLayout (heap w x).
Proof.
  induction fuel as [| fuel IH]; intros this w w' x E; [discriminate |].
  cbn [propagateDirtyToParent] in E.
  destruct (Node.parent (heap w this)) as [p |]; [| now injection E as <-].
  apply (IH _ _ _ x) in E. rewrite E.
  destruct (negb (Node._isDirty (heap w p))); [| reflexivity].
  assert (Hm : Node._hasNewLayout (heap (modify p (Node.set_isDirty true) w) x)
               = Node._hasNewLayout (heap w x)).
  { rewrite heap_modify. now destruct (decide (p = x)) as [-> |]. }
  destruct (Node.dirtiedFunc _); exact Hm.
Qed.

(** X25. The new-layout flag is written by a layout pass, by
    [markLayoutSeen] and by [reset] only. No style setter, no callback
    setter, no tree operation and no [markDirty] changes what
    [hasNewLayout] answers for any node; [markLayoutSeen] clears it for
    its node and for no other. *)
Theorem x25_new_layout_flag_writers (w : World) (this x : NodeRef) :
  (forall m, hasNewLayout (mutate this m w) x = hasNewLayout w x) /\
  (forall d, hasNewLayout (setDirection this d w) x = hasNewLayout w x) /\
  (forall f, hasNewLayout (setMeasureFunc this f w) x = hasNewLayout w x) /\
  (forall f, hasNewLayout (setDirtiedFunc this f w) x = hasNewLayout w x) /\
  (forall c i, hasNewLayout (insertChild this c i w) x = hasNewLayout w x) /\
  (forall c, hasNewLayout (worldOf (removeChild this c w)) x = hasNewLayout w x) /\
  (forall fuel,
     match markDirtyNode fuel this w with
     | Some w' => hasNewLayout w' x = hasNewLayout w x
     | None => True
     end) /\
  hasNewLayout (markLayoutSeen this w) x
  = (if decide (this = x) then false else hasNewLayout w x).
Proof.
  unfold hasNewLayout.
  split; [intros m; apply mutate_fields |].
  split.
  { intros d. unfold setDirection. rewrite updCache_heap.
    now destruct (decide (this = x)) as [-> |]. }
  split.
  { intros [f |]; unfold setMeasureFunc; cbn [heap with_tree]; rewrite heap_modify;
      now destruct (decide (this = x)) as [-> |]. }
  split.
  { intros f. unfold setDirtiedFunc. rewrite heap_modify.
    now destruct (decide (this = x)) as [-> |]. }
  split.
  { intros c i. rewrite heap_insertChild. cbv zeta.
    destruct (decide (c = x)) as [-> |]; destruct (decide (this = x)) as [-> |];
      reflexivity. }
  split.
  { intros c. unfold removeChild. destruct (removeChild_ _ _ _); [| reflexivity].
    cbn [heap with_tree]. destruct (indexOf _ _); [| reflexivity].
    cbn [worldOf]. rewrite !heap_modify. cbn [heap with_tree].
    destruct (decide (c = x)) as [-> |]; destruct (decide (this = x)) as [-> |];
      reflexivity. }
  split.
  { intros fuel. destruct (markDirtyNode fuel this w) as [w' |] eqn:E; [| exact I].
    unfold markDirtyNode in E.
    destruct (Node.measureFunc (heap w this)); [| now injection E as <-].
    apply (propagateDirtyToParent_hasNewLayout _ _ _ _ x) in E. rewrite E.
    rewrite markDirtyInternal_heap. cbn [heap with_tree].
    now destruct (decide (this = x)) as [-> |]. }
  unfold markLayoutSeen. rewrite heap_modify.
  now destruct (decide (this = x)) as [-> |].
Qed.

(** X21. [reset] puts the node's own fields back to those of a new node
    (initial style cache, no callbacks, not dirty, new layout, no children)
    and keeps its handle, its registration and its own parent pointer. It
    changes no other [Node] object: the nodes that were its children keep
    their parent pointers to it. It calls no dirtied-callback. After it,
    the margin, padding and border getters answer unset for every edge and
    the position getter answers Auto for the six edges it stores. *)
Theorem x21_reset_restores_own_fields_only (w : World) (this : NodeRef) :
  heap (reset this w) this
  = Node.mk (idOf w this) [] (getParent w this) None None false true
      (Node._isReferenceBaseline (heap w this)) StyleCache.initial /\
  (forall x, x <> this -> heap (reset this w) x = heap w x) /\
  (forall c, c ∈ Node.childList (heap w this) -> c <> this ->
     getParent (reset this w) c = getParent w c) /\
  getChildCount (reset this w) this = 0 /\
  instanceCache (reset this w) = instanceCache w /\
  dirtiedCalls (reset this w) = dirtiedCalls w /\
  (forall e,
     getMargin (reset this w) this e = unsetValue /\
     getPadding (reset this w) this e = unsetValue /\
     getBorder (reset this w) this e = nan /\
     (compound e = false -> getPosition (reset this w) this e = Value.mk Unit.Auto nan)).
Proof.
  assert (Hh : forall x,
            heap (reset this w) x =
              if decide (this = x)
              then Node.mk (idOf w this) [] (getParent w this) None None false true
                     (Node._isReferenceBaseline (heap w this)) StyleCache.initial
              else heap w x).
  { intros x. unfold reset. cbv zeta. rewrite !heap_modify. cbn [heap with_tree].
    rewrite !heap_modify. cbn [heap with_tree].
    destruct (decide (this = x)) as [-> |]; [| reflexivity].
    rewrite !decide_True by reflexivity. reflexivity. }
  split; [rewrite Hh, decide_True by reflexivity; reflexivity |].
  split; [intros x Hx; rewrite Hh, decide_False by congruence; reflexivity |].
  split; [intros c _ Hc; unfold getParent; rewrite Hh, decide_False by congruence;
          reflexivity |].
  split; [unfold getChildCount; rewrite Hh, decide_True by reflexivity; reflexivity |].
  split; [reflexivity |]. split; [reflexivity |].
  intros e. unfold getMargin, getPadding, getBorder, getPosition, cacheOf.
  rewrite Hh, decide_True by reflexivity. cbn [Node._styleCache].
  destruct e; repeat split; try reflexivity; discriminate.
Qed.

Section NoFlexWrites.
Context `{!EngineLaws}.

(** X19. A layout pass that does not run right-to-left writes no
    main-axis direction: whatever the outcome, for every handle of the
    engine, the engine's [flex_direction] after the pass is the one before
    it. *)
Theorem x19_ltr_pass_writes_no_flex_direction (fuel : nat) (this : NodeRef)
    (width height : float) (direction : option Direction.t) (w : World) (o : Outcome) :
  effectiveDirectionOf direction w this <> Direction.RTL ->
  calculateLayout fuel this width height direction w = Some o ->
  forall i,
    Style.flex_direction (getStyle (tree (worldOf o)) i)
    = Style.flex_direction (getStyle (tree w) i).
Proof.
  intros Hltr E.
  apply (calculateLayout_keeps
           (fun w' => forall i, Style.flex_direction (getStyle (tree w') i)
                                = Style.flex_direction (getStyle (tree w) i))
           (fun u => forall s, Style.flex_direction (u s) = Style.flex_direction s))
    with (fuel := fuel) (this := this) (width := width) (height := height)
         (direction := direction) (w := w); try reflexivity; try exact E.
  - intros r u w0 Hu Hp i. rewrite updateStyle_tree.
    destruct (decide (idOf w0 r = i)) as [<- | Hne].
    + now rewrite getStyle_setStyle, Hu.
    + now rewrite getStyle_setStyle_ne by exact Hne.
  - intros r d w0 Hp. exact Hp.
  - intros r w0 Hp. exact Hp.
  - intros w0 t i a m Ec Hp j. cbn [tree with_tree].
    now rewrite (getStyle_compute _ _ _ _ _ Ec).
  - intros Hr. contradiction.
Qed.

End NoFlexWrites.
End FlagsAndReset.

Section InsetsPass.
Context `{Builtins} `{Engine} `{!EngineTree}.

Lemma set_lastDirection_same d c :
  StyleCache.lastDirection c = d -> StyleCache.set_lastDirection d c = c.
Proof. destruct c. cbn. now intros ->. Qed.

Lemma directionOnly_refl d w : directionOnly d w w.
Proof. intros x. now left. Qed.

Lemma directionOnly_trans d w1 w2 w3 :
  directionOnly d w1 w2 -> directionOnly d w2 w3 -> directionOnly d w1 w3.
Proof.
  intros H12 H23 x. destruct (H23 x) as [-> | ->], (H12 x) as [-> | ->]; auto.
Qed.

Lemma directionSet_keep d w w' x :
  directionSet d w x -> directionOnly d w w' -> directionSet d w' x.
Proof.
  unfold directionSet. intros Hs Ho. destruct (Ho x) as [-> | ->]; [exact Hs | reflexivity].
Qed.

Lemma directionOnly_final d w w' x :
  directionOnly d w w' -> directionSet d w' x ->
  cacheOf w' x = StyleCache.set_lastDirection d (cacheOf w x).
Proof.
  unfold directionSet. intros Ho Hs. destruct (Ho x) as [E | E]; [| exact E].
  rewrite E in Hs |- *. symmetry. now apply set_lastDirection_same.
Qed.

Lemma cacheOf_insetsVisit r w x : cacheOf (insetsVisit r w) x = cacheOf w x.
Proof. unfold insetsVisit. destruct (bool_decide _); apply cacheOf_updateStyle. Qed.

Lemma directionOnly_insetsEnter d r c w :
  directionSet d w r -> directionOnly d w (insetsEnter r c w).
Proof.
  unfold directionSet. intros Hr x. unfold insetsEnter. rewrite cacheOf_updCache, Hr.
  destruct (decide (c = x)) as [-> |]; auto.
Qed.

Lemma cacheOf_markVisit r w x : cacheOf (markVisit r w) x = cacheOf w x.
Proof.
  unfold cacheOf. rewrite markVisit_heap. now destruct (decide (r = x)) as [-> |].
Qed.

Lemma skeleton_sym w w' : skeleton w w' -> skeleton w' w.
Proof.
  intros (Hi & Hk & Hf). split; [| split]; intros x; symmetry; [apply Hi | apply Hk | apply Hf].
Qed.

(** The inset walk of a pass, for a property [L] of a node that the visit
    of the node establishes once its last direction is [d], and that the
    other steps of the walk keep. *)
Section Walk.
Variable d : Direction.t.
Variable w0 : World.
Variable root : NodeRef.
Variable L : World -> NodeRef -> Prop.
Hypothesis L_est : forall r w,
  skeleton w0 w -> descendant w0 root r -> directionSet d w r -> L (insetsVisit r w) r.
Hypothesis L_visit : forall r x w,
  skeleton w0 w -> descendant w0 root r -> descendant w0 root x -> r <> x ->
  L w x -> L (insetsVisit r w) x.
Hypothesis L_enter : forall r c x w,
  directionSet d w r -> directionSet d w x -> L w x -> L (insetsEnter r c w) x.

Lemma insets_loop fuel this
    (IH : forall c w,
       skeleton w0 w -> descendant w0 root c -> depthLe w fuel c -> directionSet d w c ->
       exists w',
         preorder insetsVisit insetsEnter fuel c w = Some w' /\ skeleton w w' /\
         directionOnly d w w' /\
         (forall x, descendant w0 root x -> directionSet d w x -> L w x -> L w' x) /\
         (forall x, descendant w c x -> directionSet d w' x /\ L w' x)) :
  forall cs wa,
    skeleton w0 wa -> directionSet d wa this ->
    (forall c, c ∈ cs -> descendant w0 root c /\ depthLe wa fuel c) ->
    exists wb,
      forChildren (fun c w => preorder insetsVisit insetsEnter fuel c (insetsEnter this c w))
        cs wa = Some wb /\
      skeleton wa wb /\ directionOnly d wa wb /\
      (forall x, descendant w0 root x -> directionSet d wa x -> L wa x -> L wb x) /\
      (forall c x, c ∈ cs -> descendant wa c x -> directionSet d wb x /\ L wb x).
Proof.
  induction cs as [| c cs IHcs]; intros wa Hsk Hthis Hcs.
  - exists wa. split; [reflexivity |]. split; [apply skeleton_refl |].
    split; [apply directionOnly_refl |]. split; [auto |].
    intros c x Hin. inversion Hin.
  - destruct (Hcs c (list_elem_of_here _ _)) as [Hdc Hdepth].
    pose proof (skeleton_insetsEnter this c wa) as Hsk1.
    pose proof (directionOnly_insetsEnter d this c wa Hthis) as Hdo1.
    assert (Hsc : directionSet d (insetsEnter this c wa) c).
    { unfold directionSet, insetsEnter. rewrite cacheOf_updCache, decide_True by reflexivity.
      exact Hthis. }
    destruct (IH c (insetsEnter this c wa) (skeleton_trans _ _ _ Hsk Hsk1) Hdc
                (skeleton_depthLe _ _ _ _ Hsk1 Hdepth) Hsc)
      as (w2 & E2 & Hsk2 & Hdo2 & Hst2 & Hd2).
    pose proof (skeleton_trans _ _ _ Hsk1 Hsk2) as Hska2.
    pose proof (directionOnly_trans _ _ _ _ Hdo1 Hdo2) as Hdoa2.
    destruct (IHcs w2 (skeleton_trans _ _ _ Hsk Hska2)
                (directionSet_keep _ _ _ _ Hthis Hdoa2)) as (wb & Eb & Hskb & Hdob & Hstb & Hdb).
    { intros c' Hc'. destruct (Hcs c' (list_elem_of_further _ _ _ Hc')) as [Hd' Hdep'].
      split; [exact Hd' |]. exact (skeleton_depthLe _ _ _ _ Hska2 Hdep'). }
    exists wb. cbn [forChildren]. rewrite E2.
    split; [exact Eb |]. split; [exact (skeleton_trans _ _ _ Hska2 Hskb) |].
    split; [exact (directionOnly_trans _ _ _ _ Hdoa2 Hdob) |].
    assert (Hst : forall x, descendant w0 root x -> directionSet d wa x -> L wa x ->
                            directionSet d w2 x /\ L w2 x).
    { intros x Hx Hsx Hlx. split; [exact (directionSet_keep _ _ _ _ Hsx Hdoa2) |].
      apply Hst2; [exact Hx | exact (directionSet_keep _ _ _ _ Hsx Hdo1) |].
      now apply L_enter. }
    split.
    + intros x Hx Hsx Hlx. destruct (Hst x Hx Hsx Hlx) as [Hs2 Hl2]. now apply Hstb.
    + intros c' x Hin Hdesc. apply elem_of_cons in Hin as [-> | Hin].
      * destruct (Hd2 x (proj1 (skeleton_descendant _ _ _ _ Hsk1) Hdesc)) as [Hs2 Hl2].
        split; [exact (directionSet_keep _ _ _ _ Hs2 Hdob) |].
        apply Hstb; [| exact Hs2 | exact Hl2].
        apply (descendant_trans _ _ _ _ Hdc).
        exact (proj2 (skeleton_descendant _ _ _ _ Hsk) Hdesc).
      * apply (Hdb c' x Hin). exact (proj1 (skeleton_descendant _ _ _ _ Hska2) Hdesc).
Qed.

Lemma insets_walk fuel : forall this w,
  skeleton w0 w -> descendant w0 root this -> depthLe w fuel this -> directionSet d w this ->
  exists w',
    preorder insetsVisit insetsEnter fuel this w = Some w' /\ skeleton w w' /\
    directionOnly d w w' /\
    (forall x, descendant w0 root x -> directionSet d w x -> L w x -> L w' x) /\
    (forall x, descendant w this x -> directionSet d w' x /\ L w' x).
Proof.
  induction fuel as [| fuel IH]; intros this w Hsk Hd Hdepth Hs; [destruct Hdepth |].
  pose proof (skeleton_insetsVisit this w) as Hsk1.
  assert (Hdo1 : directionOnly d w (insetsVisit this w)).
  { intros x. left. apply cacheOf_insetsVisit. }
  assert (Hkids : Node.childList (heap (insetsVisit this w) this) = Node.childList (heap w this)).
  { apply Hsk1. }
  destruct (insets_loop fuel this IH (Node.childList (heap (insetsVisit this w) this))
              (insetsVisit this w) (skeleton_trans _ _ _ Hsk Hsk1)
              (directionSet_keep _ _ _ _ Hs Hdo1))
    as (wb & Eb & Hskb & Hdob & Hstb & Hdb).
  { intros c Hc. rewrite Hkids in Hc. split.
    - apply (descendant_trans _ _ _ _ Hd).
      apply (proj2 (skeleton_descendant _ _ _ _ Hsk)).
      exact (desc_child _ _ _ _ Hc (desc_self _ _)).
    - apply (skeleton_depthLe _ _ _ _ Hsk1). cbn [depthLe] in Hdepth.
      rewrite Forall_forall in Hdepth. apply Hdepth. now apply list_elem_of_In. }
  assert (Hst1 : forall x, descendant w0 root x -> directionSet d w x -> L w x ->
                           L (insetsVisit this w) x).
  { intros x Hx Hsx Hlx. destruct (decide (this = x)) as [<- | Hne].
    - now apply L_est.
    - now apply L_visit. }
  exists wb. cbn [preorder]. split; [exact Eb |].
  split; [exact (skeleton_trans _ _ _ Hsk1 Hskb) |].
  split; [exact (directionOnly_trans _ _ _ _ Hdo1 Hdob) |].
  split.
  - intros x Hx Hsx Hlx. apply Hstb; [exact Hx | exact (directionSet_keep _ _ _ _ Hsx Hdo1) |].
    now apply Hst1.
  - intros x Hdesc. inversion Hdesc as [r | r c x' Hc Hcx]; subst.
    + split; [exact (directionSet_keep _ _ _ _ (directionSet_keep _ _ _ _ Hs Hdo1) Hdob) |].
      apply Hstb; [exact Hd | exact (directionSet_keep _ _ _ _ Hs Hdo1) |].
      now apply L_est.
    + apply (Hdb c x); [now rewrite Hkids |].
      exact (proj1 (skeleton_descendant _ _ _ _ Hsk1) Hcx).
Qed.

Hypothesis L_flex : forall r fd x w,
  L w x -> L (updateStyle r (Style.set_flex_direction fd) w) x.
Hypothesis L_compute : forall w t i a m x,
  computeLayoutWithMeasure (tree w) i a m = Some t -> L w x -> L (with_tree t w) x.
Hypothesis L_mark : forall r x w, L w x -> L (markVisit r w) x.

Lemma pass_walk fuel n width height direction :
  d = effectiveDirectionOf direction w0 root ->
  depthLe w0 n root -> n <= fuel ->
  exists o,
    calculateLayout fuel root width height direction w0 = Some o /\
    skeleton w0 (worldOf o) /\
    forall x, descendant w0 root x ->
      cacheOf (worldOf o) x = StyleCache.set_lastDirection d (cacheOf w0 x) /\
      L (worldOf o) x.
Proof.
  intros Hd Hdepth Hle. rewrite calculateLayout_phases.
  unfold beforeCompute, resolveBordersToTaffy, resolveMarginsToTaffy, resolvePaddingsToTaffy.
  cbv zeta. rewrite <- Hd.
  set (wc := updCache root (StyleCache.set_lastDirection d) w0).
  set (wb := updateStyle root (Style.set_border _) wc).
  set (wm := updateStyle root (Style.set_margin _) wb).
  set (wp := updateStyle root (Style.set_padding _) wm).
  assert (Hskp : skeleton w0 wp).
  { unfold wp, wm, wb, wc.
    eapply skeleton_trans; [| apply skeleton_updateStyle].
    eapply skeleton_trans; [| apply skeleton_updateStyle].
    eapply skeleton_trans; [| apply skeleton_updateStyle].
    apply skeleton_set_lastDirection. }
  assert (Hcp : forall x,
            cacheOf wp x =
              if decide (root = x) then StyleCache.set_lastDirection d (cacheOf w0 root)
              else cacheOf w0 x).
  { intros x. unfold wp, wm, wb, wc. now rewrite !cacheOf_updateStyle, cacheOf_updCache. }
  assert (Hsp : directionSet d wp root).
  { unfold directionSet. rewrite Hcp, decide_True by reflexivity. reflexivity. }
  destruct (insets_walk fuel root wp Hskp (desc_self _ _)
              (skeleton_depthLe _ _ _ _ Hskp (depthLe_mono _ _ _ _ Hle Hdepth)) Hsp)
    as (wi & Ei & Hski & Hdoi & _ & Hdi).
  rewrite resolveInsetsToTaffy_preorder, Ei. cbn [mbind option_bind].
  set (Q := fun w' : World =>
              forall x, descendant w0 root x ->
                cacheOf w' x = StyleCache.set_lastDirection d (cacheOf w0 x) /\ L w' x).
  assert (Qi : Q wi).
  { intros x Hx. destruct (Hdi x (proj1 (skeleton_descendant _ _ _ _ Hskp) Hx)) as [Hs Hl].
    split; [| exact Hl]. rewrite (directionOnly_final _ _ _ _ Hdoi Hs), Hcp.
    now destruct (decide (root = x)) as [-> |]. }
  assert (Qu : forall r u w, (exists fd, u = Style.set_flex_direction fd) -> Q w ->
                             Q (updateStyle r u w)).
  { intros r u w [fd ->] Hq x Hx. destruct (Hq x Hx) as [Hc Hl].
    split; [now rewrite cacheOf_updateStyle | now apply L_flex]. }
  assert (Qm : forall r w, Q w -> Q (markVisit r w)).
  { intros r w Hq x Hx. destruct (Hq x Hx) as [Hc Hl].
    split; [now rewrite cacheOf_markVisit | now apply L_mark]. }
  assert (Uf : forall fd : Taffy.FlexDirection,
            exists fd', Style.set_flex_direction fd = Style.set_flex_direction fd').
  { intros fd. now exists fd. }
  pose proof (skeleton_trans _ _ _ Hskp Hski) as Hsk0i.
  assert (Hflip : exists wf,
            (if bool_decide (d = Direction.RTL) then applyRTLFlip fuel root wi else Some wi)
            = Some wf /\ skeleton w0 wf /\ Q wf).
  { destruct (bool_decide (d = Direction.RTL)).
    - destruct (walk_returns (writeFlexDirection mirroredFlexDirection) noEnter fuel n root wi)
        as (wf & Ef & Hskf).
      + intros r w. apply skeleton_writeFlexDirection.
      + intros r c w. apply skeleton_refl.
      + exact (skeleton_depthLe _ _ _ _ Hsk0i Hdepth).
      + exact Hle.
      + exists wf. rewrite applyRTLFlip_preorder. split; [exact Ef |].
        split; [exact (skeleton_trans _ _ _ Hsk0i Hskf) |].
        exact (flex_keeps Q _ Qu _ _ _ _ _ Uf Ef Qi).
    - exists wi. split; [reflexivity |]. split; [exact Hsk0i | exact Qi]. }
  destruct Hflip as (wf & Ef & Hskf & Qf). rewrite Ef.
  destruct (computeLayoutWithMeasure _ _ _ _) as [t |] eqn:Ec.
  - destruct (afterCompute_spec fuel n root (bool_decide (d = Direction.RTL)) (with_tree t wf))
      as (w2 & E2 & Hsk2 & _).
    + exact (skeleton_depthLe _ _ _ _
               (skeleton_trans _ _ _ Hskf (skeleton_with_tree t wf)) Hdepth).
    + exact Hle.
    + exists (Returned w2). rewrite E2. split; [reflexivity |]. cbn [worldOf].
      split; [exact (skeleton_trans _ _ _ (skeleton_trans _ _ _ Hskf (skeleton_with_tree t wf))
                       Hsk2) |].
      apply (afterCompute_keeps Q _ Qu Qm _ _ _ _ _ (fun _ => Uf) E2).
      intros x Hx. destruct (Qf x Hx) as [Hc Hl]. split; [exact Hc |].
      exact (L_compute _ _ _ _ _ _ Ec Hl).
  - exists (Threw wf). split; [reflexivity |]. split; [exact Hskf | exact Qf].
Qed.

End Walk.

(** X17. A layout pass hands its direction down the whole tree: when the
    call ends, returning or throwing, the style cache of every node at or
    below the root is the cache it had before with the last direction set to
    the direction of the pass (the argument, else the root's own direction,
    else left-to-right). Nothing else in any of these caches changes, and a
    node's own [setDirection] value plays no part below the root. *)
Theorem x17_pass_hands_direction_down (fuel n : nat) (this : NodeRef)
    (width height : float) (direction : option Direction.t) (w : World) :
  depthLe w n this -> n <= fuel ->
  exists o,
    calculateLayout fuel this width height direction w = Some o /\
    forall x, descendant w this x ->
      cacheOf (worldOf o) x
      = StyleCache.set_lastDirection (effectiveDirectionOf direction w this) (cacheOf w x).
Proof.
  intros Hdepth Hle.
  destruct (pass_walk (effectiveDirectionOf direction w this) w this (fun _ _ => True))
    with (fuel := fuel) (n := n) (width := width) (height := height) (direction := direction)
    as (o & E & _ & Ho); auto.
  exists o. split; [exact E |]. intros x Hx. apply (Ho x Hx).
Qed.

Section Resolved.
Context `{!EngineLaws}.

Lemma liveInset_updateStyle_other r u w x :
  idOf w r <> idOf w x -> liveInset (updateStyle r u w) x = liveInset w x.
Proof.
  intros Hne. unfold liveInset. rewrite idOf_updateStyle, updateStyle_tree.
  now rewrite getStyle_setStyle_ne by exact Hne.
Qed.

Lemma liveInset_updateStyle_keep r u w x :
  (forall s, Style.inset (u s) = Style.inset s) ->
  liveInset (updateStyle r u w) x = liveInset w x.
Proof.
  intros Hu. destruct (decide (idOf w r = idOf w x)) as [E | Hne].
  - unfold liveInset. rewrite idOf_updateStyle, updateStyle_tree, <- E.
    now rewrite getStyle_setStyle, Hu.
  - now apply liveInset_updateStyle_other.
Qed.

(** X18. A layout pass resolves the inset of every node at or below the
    root under the direction of the pass: in a tree whose nodes have
    distinct handles, when the call ends, returning or throwing, the
    engine's inset of each of these nodes is what its cached inset keys
    resolve to under its new last direction (auto on all four sides when its
    cached position type is Static). *)
Theorem x18_pass_resolves_insets_below_root (fuel n : nat) (this : NodeRef)
    (width height : float) (direction : option Direction.t) (w : World) :
  depthLe w n this -> n <= fuel -> distinctIds w this ->
  exists o,
    calculateLayout fuel this width height direction w = Some o /\
    forall x, descendant w this x ->
      StyleCache.lastDirection (cacheOf (worldOf o) x) = effectiveDirectionOf direction w this /\
      liveInset (worldOf o) x = expectedInset (cacheOf (worldOf o) x).
Proof.
  intros Hdepth Hle Hids.
  destruct (pass_walk (effectiveDirectionOf direction w this) w this insetResolved)
    with (fuel := fuel) (n := n) (width := width) (height := height) (direction := direction)
    as (o & E & _ & Ho); auto.
  - intros r w1 _ _ _. unfold insetResolved, insetsVisit, expectedInset.
    destruct (bool_decide (StyleCache.position (cacheOf w1 r) = PositionType.Static)) eqn:Eb;
      unfold liveInset; rewrite live_updateStyle, cacheOf_updateStyle, Eb; reflexivity.
  - intros r x w1 Hsk Hr Hx Hne Hl. unfold insetResolved in *.
    rewrite cacheOf_insetsVisit, <- Hl. unfold insetsVisit.
    assert (Hid : idOf w1 r <> idOf w1 x).
    { destruct Hsk as (Hi & _). rewrite !Hi. intros Eid. apply Hne.
      exact (Hids r x Hr Hx Eid). }
    destruct (bool_decide _); now apply liveInset_updateStyle_other.
  - intros r c x w1 Hr Hx Hl. unfold insetResolved, insetsEnter in *.
    unfold directionSet in Hr, Hx.
    assert (Hc : cacheOf (updCache c (StyleCache.set_lastDirection
                    (StyleCache.lastDirection (cacheOf w1 r))) w1) x = cacheOf w1 x).
    { rewrite cacheOf_updCache. destruct (decide (c = x)) as [-> |]; [| reflexivity].
      apply set_lastDirection_same. congruence. }
    rewrite Hc, <- Hl. unfold liveInset. now rewrite idOf_updCache.
  - intros r fd x w1 Hl. unfold insetResolved in *.
    rewrite cacheOf_updateStyle, <- Hl. now apply liveInset_updateStyle_keep.
  - intros w1 t i a m x Ec Hl. unfold insetResolved, liveInset, cacheOf, idOf in *.
    cbn [tree heap with_tree]. now rewrite (getStyle_compute _ _ _ _ _ Ec).
  - intros r x w1 Hl. unfold insetResolved in *. rewrite cacheOf_markVisit, <- Hl.
    unfold liveInset, idOf. rewrite markVisit_heap.
    destruct (decide (r = x)) as [-> |]; reflexivity.
  - exists o. split; [exact E |]. intros x Hx. destruct (Ho x Hx) as [Hc Hl].
    split; [now rewrite Hc | exact Hl].
Qed.

End Resolved.
End InsetsPass.

(** ** The further properties on concrete trees *)

Section OnMoreExamples.
#[local] Existing Instance refEngine.
#[local] Existing Instance refBuiltins.
#[local] Existing Instance refEngineTree.
#[local] Existing Instance refMath.
#[local] Existing Instance refEngine_laws.

Lemma familyWorld_descendants x :
  descendant familyWorld 0%nat x -> x = 0%nat \/ x = 1%nat.
Proof.
  intros Hd. inversion Hd as [r | r c x' Hc Hcx]; subst; [now left |]. right.
  assert (Hc1 : c = 1%nat).
  { vm_compute in Hc. inversion Hc as [| ? ? ? Hnil]; subst; [reflexivity | inversion Hnil]. }
  subst c. exact (leaf_descendant familyWorld 1%nat x eq_refl Hcx).
Qed.

Lemma familyWorld_distinctIds : distinctIds familyWorld 0%nat.
Proof.
  intros a b Ha Hb.
  destruct (familyWorld_descendants a Ha) as [-> | ->],
    (familyWorld_descendants b Hb) as [-> | ->]; vm_compute; congruence.
Qed.

(** X3 on a new node: [setPosition(Edge.Start, "50%")] and
    [setPositionType(Static)]. *)
Lemma x3_inset_values_wellformed_witness :
  insetsOk (cacheOf (setPosition 0%nat Edge.Start (JStr "50%") (newNode emptyWorld).2) 0%nat)
  = true /\
  engineRect (liveInset (setPosition 0%nat Edge.Start (JStr "50%") (newNode emptyWorld).2)
                0%nat) = true.
Proof.
  destruct (x3_inset_values_wellformed (newNode emptyWorld).2 0%nat Edge.Start (JStr "50%")
              PositionType.Static eq_refl) as (H1 & H2 & _).
  split; [exact H1 | exact H2].
Defined.

(** X4 on a new node, for the key [Left]. *)
Lemma x4_edge_getters_round_trip_witness :
  getMargin (setMargin 0%nat Edge.Left (JStr "50%") (newNode emptyWorld).2) 0%nat Edge.Left
  = parseToValue (JStr "50%") /\
  getBorder (setBorder 0%nat Edge.Left (Some 2%float) (newNode emptyWorld).2) 0%nat Edge.Left
  = 2%float.
Proof.
  destruct (x4_edge_getters_round_trip (newNode emptyWorld).2 0%nat Edge.Left (JStr "50%")
              (Some 2%float) eq_refl) as ((Hm & _ & Hb) & _).
  split; [exact Hm | exact Hb].
Defined.

(** X5 on a new node: [setPosition(Edge.Left, 20)], then [getPosition]. *)
Lemma x5_position_getter_reads_unset_witness :
  getPosition (setPosition 0%nat Edge.Left (JNum 20) (newNode emptyWorld).2) 0%nat Edge.Left
  = unsetValue.
Proof.
  refine (proj1 (x5_position_getter_reads_unset (newNode emptyWorld).2 0%nat Edge.Left
                   (JNum 20) _)).
  vm_compute. reflexivity.
Defined.

(** X6 on the node of [insetWorld]. *)
Lemma x6_position_type_emulation_witness :
  getPositionType (setPositionType 0%nat PositionType.Static insetWorld) 0%nat
  = PositionType.Relative /\
  liveInset (setPositionType 0%nat PositionType.Static insetWorld) 0%nat = auto4.
Proof.
  destruct (x6_position_type_emulation insetWorld 0%nat
              PositionType.Static PositionType.Relative) as (H1 & H2 & _).
  split; [exact H1 | exact H2].
Defined.

(** X7 on a new node. *)
Lemma x7_flex_direction_round_trip_witness :
  getFlexDirection (setFlexDirection 0%nat FlexDirection.RowReverse (newNode emptyWorld).2)
    0%nat = FlexDirection.RowReverse.
Proof.
  exact (proj1 (x7_flex_direction_round_trip
                  (newNode emptyWorld).2 0%nat FlexDirection.RowReverse Taffy.Row)).
Defined.

(** X9 on [threeNodes]: node 1 is not a child of node 0. *)
Lemma x9_removeChild_of_non_child_witness :
  heap (worldOf (removeChild 0%nat 1%nat threeNodes)) = heap threeNodes.
Proof.
  apply (x9_removeChild_of_non_child threeNodes 0%nat 1%nat).
  intros Hin. vm_compute in Hin. inversion Hin.
Defined.

(** X10 on [threeNodes]: node 1 inserted under node 0 and removed again. *)
Lemma x10_insert_then_remove_witness :
  Node.childList
    (heap (worldOf (removeChild 0%nat 1%nat (insertChild 0%nat 1%nat 0 threeNodes))) 0%nat)
  = Node.childList (heap threeNodes 0%nat).
Proof.
  refine (proj1 (x10_insert_then_remove threeNodes
                   (worldOf (removeChild 0%nat 1%nat (insertChild 0%nat 1%nat 0 threeNodes)))
                   0%nat 1%nat 0 _ _)).
  - intros Hin. vm_compute in Hin. inversion Hin.
  - vm_compute. reflexivity.
Defined.

(** X11 on [threeNodes]: node 2 inserted under node 0, then under node 1. *)
Lemma x11_insertChild_keeps_old_membership_witness :
  2%nat ∈ Node.childList
            (heap (insertChild 1%nat 2%nat 0 (insertChild 0%nat 2%nat 0 threeNodes)) 0%nat) /\
  getParent (insertChild 1%nat 2%nat 0 (insertChild 0%nat 2%nat 0 threeNodes)) 2%nat
  = Some 1%nat.
Proof.
  destruct (x11_insertChild_keeps_old_membership threeNodes
              (worldOf (removeChild 0%nat 2%nat
                          (insertChild 1%nat 2%nat 0 (insertChild 0%nat 2%nat 0 threeNodes))))
              0%nat 1%nat 2%nat 0 0) as (H1 & _ & H3 & _).
  - discriminate.
  - vm_compute. reflexivity.
  - split; [exact H1 | exact H3].
Defined.

(** X14 on [familyWorld], right-to-left. *)
Lemma x14_pass_keeps_node_fields_witness :
  getMargin
    (worldOf (outcomeAfter
                (calculateLayout 2 0%nat nan nan (Some Direction.RTL) familyWorld)))
    1%nat Edge.Start = getMargin familyWorld 1%nat Edge.Start.
Proof.
  assert (E : calculateLayout 2 0%nat nan nan (Some Direction.RTL) familyWorld
              = Some (outcomeAfter
                        (calculateLayout 2 0%nat nan nan (Some Direction.RTL) familyWorld)))
    by (vm_compute; reflexivity).
  destruct (x14_pass_keeps_node_fields 2 0%nat nan nan (Some Direction.RTL) familyWorld _ E
              1%nat) as (_ & _ & _ & _ & Hg).
  exact (proj1 (Hg Edge.Start)).
Defined.

(** X15 on the three levels of [threeLevels]. *)
Lemma x15_freed_nodes_keep_their_objects_witness :
  exists w',
    freeRecursive 3 0%nat threeLevels = Some w' /\ heap w' = heap threeLevels /\
    forall x, descendant threeLevels 0%nat x ->
      forall known available,
        measureDispatcher w' known available (idOf threeLevels x) = Some (Size.mk 0 0).
Proof.
  apply (x15_freed_nodes_keep_their_objects 3 3).
  - vm_compute. repeat constructor.
  - lia.
Defined.

(** X16 on a new node with the callback [fixedMeasure]. *)
Lemma x16_measure_dispatch_witness :
  measureDispatcher (setMeasureFunc 0%nat (Some fixedMeasure) (newNode emptyWorld).2)
    (Size.mk 0 0) (Available.mk MaxContent (Definite 5)) (idOf (newNode emptyWorld).2 0%nat)
  = fixedMeasure (mapToYoga MaxContent).1 (mapToYoga MaxContent).2
      (mapToYoga (Definite 5)).1 (mapToYoga (Definite 5)).2.
Proof.
  refine (proj1 (x16_measure_dispatch (newNode emptyWorld).2 0%nat fixedMeasure (Size.mk 0 0)
                   MaxContent (Definite 5) _)).
  vm_compute. reflexivity.
Defined.

(** X17 on [familyWorld], right-to-left. *)
Lemma x17_pass_hands_direction_down_witness :
  exists o,
    calculateLayout 2 0%nat nan nan (Some Direction.RTL) familyWorld = Some o /\
    forall x, descendant familyWorld 0%nat x ->
      cacheOf (worldOf o) x
      = StyleCache.set_lastDirection
          (effectiveDirectionOf (Some Direction.RTL) familyWorld 0%nat) (cacheOf familyWorld x).
Proof.
  apply (x17_pass_hands_direction_down 2 2).
  - vm_compute. repeat constructor.
  - lia.
Defined.

(** X18 on [familyWorld], right-to-left. *)
Lemma x18_pass_resolves_insets_below_root_witness :
  exists o,
    calculateLayout 2 0%nat nan nan (Some Direction.RTL) familyWorld = Some o /\
    forall x, descendant familyWorld 0%nat x ->
      StyleCache.lastDirection (cacheOf (worldOf o) x)
      = effectiveDirectionOf (Some Direction.RTL) familyWorld 0%nat /\
      liveInset (worldOf o) x = expectedInset (cacheOf (worldOf o) x).
Proof.
  apply (x18_pass_resolves_insets_below_root 2 2).
  - vm_compute. repeat constructor.
  - lia.
  - exact familyWorld_distinctIds.
Defined.

(** X19 on a single Row node, left-to-right. *)
Lemma x19_ltr_pass_writes_no_flex_direction_witness :
  Style.flex_direction
    (getStyle
       (tree (worldOf (outcomeAfter
                         (calculateLayout 1 0%nat nan nan (Some Direction.LTR)
                            (rowWorld (Some fixedMeasure)))))) 1%N)
  = Style.flex_direction (getStyle (tree (rowWorld (Some fixedMeasure))) 1%N).
Proof.
  assert (E : calculateLayout 1 0%nat nan nan (Some Direction.LTR) (rowWorld (Some fixedMeasure))
              = Some (outcomeAfter
                        (calculateLayout 1 0%nat nan nan (Some Direction.LTR)
                           (rowWorld (Some fixedMeasure)))))
    by (vm_compute; reflexivity).
  assert (Hltr : effectiveDirectionOf (Some Direction.LTR) (rowWorld (Some fixedMeasure)) 0%nat
                 <> Direction.RTL) by discriminate.
  exact (x19_ltr_pass_writes_no_flex_direction 1 0%nat nan nan (Some Direction.LTR)
           (rowWorld (Some fixedMeasure)) _ Hltr E 1%N).
Defined.

(** X20 on the measured child of [parentChildWorld], laid out as a root. *)
Lemma x20_pass_fires_root_callback_witness :
  exists rest,
    dirtiedCalls
      (worldOf (outcomeAfter (calculateLayout 1 1%nat nan nan None parentChildWorld)))
    = dirtiedCalls parentChildWorld ++ ownFiring parentChildWorld 1%nat ++ rest.
Proof.
  assert (E : calculateLayout 1 1%nat nan nan None parentChildWorld
              = Some (outcomeAfter (calculateLayout 1 1%nat nan nan None parentChildWorld)))
    by (vm_compute; reflexivity).
  exact (x20_pass_fires_root_callback 1 1%nat nan nan None parentChildWorld _ E).
Defined.

(** X22 on a new node, for the key [Left]. *)
Lemma x22_computed_physical_round_trip_witness :
  getComputedMargin (setMargin 0%nat Edge.Left (JNum 5) (newNode emptyWorld).2) 0%nat Edge.Left
  = 5%float.
Proof.
  exact (proj1 (x22_computed_physical_round_trip (newNode emptyWorld).2 0%nat Edge.Left 5%float
                  (or_introl eq_refl))).
Defined.

(** X23 on a new node. *)
Lemma x23_computed_logical_round_trip_witness :
  getComputedMargin (setMargin 0%nat Edge.Start (JNum 5) (newNode emptyWorld).2) 0%nat
    Edge.Start = 5%float /\
  getComputedMargin (setMargin 0%nat Edge.End_ (JNum 5) (newNode emptyWorld).2) 0%nat
    Edge.End_ = 5%float.
Proof.
  apply (x23_computed_logical_round_trip
           (newNode emptyWorld).2 0%nat 5%float); reflexivity.
Defined.

End OnMoreExamples.
